(** * Ingress Authorizer: [scripts/whitelist_ip.sh]

    A shallow embedding of the firewall-whitelisting script of the
    freqtrade deployment scripts, and the properties its specification
    states about it; with them, further properties of the script, and of
    the arguments and the task-definition rewriting of
    [scripts/update-strategy.js].

    The script is a straight line of shell: flags are parsed into
    variables, missing identifiers are filled in by read-only queries to
    the cloud control plane, and one mutating call closes the run.  It runs
    under [set -euo pipefail], so a command that exits with a status other
    than zero ends the run with that status.

    Layout of the development:
    - [Bash]: the string operations of the shell the script uses
      (parameter expansion, pattern tests, word splitting);
    - [Aws]: the state of the cloud provider as the script's queries see
      it, the queries themselves and their text rendering;
    - [Sh]: the monad of a run (cloud state, log of external calls,
      standard output and error, early exit);
    - [Script]: the script, block by block, with the line numbers of
      [whitelist_ip.sh];
    - [Spec]: the notions the specification words its properties with;
    - [Sample]: a deployment and callers to run the script on;
    - [Notions], [SampleLines]: the notions the further properties are
      worded with, and a command line to run;
    - [Js], [Strategy], [StrategyNotions], [StrategySample]: the values
      and the steps of [update-strategy.js] up to the rewriting of the task
      definition;
    - [TextFacts], [StepFacts], [ReadFacts], [TargetFacts], [RegionFacts],
      [PortFacts], [LocatorFacts], [RuleFacts]: the lemmas of the
      specification's properties;
    - [FlagFacts], [UrlFacts], [RunFacts], [ExitFacts], [RegionalFacts],
      [OutcomeFacts], [StrategyFacts]: the lemmas of the further
      properties;
    - the properties C1 to C10 of the specification;
    - the further properties X1 to X14 of [whitelist_ip.sh] and X15 to X19
      of [update-strategy.js], at the end. *)

From Stdlib Require Import String Ascii List ZArith Bool Lia.
From Stdlib Require Import DecimalString DecimalZ DecimalPos DecimalFacts.
Import ListNotations.

Local Open Scope string_scope.
Local Open Scope list_scope.

(* ================================================================== *)
(** * Shell string operations *)
(* ================================================================== *)

Module Bash.

(** Characters the script's text processing singles out. *)
Definition TAB : ascii := ascii_of_nat 9.
Definition NL : ascii := ascii_of_nat 10.
Definition VT : ascii := ascii_of_nat 11.
Definition FF : ascii := ascii_of_nat 12.
Definition CR : ascii := ascii_of_nat 13.
Definition SP : ascii := ascii_of_nat 32.

(** [[ -z "$s" ]] and [[ -n "$s" ]]. *)
Definition is_empty (s : string) : bool :=
  match s with EmptyString => true | String _ _ => false end.

Definition non_empty (s : string) : bool := negb (is_empty s).

(** [$( ... )] drops every trailing newline of the command's output. *)
Fixpoint chomp (s : string) : string :=
  match s with
  | EmptyString => EmptyString
  | String c s' =>
      let r := chomp s' in
      if Ascii.eqb c NL && is_empty r then EmptyString else String c r
  end.

(** [${s#*SEP}]: the shortest prefix matching [*SEP] is removed, that is,
    everything up to and including the first occurrence of [sep]; a string
    without [sep] is left as it is. *)
Fixpoint after_first_opt (sep s : string) : option string :=
  if String.prefix sep s then Some (substring (String.length sep) (String.length s) s)
  else match s with
       | EmptyString => None
       | String _ s' => after_first_opt sep s'
       end.

Definition strip_shortest_prefix (sep s : string) : string :=
  match after_first_opt sep s with Some r => r | None => s end.

(** [${s%%C*}]: the longest suffix matching [C*] is removed, that is,
    everything from the first occurrence of the character [c] on. *)
Fixpoint before_first (c : ascii) (s : string) : string :=
  match s with
  | EmptyString => EmptyString
  | String a s' => if Ascii.eqb a c then EmptyString else String a (before_first c s')
  end.

(** [[ "$s" == *C* ]]. *)
Fixpoint contains (c : ascii) (s : string) : bool :=
  match s with
  | EmptyString => false
  | String a s' => Ascii.eqb a c || contains c s'
  end.

(** [${s##*C}]: the longest prefix matching [*C] is removed, that is,
    everything up to and including the last occurrence of [c]. *)
Fixpoint after_last (c : ascii) (s : string) : string :=
  match s with
  | EmptyString => EmptyString
  | String a s' =>
      if contains c s' then after_last c s'
      else if Ascii.eqb a c then s' else String a s'
  end.

(** The bracket expression [[0-9]]. *)
Definition is_digit (a : ascii) : bool :=
  let n := nat_of_ascii a in (48 <=? n)%nat && (n <=? 57)%nat.

Fixpoint all_digits (s : string) : bool :=
  match s with
  | EmptyString => true
  | String a s' => is_digit a && all_digits s'
  end.

(** Splitting at every occurrence of a character, empty fields kept. *)
Fixpoint fields (c : ascii) (s : string) : list string :=
  match s with
  | EmptyString => [EmptyString]
  | String a s' =>
      if Ascii.eqb a c then EmptyString :: fields c s'
      else match fields c s' with
           | f :: fs => String a f :: fs
           | [] => [String a EmptyString]
           end
  end.

(** [[0-9]{1,3}]. *)
Definition octet_shape (s : string) : bool :=
  all_digits s && (1 <=? String.length s)%nat && (String.length s <=? 3)%nat.

(** [[[ "$s" =~ ^([0-9]{1,3}\.){3}[0-9]{1,3}$ ]]]: four groups of one to
    three digits, separated by dots. *)
Definition dotted_quad (s : string) : bool :=
  match fields "." s with
  | [a; b; c; d] => octet_shape a && octet_shape b && octet_shape c && octet_shape d
  | _ => false
  end.

(** The blanks of the default [IFS] within one line. *)
Definition is_blank (a : ascii) : bool := Ascii.eqb a SP || Ascii.eqb a TAB.

(** The characters of the class [[:space:]]. *)
Definition is_space (a : ascii) : bool :=
  Ascii.eqb a SP || Ascii.eqb a TAB || Ascii.eqb a NL
  || Ascii.eqb a VT || Ascii.eqb a FF || Ascii.eqb a CR.

(** [tr -d '[:space:]']. *)
Fixpoint delete_space (s : string) : string :=
  match s with
  | EmptyString => EmptyString
  | String a s' => if is_space a then delete_space s' else String a (delete_space s')
  end.

(** Word splitting of one line at blanks: a character that is no blank
    starts a word or goes on with the word that follows it. *)
Fixpoint split_blank (s : string) : list string :=
  match s with
  | EmptyString => []
  | String a s' =>
      if is_blank a then split_blank s'
      else match s' with
           | EmptyString => [String a EmptyString]
           | String b _ =>
               if is_blank b then String a EmptyString :: split_blank s'
               else match split_blank s' with
                    | w :: ws => String a w :: ws
                    | [] => [String a EmptyString]
                    end
           end
  end.

(** [read -r -a arr <<<"$text"]: the here-string is [text] and a newline;
    [read] takes the first line and splits it at blanks. *)
Definition read_array (text : string) : list string :=
  split_blank (before_first NL text).

(** [${#arr[@]}]. *)
Definition count (ws : list string) : Z := Z.of_nat (List.length ws).

(** [${arr[0]}]. *)
Definition first (ws : list string) : string := hd EmptyString ws.

(** [awk 'NR==1 {print $1}'] inside [$( ... )]: the first field of the
    first line, nothing when there is none. *)
Definition awk_first_field (text : string) : string :=
  first (read_array text).

(** A word that survives word splitting whole: not empty and with no
    character of [[:space:]] in it. *)
Fixpoint no_space (s : string) : bool :=
  match s with
  | EmptyString => true
  | String a s' => negb (is_space a) && no_space s'
  end.

Definition is_word (s : string) : bool := non_empty s && no_space s.

(** A double-quoted text with expansions in it: its pieces, joined. *)
Definition text (pieces : list string) : string := String.concat EmptyString pieces.

End Bash.

(* ================================================================== *)
(** * The cloud provider, as the script's queries see it *)
(* ================================================================== *)

(** The provider and its command-line client are collaborators of the
    script, not part of it.  This module fixes what the script relies on:
    the shape of the answers its [--query] expressions select from, the
    text the client prints for them with [--output text], and the effect
    of the one mutating request. *)
Module Aws.

Import Bash.

(** One CIDR range of an ingress permission. *)
Record IpRange := {
  CidrIp : string;
  Description : string
}.

(** One entry of [IpPermissions]: the provider groups the rules of a
    security group by protocol and port range, and each entry lists the
    IPv4 ranges allowed on it.  The model covers protocols that carry a
    port range. *)
Record IpPermission := {
  IpProtocol : string;
  FromPort : Z;
  ToPort : Z;
  IpRanges : list IpRange
}.

(** A network interface: its id, the public addresses associated with it
    and the ids of the security groups attached to it. *)
Record NetworkInterface := {
  NetworkInterfaceId : string;
  PublicIps : list string;
  Groups : list string
}.

(** A container service; [securityGroups] is [None] when the service has
    no [awsvpc] network configuration. *)
Record Service := {
  serviceArn : string;
  serviceName : string;
  securityGroups : option (list string)
}.

Record Cluster := {
  clusterArn : string;
  clusterName : string;
  services : list Service
}.

(** The provider's state, per region where it is regional. *)
Record Cloud := {
  Regions : list string;
  NetworkInterfaces : string -> list NetworkInterface;
  Clusters : string -> list Cluster;
  SecurityGroups : string -> string -> option (list IpPermission)
}.

(** What a command gives back: its exit status and its standard output. *)
Definition Reply : Type := Z * string.

Definition ok (text : string) : Reply := (0%Z, text).

(** The status of the client when the service refuses a request. *)
Definition client_error : Z := 254%Z.

Definition refused : Reply := (client_error, EmptyString).

(** ** [--output text]

    A list of scalars is one line, tab separated; an empty list prints
    nothing; [null] prints [None]; a list of lists prints one line for each
    inner list that is not empty. *)
Definition text_line (ws : list string) : string :=
  String.concat (String TAB EmptyString) ws.

Definition text_null : string := "None".

Definition text_rows (rows : list (list string)) : string :=
  String.concat (String NL EmptyString)
    (map text_line (filter (fun r => negb (Nat.eqb (List.length r) 0)) rows)).

(** Decimal text of a port number, and the number a text denotes. *)
Definition port_text (n : Z) : string := NilZero.string_of_int (Z.to_int n).

Definition parse_port (s : string) : option Z :=
  option_map Z.of_int (NilZero.int_of_string s).

(** ** The read-only queries, one for each [--query] of the script *)

(** [ec2 describe-regions --query 'Regions[].RegionName'] (line 86). *)
Definition describe_regions (c : Cloud) : Reply :=
  ok (text_line (Regions c)).

(** [--filters Name=association.public-ip,Values=IP]. *)
Definition has_public_ip (ip : string) (e : NetworkInterface) : bool :=
  existsb (String.eqb ip) (PublicIps e).

Definition interfaces_with (c : Cloud) (region ip : string) : list NetworkInterface :=
  filter (has_public_ip ip) (NetworkInterfaces c region).

(** [ec2 describe-network-interfaces ... --query
    'NetworkInterfaces[].NetworkInterfaceId'] (lines 91-93). *)
Definition describe_interface_ids (c : Cloud) (region ip : string) : Reply :=
  ok (text_line (map NetworkInterfaceId (interfaces_with c region ip))).

(** [ec2 describe-network-interfaces ... --query
    'NetworkInterfaces[0].Groups[].GroupId'] (lines 133-135): the groups of
    the first interface, [null] when no interface matches. *)
Definition describe_interface_groups (c : Cloud) (region ip : string) : Reply :=
  match interfaces_with c region ip with
  | [] => ok text_null
  | e :: _ => ok (text_line (Groups e))
  end.

(** [ecs list-clusters --query 'clusterArns[]'] (line 150). *)
Definition list_clusters (c : Cloud) (region : string) : Reply :=
  ok (text_line (map clusterArn (Clusters c region))).

(** [--cluster] and [--services] take an ARN or a name. *)
Definition find_cluster (c : Cloud) (region cluster : string) : option Cluster :=
  find (fun k => String.eqb (clusterArn k) cluster || String.eqb (clusterName k) cluster)
       (Clusters c region).

Definition find_service (k : Cluster) (service : string) : option Service :=
  find (fun s => String.eqb (serviceArn s) service || String.eqb (serviceName s) service)
       (services k).

(** [ecs list-services --cluster C --query 'serviceArns[]'] (line 164). *)
Definition list_services (c : Cloud) (region cluster : string) : Reply :=
  match find_cluster c region cluster with
  | None => refused
  | Some k => ok (text_line (map serviceArn (services k)))
  end.

(** [ecs describe-services --cluster C --services S --query
    'services[0].networkConfiguration.awsvpcConfiguration.securityGroups[]']
    (line 177). *)
Definition describe_service_groups (c : Cloud) (region cluster service : string) : Reply :=
  match find_cluster c region cluster with
  | None => refused
  | Some k =>
      match find_service k service with
      | None => ok text_null
      | Some s =>
          match securityGroups s with
          | None => ok text_null
          | Some gs => ok (text_line gs)
          end
      end
  end.

(** The filter [?IpProtocol=='P' && FromPort==ToPort && length(IpRanges)>`0`]
    of line 192. *)
Definition single_port_rule (protocol : string) (p : IpPermission) : bool :=
  String.eqb (IpProtocol p) protocol
  && Z.eqb (FromPort p) (ToPort p)
  && Nat.ltb 0 (List.length (IpRanges p)).

(** [ec2 describe-security-groups --group-ids G --query
    "SecurityGroups[0].IpPermissions[?...].FromPort"] (lines 191-193). *)
Definition describe_single_ports (c : Cloud) (region sg protocol : string) : Reply :=
  match SecurityGroups c region sg with
  | None => refused
  | Some perms =>
      ok (text_line (map (fun p => port_text (FromPort p))
                         (filter (single_port_rule protocol) perms)))
  end.

(** The filter [?IpProtocol=='P' && FromPort==`PORT` && ToPort==`PORT`] of
    line 207; the literal is compared with the decimal text of the rule's
    ports. *)
Definition on_port (protocol port : string) (p : IpPermission) : bool :=
  String.eqb (IpProtocol p) protocol
  && String.eqb (port_text (FromPort p)) port
  && String.eqb (port_text (ToPort p)) port.

(** The inner filter [?CidrIp=='CIDR'] of line 207. *)
Definition has_cidr (cidr : string) (r : IpRange) : bool :=
  String.eqb (CidrIp r) cidr.

Definition matching_cidrs (protocol port cidr : string) (perms : list IpPermission)
  : list (list string) :=
  map (fun p => map CidrIp (filter (has_cidr cidr) (IpRanges p)))
      (filter (on_port protocol port) perms).

(** [ec2 describe-security-groups --group-ids G --query
    "SecurityGroups[0].IpPermissions[?...].IpRanges[?CidrIp=='CIDR'].CidrIp"]
    (lines 206-208). *)
Definition describe_matching_cidr (c : Cloud) (region sg protocol port cidr : string) : Reply :=
  match SecurityGroups c region sg with
  | None => refused
  | Some perms => ok (text_rows (matching_cidrs protocol port cidr perms))
  end.

(** ** The mutation

    [ec2 authorize-security-group-ingress --group-id G --ip-permissions
    "IpProtocol=P,FromPort=N,ToPort=N,IpRanges=[{CidrIp=C,Description=D}]"]
    (lines 215-216).  The service adds the range to the entry of that
    protocol and port, or adds such an entry; it refuses a rule that is
    already there, a port that is no number and a group it does not know,
    and then changes nothing. *)
Definition same_key (protocol : string) (n : Z) (p : IpPermission) : bool :=
  String.eqb (IpProtocol p) protocol && Z.eqb (FromPort p) n && Z.eqb (ToPort p) n.

Definition rule_present (protocol : string) (n : Z) (cidr : string)
  (perms : list IpPermission) : bool :=
  existsb (fun p => same_key protocol n p && existsb (has_cidr cidr) (IpRanges p)) perms.

Fixpoint add_rule (protocol : string) (n : Z) (r : IpRange)
  (perms : list IpPermission) : list IpPermission :=
  match perms with
  | [] => [ {| IpProtocol := protocol; FromPort := n; ToPort := n; IpRanges := [r] |} ]
  | p :: ps =>
      if same_key protocol n p
      then {| IpProtocol := IpProtocol p; FromPort := FromPort p; ToPort := ToPort p;
              IpRanges := IpRanges p ++ [r] |} :: ps
      else p :: add_rule protocol n r ps
  end.

Definition set_group (c : Cloud) (region sg : string) (perms : list IpPermission) : Cloud :=
  {| Regions := Regions c;
     NetworkInterfaces := NetworkInterfaces c;
     Clusters := Clusters c;
     SecurityGroups := fun r g =>
       if String.eqb r region && String.eqb g sg then Some perms
       else SecurityGroups c r g |}.

Definition authorize_ingress (c : Cloud)
  (region sg protocol port cidr description : string) : Z * Cloud :=
  match SecurityGroups c region sg, parse_port port with
  | Some perms, Some n =>
      if rule_present protocol n cidr perms then (client_error, c)
      else (0%Z, set_group c region sg
                   (add_rule protocol n {| CidrIp := cidr; Description := description |} perms))
  | _, _ => (client_error, c)
  end.

(** ** What the provider guarantees

    The identifiers it hands out (regions, interfaces, groups, clusters,
    services) are words, and none of them is the text that stands for
    [null]. *)
Definition is_id (s : string) : bool := is_word s && negb (String.eqb s text_null).

Definition ids (ws : list string) : bool := forallb is_id ws.

(** The entries of a group differ in protocol or port range. *)
Definition key (p : IpPermission) : string * Z * Z := (IpProtocol p, FromPort p, ToPort p).

(** The regions, of those the provider lists, with an interface that
    carries the address. *)
Definition region_matches (c : Cloud) (ip region : string) : bool :=
  negb (Nat.eqb (List.length (interfaces_with c region ip)) 0).

Definition matching_regions (c : Cloud) (ip : string) : list string :=
  filter (region_matches c ip) (Regions c).

(** The groups of the first interface that carries the address. *)
Definition first_interface_groups (c : Cloud) (region ip : string) : option (list string) :=
  option_map Groups (hd_error (interfaces_with c region ip)).

(** The groups in the network configuration of a service of a cluster. *)
Definition service_groups (k : Cluster) (service : string) : option (list string) :=
  match find_service k service with
  | Some s => securityGroups s
  | None => None
  end.

(** The ports of the rules the filter of line 192 keeps. *)
Definition single_ports (protocol : string) (perms : list IpPermission) : list Z :=
  map FromPort (filter (single_port_rule protocol) perms).

(** The number of rules of a group for a protocol, port and CIDR. *)
Definition rule_count (protocol : string) (n : Z) (cidr : string)
  (perms : list IpPermission) : nat :=
  list_sum (map (fun p => List.length (filter (has_cidr cidr) (IpRanges p)))
                (filter (same_key protocol n) perms)).

End Aws.

(* ================================================================== *)
(** * A run of the script *)
(* ================================================================== *)

Module Sh.

(** The external commands the script runs, with their arguments. *)
Inductive Call :=
| GetentHosts (host : string)
| DescribeRegions
| DescribeInterfaceIds (region ip : string)
| ConfigureGetRegion
| CheckIp
| DescribeInterfaceGroups (region ip : string)
| ListClusters (region : string)
| ListServices (region cluster : string)
| DescribeServiceGroups (region cluster service : string)
| DescribeSinglePorts (region sg protocol : string)
| DescribeMatchingCidr (region sg protocol port cidr : string)
| AuthorizeIngress (region sg protocol port cidr description : string).

(** The one call that changes the provider's state. *)
Definition is_mutation (c : Call) : bool :=
  match c with
  | AuthorizeIngress _ _ _ _ _ _ => true
  | _ => false
  end.

(** What surrounds a run and is not the provider's state: the environment
    variables, the commands that answer from outside the provider, and the
    calls to the provider that fail on their way ([fault] gives the status
    of such a call, zero when the call gets through). *)
Record Env := {
  AWS_REGION : string;
  AWS_DEFAULT_REGION : string;
  getent_hosts : string -> Aws.Reply;
  curl_checkip : Aws.Reply;
  configure_get_region : Aws.Reply;
  fault : Call -> Z
}.

(** The state a run threads: the provider, the calls made so far, and the
    lines the script itself wrote to standard output and standard error. *)
Record State := {
  cloud : Aws.Cloud;
  calls : list Call;
  stdout : list string;
  stderr : list string
}.

(** A block either goes on with a value or ends the run with a status. *)
Inductive Result (A : Type) :=
| Done (a : A)
| Exit (status : Z).

Arguments Done {A} a.
Arguments Exit {A} status.

Definition Sh (A : Type) : Type := State -> Result A * State.

Definition ret {A} (a : A) : Sh A := fun s => (Done a, s).

Definition bind {A B} (m : Sh A) (f : A -> Sh B) : Sh B :=
  fun s =>
    match m s with
    | (Done a, s') => f a s'
    | (Exit n, s') => (Exit n, s')
    end.

(** [exit N]. *)
Definition exit {A} (n : Z) : Sh A := fun s => (Exit n, s).

(** [echo TEXT] and [echo TEXT >&2]. *)
Definition echo (line : string) : Sh unit :=
  fun s => (Done tt, {| cloud := cloud s; calls := calls s;
                        stdout := stdout s ++ [line]; stderr := stderr s |}).

Definition echo_err (line : string) : Sh unit :=
  fun s => (Done tt, {| cloud := cloud s; calls := calls s;
                        stdout := stdout s; stderr := stderr s ++ [line] |}).

Definition log (c : Call) : Sh unit :=
  fun s => (Done tt, {| cloud := cloud s; calls := calls s ++ [c];
                        stdout := stdout s; stderr := stderr s |}).

Definition get_cloud : Sh Aws.Cloud := fun s => (Done (cloud s), s).

Definition put_cloud (c : Aws.Cloud) : Sh unit :=
  fun s => (Done tt, {| cloud := c; calls := calls s;
                        stdout := stdout s; stderr := stderr s |}).

(** The calls that are neither the mutation nor a name lookup, and that
    ask about no other address than [ip0] when they ask about interfaces. *)
Definition about_target (ip0 : string) (c : Call) : bool :=
  match c with
  | DescribeInterfaceIds _ ip => String.eqb ip ip0
  | DescribeInterfaceGroups _ ip => String.eqb ip ip0
  | GetentHosts _ => false
  | AuthorizeIngress _ _ _ _ _ _ => false
  | _ => true
  end.

Definition read_only (c : Call) : bool := negb (is_mutation c).

(** The state after one more call, and after one more line on standard
    error. *)
Definition logged (s : State) (c : Call) : State :=
  {| cloud := cloud s; calls := calls s ++ [c]; stdout := stdout s; stderr := stderr s |}.

Definition logged_all (s : State) (cs : list Call) : State :=
  {| cloud := cloud s; calls := calls s ++ cs; stdout := stdout s; stderr := stderr s |}.

Definition complained (s : State) (line : string) : State :=
  {| cloud := cloud s; calls := calls s; stdout := stdout s; stderr := stderr s ++ [line] |}.

(** The state when the provider's state has become [w]. *)
Definition moved (s : State) (w : Aws.Cloud) : State :=
  {| cloud := w; calls := calls s; stdout := stdout s; stderr := stderr s |}.

Definition said (s : State) (line : string) : State :=
  {| cloud := cloud s; calls := calls s; stdout := stdout s ++ [line]; stderr := stderr s |}.

(** A block that leaves the provider's state as it is, makes only calls
    that satisfy [P], and ends, when it goes on, with a value that
    satisfies [Q]. *)
Definition quiet {A} (P : Call -> bool) (Q : A -> Prop) (m : Sh A) : Prop :=
  forall s,
    cloud (snd (m s)) = cloud s
    /\ (exists t, calls (snd (m s)) = calls s ++ t /\ forallb P t = true)
    /\ (forall a, fst (m s) = Done a -> Q a).

End Sh.

Declare Scope sh_scope.
Delimit Scope sh_scope with sh.
Notation "x <- m ;; k" := (Sh.bind m (fun x => k))
  (at level 61, m at next level, right associativity) : sh_scope.
Notation "m ;;; k" := (Sh.bind m (fun _ => k))
  (at level 61, right associativity) : sh_scope.

(* ================================================================== *)
(** * The script *)
(* ================================================================== *)

Module Script.

Import Bash Sh.
Local Open Scope sh_scope.
Local Open Scope Z_scope.

(** The shell variables of lines 29-39. *)
Record Vars := {
  ip : string;
  cidr : string;
  target_ip : string;
  url : string;
  port : string;
  protocol : string;
  cluster : string;
  service : string;
  sg_id : string;
  region : string;
  description : string
}.

Definition initial : Vars :=
  {| ip := EmptyString; cidr := EmptyString; target_ip := EmptyString;
     url := EmptyString; port := EmptyString; protocol := "tcp";
     cluster := EmptyString; service := EmptyString; sg_id := EmptyString;
     region := EmptyString; description := "codex-whitelist" |}.

(** Assignments, one for each variable. *)
Definition set_ip (v : Vars) (x : string) : Vars :=
  {| ip := x; cidr := cidr v; target_ip := target_ip v; url := url v; port := port v;
     protocol := protocol v; cluster := cluster v; service := service v;
     sg_id := sg_id v; region := region v; description := description v |}.
Definition set_cidr (v : Vars) (x : string) : Vars :=
  {| ip := ip v; cidr := x; target_ip := target_ip v; url := url v; port := port v;
     protocol := protocol v; cluster := cluster v; service := service v;
     sg_id := sg_id v; region := region v; description := description v |}.
Definition set_target_ip (v : Vars) (x : string) : Vars :=
  {| ip := ip v; cidr := cidr v; target_ip := x; url := url v; port := port v;
     protocol := protocol v; cluster := cluster v; service := service v;
     sg_id := sg_id v; region := region v; description := description v |}.
Definition set_url (v : Vars) (x : string) : Vars :=
  {| ip := ip v; cidr := cidr v; target_ip := target_ip v; url := x; port := port v;
     protocol := protocol v; cluster := cluster v; service := service v;
     sg_id := sg_id v; region := region v; description := description v |}.
Definition set_port (v : Vars) (x : string) : Vars :=
  {| ip := ip v; cidr := cidr v; target_ip := target_ip v; url := url v; port := x;
     protocol := protocol v; cluster := cluster v; service := service v;
     sg_id := sg_id v; region := region v; description := description v |}.
Definition set_protocol (v : Vars) (x : string) : Vars :=
  {| ip := ip v; cidr := cidr v; target_ip := target_ip v; url := url v; port := port v;
     protocol := x; cluster := cluster v; service := service v;
     sg_id := sg_id v; region := region v; description := description v |}.
Definition set_cluster (v : Vars) (x : string) : Vars :=
  {| ip := ip v; cidr := cidr v; target_ip := target_ip v; url := url v; port := port v;
     protocol := protocol v; cluster := x; service := service v;
     sg_id := sg_id v; region := region v; description := description v |}.
Definition set_service (v : Vars) (x : string) : Vars :=
  {| ip := ip v; cidr := cidr v; target_ip := target_ip v; url := url v; port := port v;
     protocol := protocol v; cluster := cluster v; service := x;
     sg_id := sg_id v; region := region v; description := description v |}.
Definition set_sg_id (v : Vars) (x : string) : Vars :=
  {| ip := ip v; cidr := cidr v; target_ip := target_ip v; url := url v; port := port v;
     protocol := protocol v; cluster := cluster v; service := service v;
     sg_id := x; region := region v; description := description v |}.
Definition set_region (v : Vars) (x : string) : Vars :=
  {| ip := ip v; cidr := cidr v; target_ip := target_ip v; url := url v; port := port v;
     protocol := protocol v; cluster := cluster v; service := service v;
     sg_id := sg_id v; region := x; description := description v |}.
Definition set_description (v : Vars) (x : string) : Vars :=
  {| ip := ip v; cidr := cidr v; target_ip := target_ip v; url := url v; port := port v;
     protocol := protocol v; cluster := cluster v; service := service v;
     sg_id := sg_id v; region := region v; description := x |}.

(** ** Running commands under [set -euo pipefail] *)

(** [x="$(CMD | FILTER)"]: the call is logged; a status other than zero
    ends the run with it ([pipefail], then [errexit] on the assignment; the
    filters of the script always succeed); otherwise the filtered output,
    without its trailing newlines, is the value. *)
Definition piped (c : Call) (reply : Aws.Reply) (filter : string -> string) : Sh string :=
  log c ;;;
  if fst reply =? 0 then ret (chomp (filter (snd reply))) else exit (fst reply).

(** [x="$(CMD)"]. *)
Definition captured (c : Call) (reply : Aws.Reply) : Sh string :=
  piped c reply (fun out => out).

(** [x="$(aws ...)"]: a read-only query to the provider, answered from
    its current state unless the call fails on its way. *)
Definition aws_query (E : Env) (c : Call) (q : Aws.Cloud -> Aws.Reply) : Sh string :=
  w <- get_cloud ;;
  captured c (if fault E c =? 0 then q w else (fault E c, EmptyString)).

(** ** Lines 4-27: [usage] *)
Definition usage_lines : list string :=
  [ "Usage: scripts/whitelist_ip.sh [options]";
    EmptyString;
    "Options:";
    "  --ip <ip>            Public IP to whitelist (defaults to auto-detect).";
    "  --cidr <cidr>        CIDR to whitelist (overrides --ip). Example: 1.2.3.4/32";
    "  --target-ip <ip>     Public IP of the service to locate its security group.";
    "  --url <url>          Service URL (extracts host and port, can locate SG).";
    "  --port <port>        Port to allow (if omitted, auto-detects if only one tcp rule exists).";
    "  --protocol <proto>   Protocol (default: tcp).";
    "  --cluster <arn|name> ECS cluster ARN or name (optional if only one cluster exists).";
    "  --service <arn|name> ECS service ARN or name (optional if only one service exists).";
    "  --sg <sg-id>         Security group ID (skips ECS discovery).";
    "  --region <region>    AWS region (defaults to AWS config or env).";
    "  --description <txt>  Rule description (default: codex-whitelist).";
    "  -h, --help           Show this help.";
    EmptyString;
    "Examples:";
    "  scripts/whitelist_ip.sh --port 3000";
    "  scripts/whitelist_ip.sh --url http://43.216.215.179:8080/";
    "  scripts/whitelist_ip.sh --cidr 203.0.113.10/32 --sg sg-0123456789abcdef0 --port 443" ].

Fixpoint echo_all (ls : list string) : Sh unit :=
  match ls with
  | [] => ret tt
  | l :: rest => echo l ;;; echo_all rest
  end.

Definition usage : Sh unit := echo_all usage_lines.

(** ** Lines 41-57: the flags *)

(** The variable a flag with a value assigns. *)
Definition flag_setter (flag : string) : option (Vars -> string -> Vars) :=
  if String.eqb flag "--ip" then Some set_ip
  else if String.eqb flag "--cidr" then Some set_cidr
  else if String.eqb flag "--target-ip" then Some set_target_ip
  else if String.eqb flag "--url" then Some set_url
  else if String.eqb flag "--port" then Some set_port
  else if String.eqb flag "--protocol" then Some set_protocol
  else if String.eqb flag "--cluster" then Some set_cluster
  else if String.eqb flag "--service" then Some set_service
  else if String.eqb flag "--sg" then Some set_sg_id
  else if String.eqb flag "--region" then Some set_region
  else if String.eqb flag "--description" then Some set_description
  else None.

(** The [while]/[case] loop.  A flag that comes last, with no value after
    it, expands an unset [$2]: under [set -u] the shell ends the run with
    status 1. *)
Fixpoint parse_args (args : list string) (v : Vars) : Sh Vars :=
  match args with
  | [] => ret v
  | flag :: rest =>
      match flag_setter flag with
      | Some assign =>
          match rest with
          | value :: rest' => parse_args rest' (assign v value)
          | [] => exit 1
          end
      | None =>
          if String.eqb flag "-h" || String.eqb flag "--help"
          then usage ;;; exit 0
          else echo (text ["Unknown arg: "; flag]) ;;; usage ;;; exit 2
      end
  end.

(** ** Lines 59-82: the service URL *)

(** [hostport], [url_host] and [url_port] of lines 60-68. *)
Definition hostport_of (u : string) : string :=
  before_first "/" (strip_shortest_prefix "://" u).

Definition url_host_of (u : string) : string :=
  let hostport := hostport_of u in
  if contains ":" hostport then before_first ":" hostport else hostport.

Definition url_port_of (u : string) : string :=
  let hostport := hostport_of u in
  if contains ":" hostport then after_last ":" hostport else EmptyString.

Definition url_block (E : Env) (v : Vars) : Sh Vars :=
  if non_empty (url v) then
    let url_host := url_host_of (url v) in
    let url_port := url_port_of (url v) in
    let v := if is_empty (port v) && non_empty url_port then set_port v url_port else v in
    if is_empty (target_ip v) && non_empty url_host then
      if dotted_quad url_host then ret (set_target_ip v url_host)
      else
        resolved_ip <- piped (GetentHosts url_host) (getent_hosts E url_host) awk_first_field ;;
        if non_empty resolved_ip then ret (set_target_ip v resolved_ip) else ret v
    else ret v
  else ret v.

(** ** Lines 84-117: the region *)

(** The [for] loop of lines 90-98, with [match_region] and [match_count]
    as they stand before each round; an empty array runs no round. *)
Fixpoint scan_regions (E : Env) (target : string) (regions : list string)
  (match_region : string) (match_count : Z) : Sh (string * Z) :=
  match regions with
  | [] => ret (match_region, match_count)
  | r :: rest =>
      eni_text <- aws_query E (DescribeInterfaceIds r target)
                    (fun w => Aws.describe_interface_ids w r target) ;;
      if non_empty eni_text && negb (String.eqb eni_text "None")
      then scan_regions E target rest r (match_count + 1)
      else scan_regions E target rest match_region match_count
  end.

Definition multiple_regions_msg (target : string) : string :=
  text ["Public IP "; target; " found in multiple regions. Use --region or --sg."].

Definition region_not_set_msg : string :=
  "Region not set. Use --region, --url, or set AWS_REGION/AWS_DEFAULT_REGION.".

(** Lines 85-105. *)
Definition infer_region (E : Env) (v : Vars) : Sh Vars :=
  if non_empty (target_ip v) then
    regions_text <- aws_query E DescribeRegions Aws.describe_regions ;;
    let regions := read_array regions_text in
    found <- scan_regions E (target_ip v) regions EmptyString 0 ;;
    let match_region := fst found in
    let match_count := snd found in
    if match_count =? 1 then ret (set_region v match_region)
    else if match_count >? 1 then
      echo_err (multiple_regions_msg (target_ip v)) ;;; exit 2
    else ret v
  else ret v.

(** [${AWS_REGION:-${AWS_DEFAULT_REGION:-}}] of line 107. *)
Definition region_of_env (E : Env) : string :=
  if non_empty (AWS_REGION E) then AWS_REGION E else AWS_DEFAULT_REGION E.

(** Lines 106-111: the environment, then the client's configuration. *)
Definition region_fallbacks (E : Env) (v : Vars) : Sh Vars :=
  let v := if is_empty (region v) then set_region v (region_of_env E) else v in
  if is_empty (region v) then
    r <- captured ConfigureGetRegion (configure_get_region E) ;;
    ret (set_region v r)
  else ret v.

(** Lines 114-117. *)
Definition require_region (v : Vars) : Sh Vars :=
  if is_empty (region v) then echo_err region_not_set_msg ;;; exit 2
  else ret v.

Definition region_block (E : Env) (v : Vars) : Sh Vars :=
  v <- (if is_empty (region v) then
          v <- infer_region E v ;;
          region_fallbacks E v
        else ret v) ;;
  require_region v.

(** ** Lines 119-128: the CIDR to allow *)

Definition no_ip_msg : string := "Failed to determine IP. Use --ip or --cidr.".

Definition cidr_block (E : Env) (v : Vars) : Sh Vars :=
  if is_empty (cidr v) then
    v <- (if is_empty (ip v) then
            detected <- piped CheckIp (curl_checkip E) delete_space ;;
            ret (set_ip v detected)
          else ret v) ;;
    if is_empty (ip v) then echo_err no_ip_msg ;;; exit 2
    else ret (set_cidr v (text [ip v; "/32"]))
  else ret v.

(** [[[ -z "$t" || "$t" == "None" ]]]: the query gave nothing. *)
Definition nothing (t : string) : bool := is_empty t || String.eqb t "None".

(** The pattern of lines 136-145, 151-160, 165-174, 178-187 and 194-203:
    nothing found is one error, a number of words other than one is
    another, and the single word is the value. *)
Definition exactly_one (t none_msg many_msg : string) : Sh string :=
  if nothing t then echo_err none_msg ;;; exit 2
  else
    let ws := read_array t in
    if negb (count ws =? 1) then echo_err many_msg ;;; exit 2
    else ret (first ws).

(** ** Lines 132-146: the security group, by the target address *)

Definition no_sg_for_ip_msg (target : string) : string :=
  text ["No security group found for public IP "; target; ". Use --sg."].

Definition multiple_sg_for_ip_msg (target : string) : string :=
  text ["Multiple security groups found for public IP "; target; ". Use --sg."].

Definition sg_by_ip_block (E : Env) (v : Vars) : Sh Vars :=
  if is_empty (sg_id v) && non_empty (target_ip v) then
    sg_text <- aws_query E (DescribeInterfaceGroups (region v) (target_ip v))
                 (fun w => Aws.describe_interface_groups w (region v) (target_ip v)) ;;
    g <- exactly_one sg_text (no_sg_for_ip_msg (target_ip v))
           (multiple_sg_for_ip_msg (target_ip v)) ;;
    ret (set_sg_id v g)
  else ret v.

(** ** Lines 148-188: the security group, by cluster and service *)

Definition no_clusters_msg : string := "No ECS clusters found. Use --cluster or --sg.".
Definition multiple_clusters_msg : string :=
  "Multiple ECS clusters found. Use --cluster to select one.".
Definition no_services_msg : string := "No ECS services found. Use --service or --sg.".
Definition multiple_services_msg : string :=
  "Multiple ECS services found. Use --service to select one.".
Definition no_sg_on_service_msg : string :=
  "No security group found on ECS service. Use --sg.".
Definition multiple_sg_msg : string :=
  "Multiple security groups found. Use --sg to select one.".

(** Lines 149-161. *)
Definition pick_cluster (E : Env) (v : Vars) : Sh Vars :=
  if is_empty (cluster v) then
    clusters_text <- aws_query E (ListClusters (region v))
                       (fun w => Aws.list_clusters w (region v)) ;;
    c <- exactly_one clusters_text no_clusters_msg multiple_clusters_msg ;;
    ret (set_cluster v c)
  else ret v.

(** Lines 163-175. *)
Definition pick_service (E : Env) (v : Vars) : Sh Vars :=
  if is_empty (service v) then
    services_text <- aws_query E (ListServices (region v) (cluster v))
                       (fun w => Aws.list_services w (region v) (cluster v)) ;;
    s <- exactly_one services_text no_services_msg multiple_services_msg ;;
    ret (set_service v s)
  else ret v.

(** Lines 177-187. *)
Definition pick_service_sg (E : Env) (v : Vars) : Sh Vars :=
  sg_text <- aws_query E (DescribeServiceGroups (region v) (cluster v) (service v))
               (fun w => Aws.describe_service_groups w (region v) (cluster v) (service v)) ;;
  g <- exactly_one sg_text no_sg_on_service_msg multiple_sg_msg ;;
  ret (set_sg_id v g).

Definition ecs_block (E : Env) (v : Vars) : Sh Vars :=
  if is_empty (sg_id v) then
    v <- pick_cluster E v ;;
    v <- pick_service E v ;;
    pick_service_sg E v
  else ret v.

(** ** Lines 190-204: the port *)

Definition no_rules_msg (proto : string) : string :=
  text ["No matching "; proto; " rules found. Use --port."].

Definition multiple_ports_msg (proto : string) : string :=
  text ["Multiple "; proto; " ports found. Use --port."].

Definition port_block (E : Env) (v : Vars) : Sh Vars :=
  if is_empty (port v) then
    ports_text <- aws_query E (DescribeSinglePorts (region v) (sg_id v) (protocol v))
                    (fun w => Aws.describe_single_ports w (region v) (sg_id v) (protocol v)) ;;
    p <- exactly_one ports_text (no_rules_msg (protocol v)) (multiple_ports_msg (protocol v)) ;;
    ret (set_port v p)
  else ret v.

(** ** Lines 206-218: the rule *)

Definition already_allowed_msg (v : Vars) : string :=
  text [cidr v; " already allowed on "; protocol v; "/"; port v; " in "; sg_id v; "."].

Definition added_msg (v : Vars) : string :=
  text ["Added "; cidr v; " to "; sg_id v; " on "; protocol v; "/"; port v;
        " (region "; region v; ")."].

(** Lines 215-216: the call is logged; it ends the run with its status
    when it fails, and the provider's state is the new one when it
    succeeds. *)
Definition aws_authorize (E : Env) (v : Vars) : Sh unit :=
  let c := AuthorizeIngress (region v) (sg_id v) (protocol v) (port v) (cidr v) (description v) in
  log c ;;;
  if fault E c =? 0 then
    w <- get_cloud ;;
    let r := Aws.authorize_ingress w (region v) (sg_id v) (protocol v) (port v)
               (cidr v) (description v) in
    if fst r =? 0 then put_cloud (snd r) else exit (fst r)
  else exit (fault E c).

Definition authorize_block (E : Env) (v : Vars) : Sh unit :=
  existing_cidr <- aws_query E
      (DescribeMatchingCidr (region v) (sg_id v) (protocol v) (port v) (cidr v))
      (fun w => Aws.describe_matching_cidr w (region v) (sg_id v) (protocol v) (port v) (cidr v)) ;;
  if non_empty existing_cidr && negb (String.eqb existing_cidr "None") then
    echo (already_allowed_msg v) ;;; exit 0
  else
    aws_authorize E v ;;;
    echo (added_msg v).

(** ** The whole script *)

(** Lines 41-82: the flags and the URL. *)
Definition flags_and_url (E : Env) (args : list string) : Sh Vars :=
  v <- parse_args args initial ;;
  url_block E v.

(** Lines 84-204: region, CIDR, security group and port. *)
Definition resolve_rest (E : Env) (v : Vars) : Sh Vars :=
  v <- region_block E v ;;
  v <- cidr_block E v ;;
  v <- sg_by_ip_block E v ;;
  v <- ecs_block E v ;;
  port_block E v.

(** Everything before the rule: the resolution of the variables. *)
Definition resolve (E : Env) (args : list string) : Sh Vars :=
  v <- flags_and_url E args ;;
  resolve_rest E v.

Definition main (E : Env) (args : list string) : Sh unit :=
  v <- resolve E args ;;
  authorize_block E v.

Definition start (w : Aws.Cloud) : State :=
  {| cloud := w; calls := []; stdout := []; stderr := [] |}.

(** The exit status of a block and the state it leaves; a block that runs
    to its end leaves status 0. *)
Definition status_of {A} (r : Result A * State) : Z :=
  match fst r with Done _ => 0 | Exit n => n end.

Definition run (E : Env) (args : list string) (w : Aws.Cloud) : Z * State :=
  let r := main E args (start w) in (status_of r, snd r).

End Script.

(* ================================================================== *)
(** * The specification's words *)
(* ================================================================== *)

Module Spec.

Import Bash Sh Script.

(** "If a port was not explicitly given, the URL's port (if present) seeds
    the port value": the port of [v'] is the flag's when one was given,
    and the URL's otherwise. *)
Definition port_seeded (v v' : Vars) : Prop :=
  (port v <> EmptyString -> port v' = port v)
  /\ (port v = EmptyString -> port v' = url_port_of (url v)).

(** "A message mentioning [--cluster] or [--sg]": the text occurs in the
    message. *)
Definition mentions (flag message : string) : bool :=
  match index 0 flag message with
  | Some _ => true
  | None => false
  end.

(** "Resolved from, in priority order": the first candidate that yields
    a value. *)
Definition first_given (candidates : list string) : option string :=
  find non_empty candidates.

(** "Inference from which region contains a network interface with the
    target public IP (only if exactly one region matches)". *)
Definition only_match (matches : list string) : string :=
  match matches with
  | [r] => r
  | _ => EmptyString
  end.

(** The regions the inference has to choose from: those with an interface
    that carries the target address, when there is a target address. *)
Definition inferred (w : Aws.Cloud) (target : string) : list string :=
  if non_empty target then Aws.matching_regions w target else [].

(** The inference is served: the two queries it makes get through, and
    the identifiers in their answers are identifiers. *)
Definition inference_served (E : Env) (w : Aws.Cloud) (target : string) : Prop :=
  fault E DescribeRegions = 0%Z
  /\ Aws.ids (Aws.Regions w) = true
  /\ forall r,
       fault E (DescribeInterfaceIds r target) = 0%Z
       /\ Aws.ids (map Aws.NetworkInterfaceId (Aws.interfaces_with w r target)) = true.

(** The calls of the inference, in their order. *)
Definition inference_calls (w : Aws.Cloud) (target : string) : list Call :=
  DescribeRegions :: map (fun r => DescribeInterfaceIds r target) (Aws.Regions w).

End Spec.

(* ================================================================== *)
(** * A deployment to run the script on *)
(* ================================================================== *)

Module Sample.

Import Bash Sh Script.
Local Open Scope Z_scope.

(** The service of the usage text: one interface in one region carries
    the public address, with one security group that allows one office
    address on tcp/8080; one cluster runs one service in that group. *)
Definition office : Aws.IpRange :=
  {| Aws.CidrIp := "198.51.100.7/32"; Aws.Description := "office" |}.

Definition web : list Aws.IpPermission :=
  [ {| Aws.IpProtocol := "tcp"; Aws.FromPort := 8080; Aws.ToPort := 8080;
       Aws.IpRanges := [office] |} ].

Definition bot_interface : Aws.NetworkInterface :=
  {| Aws.NetworkInterfaceId := "eni-0a1b2c3d";
     Aws.PublicIps := ["43.216.215.179"];
     Aws.Groups := ["sg-0123456789abcdef0"] |}.

Definition bot_service : Aws.Service :=
  {| Aws.serviceArn := "arn:aws:ecs:ap-southeast-5:111122223333:service/freqtrade/bot";
     Aws.serviceName := "bot";
     Aws.securityGroups := Some ["sg-0123456789abcdef0"] |}.

Definition bot_cluster : Aws.Cluster :=
  {| Aws.clusterArn := "arn:aws:ecs:ap-southeast-5:111122223333:cluster/freqtrade";
     Aws.clusterName := "freqtrade";
     Aws.services := [bot_service] |}.

Definition home : string := "ap-southeast-5".

Definition deployment : Aws.Cloud :=
  {| Aws.Regions := ["us-east-1"; home];
     Aws.NetworkInterfaces := fun r => if String.eqb r home then [bot_interface] else [];
     Aws.Clusters := fun r => if String.eqb r home then [bot_cluster] else [];
     Aws.SecurityGroups := fun r g =>
       if String.eqb r home && String.eqb g "sg-0123456789abcdef0"
       then Some web else None |}.

(** The same address on an interface of each of the two regions. *)
Definition mirrored : Aws.Cloud :=
  {| Aws.Regions := ["us-east-1"; home];
     Aws.NetworkInterfaces := fun _ => [bot_interface];
     Aws.Clusters := Aws.Clusters deployment;
     Aws.SecurityGroups := Aws.SecurityGroups deployment |}.

(** A caller at 203.0.113.10 with nothing configured: no region in the
    environment or in the client's configuration (the client then leaves
    status 1), names that do not resolve (status 2), and no call that
    fails on its way. *)
Definition laptop : Env :=
  {| AWS_REGION := EmptyString;
     AWS_DEFAULT_REGION := EmptyString;
     getent_hosts := fun _ => (2, EmptyString);
     curl_checkip := (0, String.append "203.0.113.10" (String NL EmptyString));
     configure_get_region := (1, EmptyString);
     fault := fun _ => 0 |}.

(** The same caller where the name of the service resolves. *)
Definition laptop_with_dns : Env :=
  {| AWS_REGION := EmptyString;
     AWS_DEFAULT_REGION := EmptyString;
     getent_hosts := fun h =>
       if String.eqb h "bot.example.org"
       then (0, String.append "43.216.215.179   bot.example.org" (String NL EmptyString))
       else (2, EmptyString);
     curl_checkip := curl_checkip laptop;
     configure_get_region := configure_get_region laptop;
     fault := fun _ => 0 |}.

(** A caller whose address lookup answers with nothing. *)
Definition offline : Env :=
  {| AWS_REGION := home;
     AWS_DEFAULT_REGION := EmptyString;
     getent_hosts := getent_hosts laptop;
     curl_checkip := (0, String NL EmptyString);
     configure_get_region := configure_get_region laptop;
     fault := fun _ => 0 |}.

(** A caller with nothing configured whose client answers the lookup of
    the region with an empty line. *)
Definition unconfigured : Env :=
  {| AWS_REGION := EmptyString;
     AWS_DEFAULT_REGION := EmptyString;
     getent_hosts := getent_hosts laptop;
     curl_checkip := curl_checkip laptop;
     configure_get_region := (0, String NL EmptyString);
     fault := fun _ => 0 |}.

(** A caller with a region in the environment who cannot reach the echo
    service: [curl -s] leaves status 7 (no connection) and prints
    nothing. *)
Definition cut_off : Env :=
  {| AWS_REGION := home;
     AWS_DEFAULT_REGION := EmptyString;
     getent_hosts := getent_hosts laptop;
     curl_checkip := (7, EmptyString);
     configure_get_region := configure_get_region laptop;
     fault := fun _ => 0 |}.

(** The variables after the flags [--url http://43.216.215.179:8080/]. *)
Definition by_url : Vars := set_url initial "http://43.216.215.179:8080/".

(** ... and after the URL block. *)
Definition by_url_parsed : Vars := set_target_ip (set_port by_url "8080") "43.216.215.179".

(** ... after [--target-ip 10.0.0.1 --url http://43.216.215.179:8080/]. *)
Definition by_url_and_target : Vars := set_target_ip by_url "10.0.0.1".

(** ... after [--url https://bot.example.org/status --port 443]. *)
Definition by_name : Vars := set_port (set_url initial "https://bot.example.org/status") "443".

(** ... after [--cidr 203.0.113.10/32 --sg sg-0123456789abcdef0 --port 443]. *)
Definition by_cidr : Vars :=
  set_port (set_sg_id (set_cidr initial "203.0.113.10/32") "sg-0123456789abcdef0") "443".

(** The variables once everything is resolved for the caller at
    203.0.113.10 and the service of the deployment. *)
Definition resolved : Vars :=
  set_sg_id (set_cidr (set_ip (set_region by_url_parsed home) "203.0.113.10")
               "203.0.113.10/32")
    "sg-0123456789abcdef0".

(** ... after [--ip 198.51.100.20]. *)
Definition by_ip : Vars := set_ip initial "198.51.100.20".

(** ... after [--port 3000]. *)
Definition by_port : Vars := set_port initial "3000".

End Sample.

(* ================================================================== *)
(** * Command lines and messages *)
(* ================================================================== *)

(** Notions to word the properties of the flag loop and of the messages
    with. *)
Module Notions.

Import Bash Aws Sh Script.
Local Open Scope Z_scope.

(** The words of a command line that gives each flag with its value. *)
Definition words (ps : list (string * string)) : list string :=
  flat_map (fun p => [fst p; snd p]) ps.

(** The flags of the [case] of lines 43-53. *)
Definition known (flag : string) : bool :=
  match flag_setter flag with Some _ => true | None => false end.

Definition all_known (ps : list (string * string)) : bool :=
  forallb (fun p => known (fst p)) ps.

Definition is_help (flag : string) : bool :=
  String.eqb flag "-h" || String.eqb flag "--help".

(** The variable a flag assigns, read. *)
Definition variable_of (flag : string) : option (Vars -> string) :=
  if String.eqb flag "--ip" then Some ip
  else if String.eqb flag "--cidr" then Some cidr
  else if String.eqb flag "--target-ip" then Some target_ip
  else if String.eqb flag "--url" then Some url
  else if String.eqb flag "--port" then Some port
  else if String.eqb flag "--protocol" then Some protocol
  else if String.eqb flag "--cluster" then Some cluster
  else if String.eqb flag "--service" then Some service
  else if String.eqb flag "--sg" then Some sg_id
  else if String.eqb flag "--region" then Some region
  else if String.eqb flag "--description" then Some description
  else None.

(** The value of the last occurrence of a flag on a command line. *)
Fixpoint last_value (flag : string) (ps : list (string * string)) : option string :=
  match ps with
  | [] => None
  | p :: rest =>
      match last_value flag rest with
      | Some x => Some x
      | None => if String.eqb (fst p) flag then Some (snd p) else None
      end
  end.

(** The state after some lines on standard output. *)
Definition said_all (s : State) (ls : list string) : State :=
  {| cloud := cloud s; calls := calls s; stdout := stdout s ++ ls; stderr := stderr s |}.

(** A message that tells the caller which flag to use. *)
Definition advises (msg : string) : Prop :=
  exists pre post, msg = (pre ++ "Use --" ++ post)%string.

(** How a block ends: the status it ends the run with, nothing when the
    run goes on. *)
Definition ended {A} (r : Result A) : option Z :=
  match r with Done _ => None | Exit n => Some n end.

(** The statuses the script itself ends a run with: [exit 0], [exit 2],
    and 1 for the expansion of an unset [$2]. *)
Definition own (x : option Z) : Prop :=
  x = None \/ x = Some 0 \/ x = Some 1 \/ x = Some 2.

(** The exit status of an external command of the script when the
    provider's state is [w]: that of the command for the three that do not
    talk to the provider; for the others the status of the call when it
    fails on its way, and else the status the provider's answer gives the
    client, each call with the request of its line of the script. *)
Definition answer_status (E : Env) (w : Cloud) (c : Call) : Z :=
  match c with
  | GetentHosts h => fst (getent_hosts E h)
  | CheckIp => fst (curl_checkip E)
  | ConfigureGetRegion => fst (configure_get_region E)
  | _ =>
      if fault E c =? 0 then
        match c with
        | DescribeRegions => fst (describe_regions w)
        | DescribeInterfaceIds r a => fst (describe_interface_ids w r a)
        | DescribeInterfaceGroups r a => fst (describe_interface_groups w r a)
        | ListClusters r => fst (list_clusters w r)
        | ListServices r k => fst (list_services w r k)
        | DescribeServiceGroups r k sv => fst (describe_service_groups w r k sv)
        | DescribeSinglePorts r g p => fst (describe_single_ports w r g p)
        | DescribeMatchingCidr r g p n a => fst (describe_matching_cidr w r g p n a)
        | AuthorizeIngress r g p n a d => fst (authorize_ingress w r g p n a d)
        | _ => 0
        end
      else fault E c
  end.

Definition succeeded (E : Env) (w : Cloud) (c : Call) : bool :=
  answer_status E w c =? 0.

(** The calls of a run stop at the first command that fails: either all
    of them succeeded and the run ended as the script itself decided, or
    the last one is the only one that failed and its status is the status
    of the run. *)
Definition stops_at_failure (E : Env) (w : Cloud) (t : list Call) (x : option Z) : Prop :=
  (forallb (succeeded E w) t = true /\ own x)
  \/ (exists pre c,
        t = pre ++ [c] /\ forallb (succeeded E w) pre = true
        /\ answer_status E w c <> 0 /\ x = Some (answer_status E w c)).

(** From [s] to [s'] the provider's state stays, and the calls made stop
    at the first failure. *)
Definition stopping (E : Env) (s : State) (x : option Z) (s' : State) : Prop :=
  cloud s' = cloud s
  /\ exists t, calls s' = calls s ++ t /\ stops_at_failure E (cloud s) t x.

(** From [s] to [s'] the script has written nothing to standard error,
    or one line of advice, and then ends the run with status 2. *)
Definition complaining (s : State) (x : option Z) (s' : State) : Prop :=
  stderr s' = stderr s
  \/ (x = Some 2 /\ exists msg, advises msg /\ stderr s' = stderr s ++ [msg]).

(** From [s] to [s'] the script has written nothing when the run goes
    on. *)
Definition wordless (s : State) (x : option Z) (s' : State) : Prop :=
  x = None -> stdout s' = stdout s /\ stderr s' = stderr s.

(** From [s] to [s'] the provider's state stays, the script has written
    nothing when the run goes on, and when the run ends with status 2 there
    is a reason for the caller to read: a line of advice on standard
    error, or the word that is no flag and the usage text on standard
    output, or the last command, which left with status 2 itself. *)
Definition explained (E : Env) (s : State) (x : option Z) (s' : State) : Prop :=
  cloud s' = cloud s
  /\ (x = None -> stdout s' = stdout s /\ stderr s' = stderr s)
  /\ exists t,
       calls s' = calls s ++ t
       /\ (x = Some 2 ->
           (exists msg, advises msg /\ stderr s' = stderr s ++ [msg])
           \/ (exists word,
                 stdout s' = stdout s ++ (("Unknown arg: " ++ word)%string :: usage_lines))
           \/ (exists pre c, t = pre ++ [c] /\ answer_status E (cloud s) c = 2)).

(** The calls that name a region name [r0]. *)
Definition in_region (r0 : string) (c : Call) : bool :=
  match c with
  | DescribeInterfaceGroups r _ => String.eqb r r0
  | ListClusters r => String.eqb r r0
  | ListServices r _ => String.eqb r r0
  | DescribeServiceGroups r _ _ => String.eqb r r0
  | DescribeSinglePorts r _ _ => String.eqb r r0
  | DescribeMatchingCidr r _ _ _ _ => String.eqb r r0
  | AuthorizeIngress r _ _ _ _ _ => String.eqb r r0
  | _ => true
  end.

(** A group allows a CIDR on a protocol and port: one of its entries is
    for that protocol and that single port, and has a range with the
    CIDR. *)
Definition allows (perms : list IpPermission) (protocol port cidr : string) : Prop :=
  exists p r,
    In p perms /\ In r (IpRanges p)
    /\ IpProtocol p = protocol
    /\ parse_port port = Some (FromPort p) /\ ToPort p = FromPort p
    /\ CidrIp r = cidr.

End Notions.

(** The run of the second example of the usage text, from the caller at
    203.0.113.10 against the sample deployment. *)
Module SampleLines.

Import Sh Script.

Definition url_line : list string := ["--url"; "http://43.216.215.179:8080/"].

Definition url_resolution : Result Vars * State :=
  resolve Sample.laptop url_line (start Sample.deployment).

Definition url_run : Result unit * State :=
  main Sample.laptop url_line (start Sample.deployment).

End SampleLines.

(* ================================================================== *)
(** * Strategy update: [scripts/update-strategy.js], lines 26-64 and 90-102 *)
(* ================================================================== *)

(** The values of the script that come from [JSON.parse], and the
    operations of the language the script applies to them. *)
Module Js.

(** A value as [JSON.parse] gives it.  Of a number the script can only
    see whether it is zero; an object holds its own properties in their
    order, under distinct keys. *)
#[local] Unset Elimination Schemes.

Inductive Json :=
| JNull
| JBool (b : bool)
| JNum (zero : bool) (literal : string)
| JStr (s : string)
| JArr (items : list Json)
| JObj (props : list (string * Json)).

#[local] Set Elimination Schemes.

(** A value or [undefined]. *)
Definition Value : Type := option Json.

(** What [!x] negates. *)
Definition truthy (x : Value) : bool :=
  match x with
  | None => false
  | Some JNull => false
  | Some (JBool b) => b
  | Some (JNum zero _) => negb zero
  | Some (JStr EmptyString) => false
  | Some (JStr (String _ _)) => true
  | Some (JArr _) => true
  | Some (JObj _) => true
  end.

Fixpoint lookup (k : string) (props : list (string * Json)) : Value :=
  match props with
  | [] => None
  | (k', x) :: rest => if String.eqb k' k then Some x else lookup k rest
  end.

(** [x.k] for a value that is not [null] and a name that no prototype
    defines: the own property of an object, [undefined] for anything
    else. *)
Definition get (x : Json) (k : string) : Value :=
  match x with
  | JObj props => lookup k props
  | _ => None
  end.

(** [x[0]] for a value that is not [null]: the first element of an
    array, the property [0] of an object, the first character of a string
    (a string again, of which the script only finds that it has no
    command), [undefined] for anything else. *)
Definition item0 (x : Json) : Value :=
  match x with
  | JArr items => hd_error items
  | JObj props => lookup "0" props
  | JStr (String c _) => Some (JStr (String c EmptyString))
  | _ => None
  end.

(** [Array.isArray(x)]. *)
Definition isArray (x : Value) : bool :=
  match x with
  | Some (JArr _) => true
  | _ => false
  end.

(** [x === s] for a string [s]. *)
Definition is_string (s : string) (x : Json) : bool :=
  match x with
  | JStr t => String.eqb t s
  | _ => false
  end.

(** [l.indexOf(s)] for a string [s]; [None] stands for [-1]. *)
Fixpoint indexOf (s : string) (l : list Json) : option nat :=
  match l with
  | [] => None
  | x :: rest => if is_string s x then Some 0%nat else option_map S (indexOf s rest)
  end.

(** [l[i] = x] for an index within the array, where the test of line 97
    keeps the index of line 101; beyond the end, where the language would
    extend the array, the array is left as it is. *)
Fixpoint store (i : nat) (x : Json) (l : list Json) : list Json :=
  match l, i with
  | [], _ => []
  | _ :: rest, O => x :: rest
  | y :: rest, S j => y :: store j x rest
  end.

(** [o.k = x] on an object: the property keeps its place when the object
    has it, and comes last when not. *)
Fixpoint assign (k : string) (x : Json) (props : list (string * Json))
  : list (string * Json) :=
  match props with
  | [] => [(k, x)]
  | (k', y) :: rest =>
      if String.eqb k' k then (k', x) :: rest else (k', y) :: assign k x rest
  end.

Definition put (o : Json) (k : string) (x : Json) : Json :=
  match o with
  | JObj props => JObj (assign k x props)
  | _ => o
  end.

(** The value [x] after a change of the object that [x[0]] is. *)
Definition put_item0 (x : Json) (c : Json) : Json :=
  match x with
  | JArr (_ :: rest) => JArr (c :: rest)
  | JObj props => JObj (assign "0" c props)
  | _ => x
  end.

End Js.

(** The arguments of the script and its rewriting of the local task
    definition; line 103 writes the rewritten task definition back to the
    file it was read from. *)
Module Strategy.

Import Js.
Local Open Scope Z_scope.

(** How a stretch of the script ends: it goes on with a value, it leaves
    through [process.exit] after some lines on standard error, or it
    throws an exception that nothing catches. *)
Inductive Outcome (A : Type) :=
| Goes (a : A)
| Exits (status : Z) (errors : list string)
| Throws.

Arguments Goes {A} a.
Arguments Exits {A} status errors.
Arguments Throws {A}.

(** Lines 26-42: the text [usageAndExit] prints, trimmed. *)
Definition usage_text : list string :=
  [ "Usage:";
    "  node scripts/update-strategy.js --name Strategy002 --file freqtrade/strategy/strategy-1 \";
    "    --host 43.216.215.179 --key freqtrade-ecs-key.pem";
    EmptyString;
    "Optional env vars (defaults shown):";
    "  REGION=ap-southeast-5";
    "  CLUSTER=freqtrade-ecs";
    "  SERVICE=freqtrade-service";
    "  TASKDEF_PATH=ecs-taskdef.json";
    "  SSM_CONFIG_PARAM=/freqtrade/config.json";
    "  SSM_STRATEGY_PREFIX=/freqtrade/strategies" ].

Definition usageAndExit {A} (before : list string) : Outcome A :=
  Exits 1 (before ++ usage_text).

(** The object [out] of [parseArgs]: a property is a string, or
    [undefined] when it was never assigned or assigned [argv[++i]] past the
    end of the array. *)
Record Args := {
  name : option string;
  file : option string;
  host : option string;
  key : option string
}.

Definition no_args : Args := {| name := None; file := None; host := None; key := None |}.

Definition set_name (a : Args) (x : option string) : Args :=
  {| name := x; file := file a; host := host a; key := key a |}.
Definition set_file (a : Args) (x : option string) : Args :=
  {| name := name a; file := x; host := host a; key := key a |}.
Definition set_host (a : Args) (x : option string) : Args :=
  {| name := name a; file := file a; host := x; key := key a |}.
Definition set_key (a : Args) (x : option string) : Args :=
  {| name := name a; file := file a; host := host a; key := x |}.

(** The property a flag assigns. *)
Definition flag_property (flag : string) : option (Args -> option string -> Args) :=
  if String.eqb flag "--name" then Some set_name
  else if String.eqb flag "--file" then Some set_file
  else if String.eqb flag "--host" then Some set_host
  else if String.eqb flag "--key" then Some set_key
  else None.

(** Lines 44-59.  A flag takes the next word, whatever it is, and
    [undefined] when it is the last word. *)
Fixpoint parseArgs (argv : list string) (out : Args) : Outcome Args :=
  match argv with
  | [] => Goes out
  | arg :: rest =>
      match flag_property arg with
      | Some set =>
          match rest with
          | value :: rest' => parseArgs rest' (set out (Some value))
          | [] => Goes (set out None)
          end
      | None =>
          if String.eqb arg "--help" || String.eqb arg "-h" then usageAndExit []
          else usageAndExit [String.append "Unknown arg: " arg]
      end
  end.

(** [!x] is false: a string that is not empty. *)
Definition given (x : option string) : bool :=
  match x with
  | Some (String _ _) => true
  | _ => false
  end.

Definition value_of (x : option string) : string :=
  match x with Some s => s | None => EmptyString end.

(** The four values the script goes on with. *)
Record Request := {
  strategyName : string;
  strategyFile : string;
  hostName : string;
  keyPath : string
}.

(** Lines 61-64 and 73-76. *)
Definition checked_args (argv : list string) : Outcome Request :=
  match parseArgs argv no_args with
  | Goes a =>
      if given (name a) && given (file a) && given (host a) && given (key a)
      then Goes {| strategyName := value_of (name a); strategyFile := value_of (file a);
                   hostName := value_of (host a); keyPath := value_of (key a) |}
      else usageAndExit []
  | Exits n errors => Exits n errors
  | Throws => Throws
  end.

(** Lines 95-102: the command of the container with the word after the
    first [--strategy] replaced; nothing when there is no such word. *)
Definition update_command (cmd : list Json) (strategy : string) : option (list Json) :=
  match indexOf "--strategy" cmd with
  | None => None
  | Some idx =>
      if Nat.eqb idx (List.length cmd - 1) then None
      else Some (store (idx + 1) (JStr strategy) cmd)
  end.

Definition unexpected_structure : string := "Unexpected ecs-taskdef.json structure.".
Definition strategy_not_found : string :=
  "Could not find '--strategy' in task definition command.".

(** Lines 90-102: the task definition with the new command.  The
    container is the object that [containerDefinitions[0]] is, so that the
    assignment of line 102 shows in the task definition. *)
Definition update_taskdef (taskdef : Json) (strategy : string) : Outcome Json :=
  match taskdef with
  | JNull => Throws
  | _ =>
      let definitions := get taskdef "containerDefinitions" in
      let container :=
        if truthy definitions
        then match definitions with Some d => item0 d | None => None end
        else definitions in
      match container with
      | Some c =>
          if negb (truthy container) || negb (isArray (get c "command"))
          then Exits 1 [unexpected_structure]
          else
            match get c "command", definitions with
            | Some (JArr command), Some d =>
                match update_command command strategy with
                | Some cmd =>
                    Goes (put taskdef "containerDefinitions"
                            (put_item0 d (put c "command" (JArr cmd))))
                | None => Exits 1 [strategy_not_found]
                end
            | _, _ => Exits 1 [unexpected_structure]
            end
      | None => Exits 1 [unexpected_structure]
      end
  end.

End Strategy.

(** Notions to word the properties of the strategy update with. *)
Module StrategyNotions.

Import Js Strategy.

(** The property a flag assigns, read. *)
Definition property_of (flag : string) : option (Args -> option string) :=
  if String.eqb flag "--name" then Some name
  else if String.eqb flag "--file" then Some file
  else if String.eqb flag "--host" then Some host
  else if String.eqb flag "--key" then Some key
  else None.

Definition takes_value (flag : string) : bool :=
  match flag_property flag with Some _ => true | None => false end.

(** The command of the first container, as lines 90-95 read it. *)
Definition command_of (taskdef : Json) : option (list Json) :=
  match get taskdef "containerDefinitions" with
  | Some d =>
      match item0 d with
      | Some c =>
          match get c "command" with
          | Some (JArr command) => Some command
          | _ => None
          end
      | None => None
      end
  | None => None
  end.

End StrategyNotions.

(** A task definition to rewrite, and what the script makes of it for the
    strategy [Strategy002]. *)
Module StrategySample.

Import Js.

Definition command (strategy : string) : Json :=
  JArr [JStr "trade"; JStr "--strategy"; JStr strategy; JStr "--config";
        JStr "/freqtrade/user_data/config.json"].

Definition taskdef (strategy : string) : Json :=
  JObj [ ("family", JStr "freqtrade");
         ("containerDefinitions",
          JArr [ JObj [ ("name", JStr "freqtrade");
                        ("command", command strategy);
                        ("essential", JBool true) ] ]);
         ("requiresCompatibilities", JArr [JStr "EC2"]) ].

End StrategySample.

(* ================================================================== *)
(** * Facts about the text the script reads *)
(* ================================================================== *)

Module TextFacts.

Import Bash Aws Script.

Lemma is_empty_true (s : string) : is_empty s = true <-> s = EmptyString.
Proof. destruct s; simpl; split; congruence. Qed.

Lemma non_empty_true (s : string) : non_empty s = true <-> s <> EmptyString.
Proof. unfold non_empty; destruct s; simpl; split; congruence. Qed.

Lemma non_empty_false (s : string) : non_empty s = false <-> s = EmptyString.
Proof. unfold non_empty; destruct s; simpl; split; congruence. Qed.

(** Trailing newlines do not change the first line. *)
Lemma before_first_chomp (s : string) :
  before_first NL (chomp s) = before_first NL s.
Proof.
  induction s as [|c s IH]; cbn [chomp before_first]; [reflexivity|].
  destruct (Ascii.eqb c NL) eqn:Hc; cbn [andb].
  - destruct (is_empty (chomp s)); cbn [before_first]; [reflexivity|].
    now rewrite Hc.
  - cbn [before_first]; now rewrite Hc, IH.
Qed.

Lemma read_array_chomp (s : string) : read_array (chomp s) = read_array s.
Proof. unfold read_array; now rewrite before_first_chomp. Qed.

(** A word has no blank and no newline in it. *)
Lemma is_space_blank (a : ascii) : is_space a = false -> is_blank a = false.
Proof.
  unfold is_space, is_blank; intros H.
  repeat match goal with
         | K : orb _ _ = false |- _ => apply orb_false_iff in K; destruct K
         end.
  apply orb_false_iff; split; assumption.
Qed.

Lemma is_space_newline (a : ascii) : is_space a = false -> Ascii.eqb a NL = false.
Proof.
  unfold is_space; intros H.
  repeat match goal with
         | K : orb _ _ = false |- _ => apply orb_false_iff in K; destruct K
         end.
  assumption.
Qed.

Lemma before_first_word (w rest : string) :
  no_space w = true ->
  before_first NL (w ++ rest) = (w ++ before_first NL rest)%string.
Proof.
  induction w as [|a w IH]; cbn [append before_first no_space]; intros H; [reflexivity|].
  apply andb_true_iff in H; destruct H as [Ha Hw].
  apply negb_true_iff in Ha.
  now rewrite (is_space_newline a Ha), IH.
Qed.

Lemma before_first_whole (w : string) :
  no_space w = true -> before_first NL w = w.
Proof.
  induction w as [|a w IH]; cbn [before_first no_space]; intros H; [reflexivity|].
  apply andb_true_iff in H; destruct H as [Ha Hw].
  apply negb_true_iff in Ha.
  now rewrite (is_space_newline a Ha), IH.
Qed.

Lemma split_blank_word_end (w : string) :
  is_word w = true -> split_blank w = [w].
Proof.
  unfold is_word; intros H; apply andb_true_iff in H; destruct H as [Hne Hns].
  induction w as [|a w IH]; [discriminate|].
  simpl in Hns; apply andb_true_iff in Hns; destruct Hns as [Ha Hw].
  apply negb_true_iff in Ha.
  cbn [split_blank]; rewrite (is_space_blank a Ha).
  destruct w as [|b w']; [reflexivity|].
  assert (Hb : is_blank b = false).
  { simpl in Hw; apply andb_true_iff in Hw; destruct Hw as [Hb _].
    apply negb_true_iff in Hb; now apply is_space_blank. }
  rewrite Hb, (IH eq_refl Hw); reflexivity.
Qed.

Lemma split_blank_word_tab (w rest : string) :
  is_word w = true ->
  split_blank (w ++ String TAB rest) = w :: split_blank rest.
Proof.
  unfold is_word; intros H; apply andb_true_iff in H; destruct H as [Hne Hns].
  induction w as [|a w IH]; [discriminate|].
  simpl in Hns; apply andb_true_iff in Hns; destruct Hns as [Ha Hw].
  apply negb_true_iff in Ha.
  cbn [append split_blank]; rewrite (is_space_blank a Ha).
  destruct w as [|b w']; [reflexivity|].
  assert (Hb : is_blank b = false).
  { simpl in Hw; apply andb_true_iff in Hw; destruct Hw as [Hb _].
    apply negb_true_iff in Hb; now apply is_space_blank. }
  cbn [append] in *; rewrite Hb, (IH eq_refl Hw); reflexivity.
Qed.

Lemma text_line_cons (w : string) (ws : list string) :
  ws <> [] -> text_line (w :: ws) = (w ++ String TAB (text_line ws))%string.
Proof. destruct ws; [congruence|reflexivity]. Qed.

Lemma no_newline_text_line (ws : list string) :
  forallb is_word ws = true -> before_first NL (text_line ws) = text_line ws.
Proof.
  induction ws as [|w ws IH]; [reflexivity|].
  simpl forallb; intros H; apply andb_true_iff in H; destruct H as [Hw Hws].
  apply andb_true_iff in Hw; destruct Hw as [_ Hns].
  destruct ws as [|w' ws'].
  - unfold text_line; cbn [String.concat]. now apply before_first_whole.
  - rewrite text_line_cons by discriminate.
    rewrite before_first_word by assumption.
    cbn [before_first]. replace (Ascii.eqb TAB NL) with false by reflexivity.
    now rewrite (IH Hws).
Qed.

(** Reading back a line of words gives the words. *)
Lemma read_array_text_line (ws : list string) :
  forallb is_word ws = true -> read_array (text_line ws) = ws.
Proof.
  intros H; unfold read_array; rewrite no_newline_text_line by assumption.
  induction ws as [|w ws IH]; [reflexivity|].
  simpl in H; apply andb_true_iff in H; destruct H as [Hw Hws].
  destruct ws as [|w' ws'].
  - now apply split_blank_word_end.
  - rewrite text_line_cons by discriminate.
    rewrite split_blank_word_tab by assumption.
    now rewrite (IH Hws).
Qed.

Lemma ids_words (ws : list string) : ids ws = true -> forallb is_word ws = true.
Proof.
  unfold ids; induction ws as [|w ws IH]; simpl; [reflexivity|].
  intros H; apply andb_true_iff in H; destruct H as [Hw Hws].
  unfold is_id in Hw; apply andb_true_iff in Hw; destruct Hw as [Hw _].
  now rewrite Hw, IH.
Qed.

(** What the tests of the script see in a captured text, from the words
    [read] finds in it. *)
Lemma nothing_chomp_words (t : string) :
  read_array t <> [] -> read_array t <> ["None"] -> nothing (chomp t) = false.
Proof.
  intros Hnil Hnone; unfold nothing.
  apply orb_false_iff; split.
  - destruct (is_empty (chomp t)) eqn:He; [|reflexivity].
    apply is_empty_true in He.
    exfalso; apply Hnil; rewrite <- read_array_chomp, He; reflexivity.
  - destruct (String.eqb (chomp t) "None") eqn:He; [|reflexivity].
    apply String.eqb_eq in He.
    exfalso; apply Hnone; rewrite <- read_array_chomp, He; reflexivity.
Qed.

(** A text without newline is what [$( ... )] keeps of it. *)
Lemma chomp_no_newline (s : string) : contains NL s = false -> chomp s = s.
Proof.
  induction s as [|a s IH]; cbn [contains chomp]; intros H; [reflexivity|].
  apply orb_false_iff in H; destruct H as [Ha Hs].
  now rewrite Ha, (IH Hs).
Qed.

Lemma delete_space_no_newline (s : string) : contains NL (delete_space s) = false.
Proof.
  induction s as [|a s IH]; cbn [delete_space]; [reflexivity|].
  destruct (is_space a) eqn:Ha; [assumption|].
  cbn [contains]; now rewrite (is_space_newline a Ha), IH.
Qed.

Lemma chomp_delete_space (s : string) : chomp (delete_space s) = delete_space s.
Proof. apply chomp_no_newline, delete_space_no_newline. Qed.

Lemma before_first_no_newline (s : string) : contains NL (before_first NL s) = false.
Proof.
  induction s as [|a s IH]; cbn [before_first]; [reflexivity|].
  destruct (Ascii.eqb a NL) eqn:Ha; [reflexivity|].
  cbn [contains]; now rewrite Ha, IH.
Qed.

Lemma split_blank_no_newline (s : string) :
  contains NL s = false ->
  forallb (fun w => negb (contains NL w)) (split_blank s) = true.
Proof.
  induction s as [|a s IH]; cbn [contains split_blank]; intros H; [reflexivity|].
  apply orb_false_iff in H; destruct H as [Ha Hs].
  specialize (IH Hs).
  destruct (is_blank a); [assumption|].
  destruct s as [|b s']; [cbn [forallb contains]; rewrite Ha; reflexivity|].
  destruct (is_blank b).
  - cbn [forallb contains]; rewrite Ha, IH; reflexivity.
  - destruct (split_blank (String b s')) as [|w ws].
    + cbn [forallb contains]; rewrite Ha; reflexivity.
    + cbn [forallb contains] in *; rewrite Ha.
      apply andb_true_iff in IH; destruct IH as [Hw Hws].
      now rewrite Hws, andb_true_r.
Qed.

Lemma chomp_awk_first_field (out : string) :
  chomp (awk_first_field out) = awk_first_field out.
Proof.
  apply chomp_no_newline; unfold awk_first_field, read_array.
  pose proof (split_blank_no_newline _ (before_first_no_newline out)) as H.
  destruct (split_blank (before_first NL out)) as [|w ws]; [reflexivity|].
  cbn [first hd forallb] in *.
  apply andb_true_iff in H; destruct H as [H _]; now apply negb_true_iff in H.
Qed.

End TextFacts.

(* ================================================================== *)
(** * Facts about the steps of a run *)
(* ================================================================== *)

Module StepFacts.

Import Bash Aws Sh Script TextFacts.
Local Open Scope Z_scope.

(** A query that gets through gives its text, less the trailing
    newlines, and is logged. *)
Lemma aws_query_ok (E : Env) (c : Call) (q : Cloud -> Reply) (s : State) (t : string) :
  fault E c = 0 -> q (cloud s) = ok t ->
  aws_query E c q s = (Done (chomp t), logged s c).
Proof.
  intros Hf Hq; unfold aws_query, captured, piped, bind, get_cloud, log.
  cbn [cloud]; rewrite Hf, Hq; reflexivity.
Qed.

(** A query that fails ends the run with its status. *)
Lemma aws_query_failed (E : Env) (c : Call) (q : Cloud -> Reply) (s : State) :
  fault E c <> 0 ->
  aws_query E c q s = (Exit (fault E c), logged s c).
Proof.
  intros Hf; unfold aws_query, captured, piped, bind, get_cloud, log.
  apply Z.eqb_neq in Hf; cbn [cloud fst snd]; rewrite Hf; cbn [fst]; rewrite Hf.
  reflexivity.
Qed.

Lemma aws_query_cases (E : Env) (c : Call) (q : Cloud -> Reply) (s : State) :
  (exists t, aws_query E c q s = (Done t, logged s c))
  \/ (exists n, aws_query E c q s = (Exit n, logged s c)).
Proof.
  unfold aws_query, captured, piped, bind, get_cloud, log; cbn [cloud].
  destruct (fst _ =? 0); [left|right]; eexists; reflexivity.
Qed.

(** A command in a substitution that leaves another status than 0 ends
    the run with that status, whatever it printed. *)
Lemma piped_failed (c : Call) (reply : Reply) (f : string -> string) (s : State) :
  fst reply <> 0 -> piped c reply f s = (Exit (fst reply), logged s c).
Proof. intros H; apply Z.eqb_neq in H; unfold piped, bind, log; now rewrite H. Qed.

Lemma bind_done {A B} (m : Sh A) (f : A -> Sh B) (s s1 : State) (a : A) :
  m s = (Done a, s1) -> bind m f s = f a s1.
Proof. intros H; unfold bind; now rewrite H. Qed.

Lemma bind_exit {A B} (m : Sh A) (f : A -> Sh B) (s s1 : State) (n : Z) :
  m s = (Exit n, s1) -> bind m f s = (Exit n, s1).
Proof. intros H; unfold bind; now rewrite H. Qed.

Lemma ids_head_not_null (w : string) (ws : list string) :
  ids (w :: ws) = true -> w :: ws <> ["None"].
Proof.
  unfold ids; cbn [forallb]; intros H K; injection K as -> _.
  discriminate H.
Qed.

(** The words of a line of identifiers, as the pattern of lines 136-145
    sees them. *)
Lemma exactly_one_ids (ws : list string) (none_msg many_msg : string) (s : State) :
  ids ws = true ->
  exactly_one (chomp (text_line ws)) none_msg many_msg s =
  match ws with
  | [] => (Exit 2, complained s none_msg)
  | [x] => (Done x, s)
  | _ :: _ :: _ => (Exit 2, complained s many_msg)
  end.
Proof.
  intros Hids; unfold exactly_one.
  destruct ws as [|x ws]; [reflexivity|].
  pose proof (read_array_text_line _ (ids_words _ Hids)) as Hread.
  rewrite nothing_chomp_words, read_array_chomp, Hread.
  - destruct ws as [|y ws]; [reflexivity|].
    unfold count; cbn [List.length].
    replace (Z.of_nat (S (S (List.length ws))) =? 1) with false; [reflexivity|].
    symmetry; apply Z.eqb_neq; lia.
  - rewrite Hread; discriminate.
  - rewrite Hread; now apply ids_head_not_null.
Qed.

Lemma exactly_one_null (none_msg many_msg : string) (s : State) :
  exactly_one (chomp text_null) none_msg many_msg s = (Exit 2, complained s none_msg).
Proof. reflexivity. Qed.

(** ** Blocks that only read *)

Lemma quiet_ret {A} (P : Call -> bool) (Q : A -> Prop) (a : A) :
  Q a -> quiet P Q (ret a).
Proof.
  intros Ha s; cbn; repeat split.
  - exists []; now rewrite List.app_nil_r.
  - now intros b [= <-].
Qed.

Lemma quiet_exit {A} (P : Call -> bool) (Q : A -> Prop) (n : Z) :
  quiet P Q (exit n).
Proof.
  intros s; cbn; repeat split.
  - exists []; now rewrite List.app_nil_r.
  - discriminate.
Qed.

Lemma quiet_bind {A B} (P : Call -> bool) (Q : A -> Prop) (R : B -> Prop)
  (m : Sh A) (f : A -> Sh B) :
  quiet P Q m -> (forall a, Q a -> quiet P R (f a)) -> quiet P R (bind m f).
Proof.
  intros Hm Hf s; unfold bind.
  destruct (Hm s) as (Hc & (t & Ht & HP) & HQ).
  destruct (m s) as [[a|n] s1]; cbn [fst snd] in *.
  - destruct (Hf a (HQ a eq_refl) s1) as (Hc' & (t' & Ht' & HP') & HR).
    repeat split.
    + congruence.
    + exists (t ++ t'); split.
      * rewrite Ht', Ht; now rewrite List.app_assoc.
      * rewrite forallb_app, HP, HP'; reflexivity.
    + exact HR.
  - repeat split; [assumption | now exists t | discriminate].
Qed.

Lemma quiet_weaken {A} (P : Call -> bool) (Q Q' : A -> Prop) (m : Sh A) :
  quiet P Q m -> (forall a, Q a -> Q' a) -> quiet P Q' m.
Proof.
  intros Hm HQ s; destruct (Hm s) as (Hc & Ht & Ha).
  repeat split; auto.
Qed.

Lemma quiet_echo (P : Call -> bool) (l : string) : quiet P (fun _ => True) (echo l).
Proof.
  intros s; cbn; repeat split. exists []; now rewrite List.app_nil_r.
Qed.

Lemma quiet_echo_err (P : Call -> bool) (l : string) : quiet P (fun _ => True) (echo_err l).
Proof.
  intros s; cbn; repeat split. exists []; now rewrite List.app_nil_r.
Qed.

Lemma quiet_log (P : Call -> bool) (c : Call) :
  P c = true -> quiet P (fun _ => True) (log c).
Proof.
  intros Hc s; cbn; repeat split. exists [c]; cbn; now rewrite Hc.
Qed.

Lemma quiet_get_cloud (P : Call -> bool) : quiet P (fun _ => True) get_cloud.
Proof.
  intros s; cbn; repeat split. exists []; now rewrite List.app_nil_r.
Qed.

Lemma quiet_piped (P : Call -> bool) (c : Call) (r : Reply) (f : string -> string) :
  P c = true -> quiet P (fun _ => True) (piped c r f).
Proof.
  intros Hc; unfold piped.
  eapply quiet_bind; [now apply quiet_log|]; intros _ _.
  destruct (fst r =? 0); [now apply quiet_ret | apply quiet_exit].
Qed.

Lemma quiet_aws_query (P : Call -> bool) (E : Env) (c : Call) (q : Cloud -> Reply) :
  P c = true -> quiet P (fun _ => True) (aws_query E c q).
Proof.
  intros Hc; unfold aws_query, captured.
  eapply quiet_bind; [apply quiet_get_cloud|]; intros w _.
  now apply quiet_piped.
Qed.

Lemma quiet_exactly_one (P : Call -> bool) (t none_msg many_msg : string) :
  quiet P (fun _ => True) (exactly_one t none_msg many_msg).
Proof.
  unfold exactly_one.
  destruct (nothing t).
  - eapply quiet_bind; [apply quiet_echo_err|]; intros; apply quiet_exit.
  - destruct (negb _).
    + eapply quiet_bind; [apply quiet_echo_err|]; intros; apply quiet_exit.
    + now apply quiet_ret.
Qed.

End StepFacts.

(* ================================================================== *)
(** * The blocks before the rule only read *)
(* ================================================================== *)

Module ReadFacts.

Import Bash Aws Sh Script TextFacts StepFacts.
Local Open Scope Z_scope.

Ltac quiet_step :=
  lazymatch goal with
  | |- quiet _ _ (bind (echo_err _) _) =>
      eapply quiet_bind; [apply quiet_echo_err | intros ? _]
  | |- quiet _ _ (bind (echo _) _) =>
      eapply quiet_bind; [apply quiet_echo | intros ? _]
  | |- quiet _ _ (bind (exactly_one _ _ _) _) =>
      eapply quiet_bind; [apply quiet_exactly_one | intros ? _]
  | |- quiet _ _ (bind (aws_query _ _ _) _) =>
      eapply quiet_bind; [apply quiet_aws_query | intros ? _]
  | |- quiet _ _ (bind (piped _ _ _) _) =>
      eapply quiet_bind; [apply quiet_piped | intros ? _]
  | |- quiet _ _ (bind (captured _ _) _) =>
      eapply quiet_bind; [apply quiet_piped | intros ? _]
  | |- quiet _ _ (ret _) => apply quiet_ret
  | |- quiet _ _ (exit _) => apply quiet_exit
  | |- quiet _ _ (if ?b then _ else _) => destruct b eqn:?
  | |- quiet _ _ (let _ := _ in _) => cbv zeta
  end.

Lemma quiet_echo_all (P : Call -> bool) (ls : list string) :
  quiet P (fun _ => True) (echo_all ls).
Proof.
  induction ls as [|l ls IH]; cbn [echo_all].
  - now apply quiet_ret.
  - eapply quiet_bind; [apply quiet_echo | intros; apply IH].
Qed.

(** The loop over the flags takes one or two words a round: induction on
    a bound of the number of words. *)
Lemma quiet_parse_args_bounded (P : Call -> bool) (n : nat) :
  forall (args : list string) (v : Vars),
    (List.length args <= n)%nat -> quiet P (fun _ => True) (parse_args args v).
Proof.
  induction n as [|n IH]; intros [|flag rest] v Hn; cbn [parse_args];
    try (now apply quiet_ret); cbn [List.length] in Hn; [lia|].
  destruct (flag_setter flag).
  - destruct rest as [|value rest']; [apply quiet_exit|].
    apply IH; cbn [List.length] in Hn; lia.
  - destruct (_ || _).
    + eapply quiet_bind; [apply quiet_echo_all | intros; apply quiet_exit].
    + quiet_step.
      eapply quiet_bind; [apply quiet_echo_all | intros; apply quiet_exit].
Qed.

(** The flags are parsed without a call. *)
Lemma quiet_parse_args (P : Call -> bool) (args : list string) (v : Vars) :
  quiet P (fun _ => True) (parse_args args v).
Proof. now apply (quiet_parse_args_bounded P (List.length args)). Qed.

(** The URL block makes no call when the target address is set, and
    leaves it as it is. *)
Lemma quiet_url_block_target (P : Call -> bool) (E : Env) (v : Vars) :
  target_ip v <> EmptyString ->
  quiet P (fun v' => target_ip v' = target_ip v) (url_block E v).
Proof.
  intros Ht; apply non_empty_true in Ht; unfold url_block.
  destruct (non_empty (url v)); [|now apply quiet_ret].
  cbv zeta.
  destruct (is_empty (port v) && non_empty (url_port_of (url v))); cbn [target_ip set_port];
    unfold non_empty in Ht; apply negb_true_iff in Ht; rewrite Ht; cbn [andb];
    now apply quiet_ret.
Qed.

(** Otherwise its one call is the name lookup. *)
Lemma quiet_url_block (P : Call -> bool) (E : Env) (v : Vars) :
  (forall h, P (GetentHosts h) = true) ->
  quiet P (fun _ => True) (url_block E v).
Proof.
  intros HP; unfold url_block.
  repeat (quiet_step; auto).
Qed.

Section Policy.

(** A policy [P] on calls that allows every call about the target
    address [ip0]. *)
Variable P : Call -> bool.
Variable ip0 : string.
Hypothesis allowed : forall c, about_target ip0 c = true -> P c = true.

Variable E : Env.

Let keeps (v' : Vars) : Prop := target_ip v' = ip0.

Ltac allow := apply allowed; cbn [about_target]; rewrite ?String.eqb_refl; reflexivity.

Lemma quiet_scan_regions (regions : list string) (mr : string) (mc : Z) :
  quiet P (fun _ => True) (scan_regions E ip0 regions mr mc).
Proof.
  revert mr mc; induction regions as [|r rest IH]; intros mr mc; cbn [scan_regions].
  - now apply quiet_ret.
  - quiet_step; [allow|].
    destruct (_ && _); apply IH.
Qed.

Lemma quiet_infer_region (v : Vars) :
  target_ip v = ip0 -> quiet P keeps (infer_region E v).
Proof.
  intros Hv; unfold infer_region, keeps; rewrite Hv.
  quiet_step; [|now apply quiet_ret].
  quiet_step; [allow|].
  cbv zeta.
  eapply quiet_bind; [apply quiet_scan_regions | intros found _].
  repeat (quiet_step; auto).
Qed.

Lemma quiet_region_block (v : Vars) :
  target_ip v = ip0 -> quiet P keeps (region_block E v).
Proof.
  intros Hv; unfold region_block.
  eapply quiet_bind with (Q := keeps).
  - destruct (is_empty (region v)); [|now apply quiet_ret].
    eapply quiet_bind; [now apply quiet_infer_region | intros v1 Hv1].
    unfold region_fallbacks; cbv zeta.
    assert (Hk : keeps (if is_empty (region v1)
                        then set_region v1 (region_of_env E) else v1))
      by (destruct (is_empty (region v1)); assumption).
    destruct (is_empty (region (if is_empty (region v1)
                                then set_region v1 (region_of_env E) else v1)));
      [|now apply quiet_ret].
    quiet_step; [allow|]. now apply quiet_ret.
  - intros v1 Hv1. unfold require_region. repeat (quiet_step; auto).
Qed.

Lemma quiet_cidr_block (v : Vars) :
  target_ip v = ip0 -> quiet P keeps (cidr_block E v).
Proof.
  intros Hv; unfold cidr_block.
  destruct (is_empty (cidr v)); [|now apply quiet_ret].
  eapply quiet_bind with (Q := keeps).
  - destruct (is_empty (ip v)); [|now apply quiet_ret].
    quiet_step; [allow|]. now apply quiet_ret.
  - intros v1 Hv1. repeat (quiet_step; auto).
Qed.

Lemma quiet_sg_by_ip_block (v : Vars) :
  target_ip v = ip0 -> quiet P keeps (sg_by_ip_block E v).
Proof.
  intros Hv; unfold sg_by_ip_block.
  destruct (_ && _); [|now apply quiet_ret].
  quiet_step; [rewrite Hv; allow|].
  quiet_step. now apply quiet_ret.
Qed.

Lemma quiet_ecs_block (v : Vars) :
  target_ip v = ip0 -> quiet P keeps (ecs_block E v).
Proof.
  intros Hv; unfold ecs_block.
  destruct (is_empty (sg_id v)); [|now apply quiet_ret].
  eapply quiet_bind with (Q := keeps).
  { unfold pick_cluster. destruct (is_empty (cluster v)); [|now apply quiet_ret].
    quiet_step; [allow|]. quiet_step. now apply quiet_ret. }
  intros v1 Hv1.
  eapply quiet_bind with (Q := keeps).
  { unfold pick_service. destruct (is_empty (service v1)); [|now apply quiet_ret].
    quiet_step; [allow|]. quiet_step. now apply quiet_ret. }
  intros v2 Hv2.
  unfold pick_service_sg.
  quiet_step; [allow|]. quiet_step. now apply quiet_ret.
Qed.

Lemma quiet_port_block (v : Vars) :
  target_ip v = ip0 -> quiet P keeps (port_block E v).
Proof.
  intros Hv; unfold port_block.
  destruct (is_empty (port v)); [|now apply quiet_ret].
  quiet_step; [allow|]. quiet_step. now apply quiet_ret.
Qed.

(** Lines 84-204 make only calls the policy allows, leave the provider
    as it is and never assign the target address. *)
Lemma quiet_resolve_rest (v : Vars) :
  target_ip v = ip0 -> quiet P keeps (resolve_rest E v).
Proof.
  intros Hv; unfold resolve_rest.
  eapply quiet_bind; [now apply quiet_region_block | intros v1 Hv1].
  eapply quiet_bind; [now apply quiet_cidr_block | intros v2 Hv2].
  eapply quiet_bind; [now apply quiet_sg_by_ip_block | intros v3 Hv3].
  eapply quiet_bind; [now apply quiet_ecs_block | intros v4 Hv4].
  now apply quiet_port_block.
Qed.

End Policy.

Lemma read_only_allowed (ip0 : string) (c : Call) :
  about_target ip0 c = true -> read_only c = true.
Proof. destruct c; cbn; congruence. Qed.

Lemma quiet_flags_and_url (E : Env) (args : list string) :
  quiet read_only (fun _ => True) (flags_and_url E args).
Proof.
  unfold flags_and_url.
  eapply quiet_bind; [apply quiet_parse_args | intros v _].
  now apply quiet_url_block.
Qed.

(** Everything before the rule is a sequence of read-only calls. *)
Lemma quiet_resolve (E : Env) (args : list string) :
  quiet read_only (fun _ => True) (resolve E args).
Proof.
  unfold resolve.
  eapply quiet_bind with (Q := fun _ => True).
  - apply quiet_flags_and_url.
  - intros v _.
    eapply quiet_weaken;
      [apply (quiet_resolve_rest read_only (target_ip v) (read_only_allowed _) E v eq_refl)|].
    auto.
Qed.

End ReadFacts.

(* ================================================================== *)
(** * The region *)
(* ================================================================== *)

Module RegionFacts.

Import Bash Aws Sh Script TextFacts StepFacts.
Local Open Scope Z_scope.

Lemma found_iff_something (t : string) :
  non_empty t && negb (String.eqb t "None") = negb (nothing t).
Proof. unfold nothing, non_empty; now rewrite negb_orb. Qed.

Lemma nothing_text_line (ws : list string) :
  ids ws = true ->
  nothing (chomp (text_line ws)) = Nat.eqb (List.length ws) 0.
Proof.
  intros Hids; destruct ws as [|x ws]; [reflexivity|].
  pose proof (read_array_text_line _ (ids_words _ Hids)) as Hread.
  apply nothing_chomp_words; rewrite Hread; [discriminate|].
  now apply ids_head_not_null.
Qed.

Lemma logged_all_logged (s : State) (c : Call) (cs : list Call) :
  logged_all (logged s c) cs = logged_all s (c :: cs).
Proof. unfold logged_all, logged; cbn; now rewrite <- List.app_assoc. Qed.

Lemma logged_all_nil (s : State) : logged_all s [] = s.
Proof. destruct s; unfold logged_all; cbn; now rewrite List.app_nil_r. Qed.

Lemma last_cons {A} (a d : A) (l : list A) : last (a :: l) d = last l a.
Proof.
  revert a; induction l as [|b l IH]; intros a; [reflexivity|].
  cbn [last] in *. destruct l; [reflexivity|]. apply IH.
Qed.

Section Scan.

Variable E : Env.
Variable w : Cloud.
Variable target : string.

Hypothesis served : forall r,
  fault E (DescribeInterfaceIds r target) = 0
  /\ ids (map NetworkInterfaceId (interfaces_with w r target)) = true.

(** The loop of lines 90-98 asks every region in turn, keeps the last
    region that has the address and counts the regions that have it. *)
Lemma scan_regions_counts (regions : list string) :
  forall (mr : string) (mc : Z) (s : State),
    cloud s = w ->
    scan_regions E target regions mr mc s =
    (Done (last (filter (region_matches w target) regions) mr,
           mc + Z.of_nat (List.length (filter (region_matches w target) regions))),
     logged_all s (map (fun r => DescribeInterfaceIds r target) regions)).
Proof.
  induction regions as [|r rest IH]; intros mr mc s Hw; cbn [scan_regions filter map].
  - cbn [last List.length]; unfold ret; now rewrite Z.add_0_r, logged_all_nil.
  - destruct (served r) as [Hf Hids].
    rewrite (bind_done _ _ _ _ _
               (aws_query_ok E _ _ s _ Hf (f_equal (fun c => describe_interface_ids c r target) Hw))).
    rewrite found_iff_something, (nothing_text_line _ Hids), length_map.
    change (negb (Nat.eqb (List.length (interfaces_with w r target)) 0))
      with (region_matches w target r).
    destruct (region_matches w target r).
    + rewrite (IH r (mc + 1) (logged s _) Hw), logged_all_logged, last_cons.
      cbn [List.length]; rewrite Nat2Z.inj_succ.
      repeat (f_equal; try lia).
    + rewrite (IH mr mc (logged s _) Hw), logged_all_logged; reflexivity.
Qed.

End Scan.

(** Lines 85-105, when a target address is known and the inference is
    served. *)
Lemma infer_region_served (E : Env) (v : Vars) (s : State) :
  target_ip v <> EmptyString ->
  Spec.inference_served E (cloud s) (target_ip v) ->
  infer_region E v s =
  match matching_regions (cloud s) (target_ip v) with
  | [] => (Done v, logged_all s (Spec.inference_calls (cloud s) (target_ip v)))
  | [r] => (Done (set_region v r), logged_all s (Spec.inference_calls (cloud s) (target_ip v)))
  | _ :: _ :: _ =>
      (Exit 2, complained (logged_all s (Spec.inference_calls (cloud s) (target_ip v)))
                 (multiple_regions_msg (target_ip v)))
  end.
Proof.
  intros Ht (Hf & Hregions & Hserved); apply non_empty_true in Ht.
  unfold infer_region; rewrite Ht.
  rewrite (bind_done _ _ _ _ _ (aws_query_ok E _ _ s _ Hf eq_refl)).
  cbv zeta; rewrite read_array_chomp, (read_array_text_line _ (ids_words _ Hregions)).
  rewrite (bind_done _ _ _ _ _
             (scan_regions_counts E (cloud s) (target_ip v) Hserved (Regions (cloud s))
                EmptyString 0 (logged s DescribeRegions) eq_refl)).
  cbn [fst snd]; rewrite logged_all_logged; fold (Spec.inference_calls (cloud s) (target_ip v)).
  fold (matching_regions (cloud s) (target_ip v)).
  destruct (matching_regions (cloud s) (target_ip v)) as [|r [|r' rs]]; [reflexivity..|].
  cbn [List.length].
  replace (0 + Z.of_nat (S (S (List.length rs))) =? 1) with false
    by (symmetry; apply Z.eqb_neq; lia).
  replace (0 + Z.of_nat (S (S (List.length rs))) >? 1) with true
    by (symmetry; apply Z.gtb_lt; lia).
  reflexivity.
Qed.

(** A region the inference can choose is a word. *)
Lemma matching_region_given (w : Cloud) (target r : string) :
  ids (Regions w) = true -> In r (matching_regions w target) -> non_empty r = true.
Proof.
  intros Hids Hin; apply filter_In in Hin; destruct Hin as [Hin _].
  unfold ids in Hids; rewrite forallb_forall in Hids.
  specialize (Hids r Hin); unfold is_id, is_word in Hids.
  now repeat (apply andb_true_iff in Hids; destruct Hids as [Hids _]).
Qed.

(** Lines 106-111 by cases: a region that is set stays; the environment
    comes next; the client's configuration last. *)
Lemma region_fallbacks_set (E : Env) (v : Vars) (s : State) :
  non_empty (region v) = true -> region_fallbacks E v s = (Done v, s).
Proof.
  unfold region_fallbacks, non_empty; intros H; apply negb_true_iff in H.
  cbv zeta; rewrite H; rewrite H; reflexivity.
Qed.

Lemma region_fallbacks_env (E : Env) (v : Vars) (s : State) :
  region v = EmptyString -> non_empty (region_of_env E) = true ->
  region_fallbacks E v s = (Done (set_region v (region_of_env E)), s).
Proof.
  unfold region_fallbacks, non_empty; intros -> H; apply negb_true_iff in H.
  cbv zeta; cbn [is_empty region set_region]; rewrite H; reflexivity.
Qed.

Lemma region_fallbacks_config (E : Env) (v : Vars) (s : State) (conf : string) :
  region v = EmptyString -> region_of_env E = EmptyString ->
  configure_get_region E = ok conf ->
  region_fallbacks E v s =
  (Done (set_region (set_region v EmptyString) (chomp conf)), logged s ConfigureGetRegion).
Proof.
  unfold region_fallbacks; intros -> -> ->; reflexivity.
Qed.

Lemma region_fallbacks_failure (E : Env) (v : Vars) (s : State) :
  region v = EmptyString -> region_of_env E = EmptyString ->
  fst (configure_get_region E) <> 0 ->
  region_fallbacks E v s =
  (Exit (fst (configure_get_region E)), logged s ConfigureGetRegion).
Proof.
  unfold region_fallbacks; intros -> -> Hst; cbv zeta; cbn [is_empty region set_region].
  apply bind_exit; unfold captured; now apply piped_failed.
Qed.

(** A lookup in the client's configuration that fails ends the run with
    its status, before the check of lines 114-117. *)
Lemma region_lookup_failure (E : Env) (v : Vars) (s : State) :
  region v = EmptyString -> target_ip v = EmptyString ->
  region_of_env E = EmptyString ->
  fst (configure_get_region E) <> 0 ->
  region_block E v s = (Exit (fst (configure_get_region E)), logged s ConfigureGetRegion).
Proof.
  intros Hr Ht He Hst; apply Z.eqb_neq in Hst.
  unfold region_block, infer_region, region_fallbacks.
  rewrite Hr, Ht; cbn [is_empty non_empty negb].
  apply bind_exit; unfold bind at 1, ret at 1; cbv zeta.
  rewrite Hr, He; cbn [is_empty region set_region].
  apply bind_exit; unfold captured, piped, bind, log; now rewrite Hst.
Qed.

Lemma region_of_env_first (E : Env) :
  find non_empty [AWS_REGION E; AWS_DEFAULT_REGION E] =
  if non_empty (region_of_env E) then Some (region_of_env E) else None.
Proof.
  unfold region_of_env; cbn [find].
  destruct (non_empty (AWS_REGION E)) eqn:H1; [now rewrite H1|].
  destruct (non_empty (AWS_DEFAULT_REGION E)); reflexivity.
Qed.

(** The sample deployment serves the inference of a caller whose calls
    get through. *)
Lemma deployment_served (E : Env) (target : string) :
  (forall c, fault E c = 0) ->
  Spec.inference_served E Sample.deployment target.
Proof.
  intros Hf; split; [apply Hf|]; split; [reflexivity|].
  intros r; split; [apply Hf|].
  unfold interfaces_with, Sample.deployment; cbn [NetworkInterfaces].
  destruct (String.eqb r Sample.home); [|reflexivity].
  cbn [filter]; destruct (has_public_ip target Sample.bot_interface); reflexivity.
Qed.

Lemma mirrored_served (E : Env) (target : string) :
  (forall c, fault E c = 0) ->
  Spec.inference_served E Sample.mirrored target.
Proof.
  intros Hf; split; [apply Hf|]; split; [reflexivity|].
  intros r; split; [apply Hf|].
  unfold interfaces_with, Sample.mirrored; cbn [NetworkInterfaces].
  cbn [filter]; destruct (has_public_ip target Sample.bot_interface); reflexivity.
Qed.

Lemma inference_calls_read_only (w : Cloud) (target : string) :
  forallb read_only (Spec.inference_calls w target) = true.
Proof.
  unfold Spec.inference_calls; cbn [forallb read_only is_mutation negb andb].
  induction (Regions w) as [|r rs IH]; [reflexivity|exact IH].
Qed.

End RegionFacts.

(* ================================================================== *)
(** * Port numbers as text *)
(* ================================================================== *)

Module PortFacts.

Import Bash Aws Sh Script TextFacts StepFacts.
Local Open Scope Z_scope.

(** The digits of a number are no white space. *)
Lemma digits_no_space (d : Decimal.uint) :
  no_space (NilEmpty.string_of_uint d) = true.
Proof. induction d; cbn [NilEmpty.string_of_uint no_space]; try rewrite IHd; reflexivity. Qed.

Lemma digits_given (d : Decimal.uint) :
  d <> Decimal.Nil -> non_empty (NilEmpty.string_of_uint d) = true.
Proof. destruct d; intros H; [contradiction|reflexivity..]. Qed.

Lemma digits_not_null (d : Decimal.uint) :
  String.eqb (NilEmpty.string_of_uint d) text_null = false.
Proof. destruct d; reflexivity. Qed.

(** The text of a port is an identifier: a word that is not [None]. *)
Lemma port_text_is_id (n : Z) : is_id (port_text n) = true.
Proof.
  unfold port_text, is_id, is_word.
  destruct n as [|p|p]; cbn [Z.to_int NilZero.string_of_int]; [reflexivity| |].
  - pose proof (Unsigned.to_uint_nonnil p) as Hp.
    unfold NilZero.string_of_uint.
    destruct (Pos.to_uint p) eqn:Hd; [contradiction|..];
      rewrite <- Hd, digits_no_space, digits_not_null, digits_given by (rewrite Hd; discriminate);
      reflexivity.
  - pose proof (Unsigned.to_uint_nonnil p) as Hp.
    unfold NilZero.string_of_uint.
    destruct (Pos.to_uint p) eqn:Hd; [contradiction|..];
      rewrite <- Hd; cbn [non_empty is_empty negb no_space andb];
      rewrite digits_no_space; reflexivity.
Qed.

Lemma ports_are_ids (ns : list Z) : ids (map port_text ns) = true.
Proof.
  unfold ids; induction ns as [|n ns IH]; cbn [map forallb]; [reflexivity|].
  now rewrite port_text_is_id, IH.
Qed.

(** The number a port's text denotes is the port. *)
Lemma parse_port_text (n : Z) : parse_port (port_text n) = Some n.
Proof.
  unfold parse_port, port_text.
  rewrite NilZero.isi.
  - cbn [option_map]; now rewrite DecimalZ.of_to.
  - destruct n as [|p|p]; cbn [Z.to_int]; try discriminate.
    intros [= H]; now apply (Unsigned.to_uint_nonnil p).
  - destruct n as [|p|p]; cbn [Z.to_int]; try discriminate.
    intros [= H]; now apply (Unsigned.to_uint_nonnil p).
Qed.

Lemma port_text_inj (n m : Z) : port_text n = port_text m -> n = m.
Proof.
  intros H; apply (f_equal parse_port) in H.
  rewrite !parse_port_text in H; now injection H.
Qed.

Lemma port_text_eqb (n m : Z) : String.eqb (port_text n) (port_text m) = Z.eqb n m.
Proof.
  destruct (Z.eqb_spec n m) as [->|Hne]; [apply String.eqb_refl|].
  apply String.eqb_neq; intros H; apply Hne; now apply port_text_inj.
Qed.

End PortFacts.

(* ================================================================== *)
(** * The security group and the port *)
(* ================================================================== *)

Module LocatorFacts.

Import Bash Aws Sh Script TextFacts StepFacts.
Local Open Scope Z_scope.

(** Binding the value of a block that ends in one of three ways. *)
Lemma bind_three {B} (m : Sh string) (f : string -> Sh B) (ws : list string)
  (s s1 : State) (none_msg many_msg : string) :
  m s = match ws with
        | [] => (Exit 2, complained s1 none_msg)
        | [x] => (Done x, s1)
        | _ :: _ :: _ => (Exit 2, complained s1 many_msg)
        end ->
  bind m f s = match ws with
               | [] => (Exit 2, complained s1 none_msg)
               | [x] => f x s1
               | _ :: _ :: _ => (Exit 2, complained s1 many_msg)
               end.
Proof.
  intros H; destruct ws as [|x [|y ws]];
    [now apply bind_exit | now apply bind_done | now apply bind_exit].
Qed.

(** Entries with different keys that the filter of line 192 keeps have
    different ports. *)
Lemma single_ports_nodup (protocol : string) (perms : list IpPermission) :
  NoDup (map key perms) -> NoDup (single_ports protocol perms).
Proof.
  unfold single_ports; induction perms as [|p ps IH]; cbn [map filter]; intros H.
  - constructor.
  - inversion H as [|k ks Hnotin Hnodup]; subst.
    destruct (single_port_rule protocol p) eqn:Hp; [|now apply IH].
    cbn [map]; constructor; [|now apply IH].
    intros Hin; apply Hnotin.
    apply in_map_iff in Hin; destruct Hin as (q & Hport & Hq).
    apply filter_In in Hq; destruct Hq as [Hq Hrule].
    apply in_map_iff; exists q; split; [|assumption].
    unfold single_port_rule in Hp, Hrule.
    repeat match goal with
           | K : _ && _ = true |- _ => apply andb_true_iff in K; destruct K
           end.
    repeat match goal with
           | K : String.eqb _ _ = true |- _ => apply String.eqb_eq in K
           | K : Z.eqb _ _ = true |- _ => apply Z.eqb_eq in K
           end.
    unfold key; congruence.
Qed.

(** Lines 190-204 count the entries the filter keeps, one word for
    each. *)
Lemma port_block_by_rules (E : Env) (v : Vars) (s : State) (perms : list IpPermission) :
  port v = EmptyString ->
  SecurityGroups (cloud s) (region v) (sg_id v) = Some perms ->
  fault E (DescribeSinglePorts (region v) (sg_id v) (protocol v)) = 0 ->
  port_block E v s =
  match single_ports (protocol v) perms with
  | [] =>
      (Exit 2, complained (logged s (DescribeSinglePorts (region v) (sg_id v) (protocol v)))
                 (no_rules_msg (protocol v)))
  | [p] =>
      (Done (set_port v (port_text p)),
       logged s (DescribeSinglePorts (region v) (sg_id v) (protocol v)))
  | _ :: _ :: _ =>
      (Exit 2, complained (logged s (DescribeSinglePorts (region v) (sg_id v) (protocol v)))
                 (multiple_ports_msg (protocol v)))
  end.
Proof.
  intros Hport Hgroup Hf.
  unfold port_block; rewrite Hport; cbn [is_empty].
  erewrite bind_done;
    [|apply aws_query_ok with (t := text_line (map port_text (single_ports (protocol v) perms)));
      [exact Hf | unfold describe_single_ports, single_ports; now rewrite Hgroup, map_map]].
  pose proof (exactly_one_ids (map port_text (single_ports (protocol v) perms))
                (no_rules_msg (protocol v)) (multiple_ports_msg (protocol v))
                (logged s (DescribeSinglePorts (region v) (sg_id v) (protocol v)))
                (PortFacts.ports_are_ids _)) as Hone.
  apply (bind_three _ (fun p => ret (set_port v p))) in Hone.
  rewrite Hone; destruct (single_ports (protocol v) perms) as [|p [|p' ps]]; reflexivity.
Qed.

End LocatorFacts.

(* ================================================================== *)
(** * The rule *)
(* ================================================================== *)

Module RuleFacts.

Import Bash Aws Sh Script TextFacts StepFacts.
Local Open Scope Z_scope.

(** The mutation changes the provider only when it succeeds. *)
Lemma authorize_ingress_failed (w : Cloud) (r g p n c d : string) :
  fst (authorize_ingress w r g p n c d) <> 0 ->
  snd (authorize_ingress w r g p n c d) = w.
Proof.
  unfold authorize_ingress.
  destruct (SecurityGroups w r g); [|reflexivity].
  destruct (parse_port n); [|reflexivity].
  destruct (rule_present _ _ _ _); [reflexivity|].
  cbn [fst]; congruence.
Qed.

(** The mutating call: it is logged, and either it succeeds and the
    provider's state is the new one, or the run ends with a status other
    than zero and the state is the old one. *)
Lemma aws_authorize_cases (E : Env) (v : Vars) (s : State) :
  let m := AuthorizeIngress (region v) (sg_id v) (protocol v) (port v) (cidr v)
             (description v) in
  (exists w', aws_authorize E v s =
              (Done tt, {| cloud := w'; calls := calls s ++ [m];
                           stdout := stdout s; stderr := stderr s |}))
  \/ (exists n, n <> 0 /\ aws_authorize E v s = (Exit n, logged s m)).
Proof.
  cbv zeta; unfold aws_authorize, bind, log, get_cloud, put_cloud, exit.
  cbn [fst snd cloud calls stdout stderr].
  destruct (fault E _ =? 0) eqn:Hf.
  - destruct (fst (authorize_ingress _ _ _ _ _ _ _) =? 0) eqn:Hst.
    + left; eexists; reflexivity.
    + right; eexists; split; [|reflexivity]. now apply Z.eqb_neq.
  - right; eexists; split; [|reflexivity]. now apply Z.eqb_neq.
Qed.

(** The last block makes one query and then at most the one mutation,
    with nothing after it. *)
Lemma authorize_block_calls (E : Env) (v : Vars) (s : State) :
  let r := authorize_block E v s in
  let q := DescribeMatchingCidr (region v) (sg_id v) (protocol v) (port v) (cidr v) in
  let m := AuthorizeIngress (region v) (sg_id v) (protocol v) (port v) (cidr v)
             (description v) in
  (calls (snd r) = calls s ++ [q] /\ cloud (snd r) = cloud s)
  \/ (calls (snd r) = calls s ++ [q; m]
      /\ (status_of r <> 0 -> cloud (snd r) = cloud s)).
Proof.
  cbv zeta; unfold authorize_block.
  destruct (aws_query_cases E
              (DescribeMatchingCidr (region v) (sg_id v) (protocol v) (port v) (cidr v))
              (fun w => describe_matching_cidr w (region v) (sg_id v) (protocol v)
                          (port v) (cidr v)) s) as [[t Hq]|[n Hq]].
  - rewrite (bind_done _ _ _ _ _ Hq).
    destruct (non_empty t && _); [left; split; reflexivity|].
    set (s1 := logged s _).
    destruct (aws_authorize_cases E v s1) as [[w' Ha]|[n [Hn Ha]]];
      cbv zeta in Ha.
    + rewrite (bind_done _ _ _ _ _ Ha).
      right; split; [cbn; now rewrite <- List.app_assoc|].
      unfold status_of; cbn; congruence.
    + rewrite (bind_exit _ _ _ _ _ Ha).
      right; split; [cbn; now rewrite <- List.app_assoc|reflexivity].
  - rewrite (bind_exit _ _ _ _ _ Hq). left; split; reflexivity.
Qed.

(** ** What the query of lines 206-208 answers *)

(** For a port that is a number, the filter of line 207 keeps the entries
    of that protocol and port. *)
Lemma on_port_same_key (protocol : string) (n : Z) (p : IpPermission) :
  on_port protocol (port_text n) p = same_key protocol n p.
Proof. unfold on_port, same_key; now rewrite !PortFacts.port_text_eqb. Qed.

Lemma matching_cidrs_rows (protocol cidr : string) (n : Z) (perms : list IpPermission) :
  matching_cidrs protocol (port_text n) cidr perms =
  map (fun p => map CidrIp (filter (has_cidr cidr) (IpRanges p)))
      (filter (same_key protocol n) perms).
Proof.
  unfold matching_cidrs; f_equal; apply filter_ext; intros p; apply on_port_same_key.
Qed.

(** A row of the answer is the CIDR, once for each range that has it. *)
Lemma row_of_cidr (cidr : string) (rs : list IpRange) :
  map CidrIp (filter (has_cidr cidr) rs) =
  repeat cidr (List.length (filter (has_cidr cidr) rs)).
Proof.
  induction rs as [|r rs IH]; cbn [filter]; [reflexivity|].
  destruct (has_cidr cidr r) eqn:Hr; [|exact IH].
  cbn [map List.length repeat]; rewrite IH.
  unfold has_cidr in Hr; apply String.eqb_eq in Hr; now rewrite Hr.
Qed.

Lemma repeat_ids (x : string) (k : nat) : is_id x = true -> ids (repeat x k) = true.
Proof.
  intros Hx; unfold ids; induction k as [|k IH]; cbn [repeat forallb]; [reflexivity|].
  now rewrite Hx, IH.
Qed.

Lemma before_first_line (l rest : string) :
  before_first NL l = l ->
  before_first NL (l ++ String NL EmptyString ++ rest) = l.
Proof.
  change (String NL EmptyString ++ rest)%string with (String NL rest).
  induction l as [|a l IH]; cbn [append before_first].
  - now rewrite Ascii.eqb_refl.
  - destruct (Ascii.eqb a NL); [discriminate|].
    intros [= H]; now rewrite (IH H).
Qed.

(** [read] sees the first line of the answer: the first row that is not
    empty. *)
Lemma read_array_rows (cidr : string) (counts : list nat) :
  is_id cidr = true ->
  read_array (text_rows (map (repeat cidr) counts)) =
  hd [] (filter (fun r => negb (Nat.eqb (List.length r) 0)) (map (repeat cidr) counts)).
Proof.
  intros Hid; unfold text_rows.
  induction counts as [|k ks IH]; cbn [map filter]; [reflexivity|].
  destruct k as [|k]; cbn [repeat List.length Nat.eqb negb]; [exact IH|].
  set (rest := filter _ (map (repeat cidr) ks)) in *.
  assert (Hrow : forallb is_word (cidr :: repeat cidr k) = true)
    by (apply ids_words, (repeat_ids cidr (S k) Hid)).
  destruct rest as [|r rs]; cbn [map String.concat hd].
  - now apply read_array_text_line.
  - rewrite <- (read_array_text_line _ Hrow) at 2.
    unfold read_array.
    rewrite before_first_line by now apply no_newline_text_line.
    now rewrite no_newline_text_line.
Qed.

Lemma sum_lengths_zero (cidr : string) (counts : list nat) :
  filter (fun r => negb (Nat.eqb (List.length r) 0)) (map (repeat cidr) counts) = []
  <-> list_sum counts = 0%nat.
Proof.
  induction counts as [|k ks IH]; cbn [map filter list_sum]; [tauto|].
  rewrite repeat_length.
  destruct k as [|k]; cbn [Nat.eqb negb]; [exact IH|].
  split; [discriminate | cbn; lia].
Qed.

(** The test of line 210 succeeds when the group has the rule, and only
    then. *)
Lemma existing_cidr_found (protocol cidr : string) (n : Z) (perms : list IpPermission) :
  is_id cidr = true ->
  nothing (chomp (text_rows (matching_cidrs protocol (port_text n) cidr perms)))
  = Nat.eqb (rule_count protocol n cidr perms) 0.
Proof.
  intros Hid; rewrite matching_cidrs_rows; unfold rule_count.
  set (entries := filter (same_key protocol n) perms).
  set (counts := map (fun p => List.length (filter (has_cidr cidr) (IpRanges p))) entries).
  assert (Hrows : map (fun p => map CidrIp (filter (has_cidr cidr) (IpRanges p))) entries
                  = map (repeat cidr) counts).
  { unfold counts; rewrite map_map; apply map_ext; intros p; apply row_of_cidr. }
  rewrite Hrows.
  pose proof (read_array_rows cidr counts Hid) as Hread.
  pose proof (sum_lengths_zero cidr counts) as Hzero.
  destruct (filter _ (map (repeat cidr) counts)) as [|r rs] eqn:Hf; cbn [hd] in Hread.
  - rewrite (proj1 Hzero eq_refl); cbn [Nat.eqb].
    unfold text_rows; rewrite Hf; reflexivity.
  - assert (Hpos : list_sum counts <> 0%nat) by (intros K; apply Hzero in K; discriminate).
    apply Nat.eqb_neq in Hpos; rewrite Hpos.
    assert (Hr : In r (filter (fun r => negb (Nat.eqb (List.length r) 0))
                         (map (repeat cidr) counts))) by (rewrite Hf; now left).
    apply filter_In in Hr; destruct Hr as [Hin Hne].
    apply in_map_iff in Hin; destruct Hin as (k & <- & _).
    rewrite repeat_length in Hne.
    destruct k as [|k]; [discriminate|]; cbn [repeat] in Hread.
    apply nothing_chomp_words; rewrite Hread; [discriminate|].
    apply ids_head_not_null, (repeat_ids cidr (S k) Hid).
Qed.

(** ** What the mutation does to the group *)

Lemma rule_present_count (protocol cidr : string) (n : Z) (perms : list IpPermission) :
  rule_present protocol n cidr perms = negb (Nat.eqb (rule_count protocol n cidr perms) 0).
Proof.
  unfold rule_present, rule_count.
  induction perms as [|p ps IH]; cbn [existsb filter]; [reflexivity|].
  destruct (same_key protocol n p); cbn [andb orb map list_sum]; [|exact IH].
  destruct (filter (has_cidr cidr) (IpRanges p)) as [|r rs] eqn:Hf.
  - assert (He : existsb (has_cidr cidr) (IpRanges p) = false).
    { destruct (existsb (has_cidr cidr) (IpRanges p)) eqn:He; [|reflexivity].
      apply existsb_exists in He; destruct He as (x & Hx & Hc).
      assert (Hin : In x (filter (has_cidr cidr) (IpRanges p)))
        by (apply filter_In; now split).
      rewrite Hf in Hin; contradiction. }
    rewrite He; cbn [orb List.length Nat.add]; exact IH.
  - assert (He : existsb (has_cidr cidr) (IpRanges p) = true).
    { apply existsb_exists; exists r.
      assert (Hin : In r (filter (has_cidr cidr) (IpRanges p))) by (rewrite Hf; now left).
      apply filter_In in Hin; exact Hin. }
    rewrite He; reflexivity.
Qed.

(** Adding the rule adds one to its count. *)
Lemma rule_count_add (protocol cidr description : string) (n : Z)
  (perms : list IpPermission) :
  rule_count protocol n cidr
    (add_rule protocol n {| CidrIp := cidr; Description := description |} perms)
  = S (rule_count protocol n cidr perms).
Proof.
  unfold rule_count.
  assert (Hself : forall d, has_cidr cidr {| CidrIp := cidr; Description := d |} = true)
    by (intros d; unfold has_cidr; cbn [CidrIp]; apply String.eqb_refl).
  induction perms as [|p ps IH]; cbn [add_rule].
  - cbn [filter]; unfold same_key at 1; cbn [IpProtocol FromPort ToPort].
    rewrite String.eqb_refl, Z.eqb_refl; cbn [andb map IpRanges filter].
    rewrite Hself; reflexivity.
  - destruct (same_key protocol n p) eqn:Hk; cbn [filter].
    + unfold same_key at 1; cbn [IpProtocol FromPort ToPort].
      fold (same_key protocol n p); rewrite Hk.
      cbn [map list_sum IpRanges].
      rewrite filter_app, length_app; cbn [filter]; rewrite Hself.
      cbn [List.length list_sum fold_right]; lia.
    + rewrite Hk; exact IH.
Qed.

Lemma set_group_lookup (w : Cloud) (region sg : string) (perms : list IpPermission) :
  SecurityGroups (set_group w region sg perms) region sg = Some perms.
Proof. unfold set_group; cbn [SecurityGroups]; now rewrite !String.eqb_refl. Qed.

(** ** The two ways through lines 206-218 *)

Section Resolved.

Variable E : Env.
Variable v : Vars.
Variable n : Z.

Hypothesis port_is_number : port v = port_text n.
Hypothesis cidr_is_word : is_id (cidr v) = true.

Let q : Call := DescribeMatchingCidr (region v) (sg_id v) (protocol v) (port v) (cidr v).
Let m : Call :=
  AuthorizeIngress (region v) (sg_id v) (protocol v) (port v) (cidr v) (description v).

Hypothesis query_served : fault E q = 0.

(** The rule is there: the run says so and ends with status 0 after the
    query. *)
Lemma authorize_block_present (s : State) (perms : list IpPermission) :
  SecurityGroups (cloud s) (region v) (sg_id v) = Some perms ->
  (1 <= rule_count (protocol v) n (cidr v) perms)%nat ->
  authorize_block E v s = (Exit 0, said (logged s q) (already_allowed_msg v)).
Proof.
  intros Hgroup Hcount; unfold authorize_block.
  erewrite bind_done;
    [|apply aws_query_ok;
      [exact query_served | unfold describe_matching_cidr; now rewrite Hgroup]].
  pose proof (existing_cidr_found (protocol v) (cidr v) n perms cidr_is_word) as Hfound.
  rewrite <- port_is_number in Hfound.
  rewrite RegionFacts.found_iff_something, Hfound.
  replace (Nat.eqb (rule_count (protocol v) n (cidr v) perms) 0) with false
    by (symmetry; apply Nat.eqb_neq; lia).
  reflexivity.
Qed.

(** The rule is not there: the mutation adds it and the run says so. *)
Lemma authorize_block_absent (s : State) (perms : list IpPermission) :
  SecurityGroups (cloud s) (region v) (sg_id v) = Some perms ->
  rule_count (protocol v) n (cidr v) perms = 0%nat ->
  fault E m = 0 ->
  authorize_block E v s =
  (Done tt,
   said (moved (logged (logged s q) m)
           (set_group (cloud s) (region v) (sg_id v)
              (add_rule (protocol v) n
                 {| CidrIp := cidr v; Description := description v |} perms)))
     (added_msg v)).
Proof.
  intros Hgroup Hcount Hm; unfold authorize_block.
  erewrite bind_done;
    [|apply aws_query_ok;
      [exact query_served | unfold describe_matching_cidr; now rewrite Hgroup]].
  pose proof (existing_cidr_found (protocol v) (cidr v) n perms cidr_is_word) as Hfound.
  rewrite <- port_is_number in Hfound.
  rewrite RegionFacts.found_iff_something, Hfound, Hcount; cbn [Nat.eqb negb].
  assert (Hcall : authorize_ingress (cloud s) (region v) (sg_id v) (protocol v) (port v)
                    (cidr v) (description v) =
                  (0, set_group (cloud s) (region v) (sg_id v)
                        (add_rule (protocol v) n
                           {| CidrIp := cidr v; Description := description v |} perms))).
  { unfold authorize_ingress; rewrite Hgroup, port_is_number, PortFacts.parse_port_text.
    now rewrite rule_present_count, Hcount. }
  unfold aws_authorize, bind, log, get_cloud, put_cloud, echo.
  fold m; rewrite Hm; cbn [Z.eqb cloud logged]; rewrite Hcall; reflexivity.
Qed.

End Resolved.

End RuleFacts.

(* ================================================================== *)
(** * The URL and the CIDR *)
(* ================================================================== *)

Module TargetFacts.

Import Bash Aws Sh Script TextFacts StepFacts.
Local Open Scope Z_scope.

Lemma piped_ok (c : Call) (out : string) (f : string -> string) (s : State) :
  piped c (ok out) f s = (Done (chomp (f out)), logged s c).
Proof. reflexivity. Qed.

(** With a target address set, the URL block can only seed the port. *)
Lemma url_block_target_given (E : Env) (v : Vars) (s : State) :
  target_ip v <> EmptyString ->
  url_block E v s =
  (Done (if non_empty (url v) && (is_empty (port v) && non_empty (url_port_of (url v)))
         then set_port v (url_port_of (url v)) else v), s).
Proof.
  intros Ht; apply non_empty_true in Ht; unfold non_empty in Ht.
  apply negb_true_iff in Ht; unfold url_block.
  destruct (non_empty (url v)); [|reflexivity].
  cbv zeta; cbn [andb].
  destruct (is_empty (port v) && non_empty (url_port_of (url v)));
    cbn [target_ip set_port]; rewrite Ht; reflexivity.
Qed.

(** The port after the URL block, whatever happens to the target. *)
Lemma url_block_port (E : Env) (v v' : Vars) (s s' : State) :
  url v <> EmptyString ->
  url_block E v s = (Done v', s') -> Spec.port_seeded v v'.
Proof.
  intros Hu; apply non_empty_true in Hu; unfold url_block; rewrite Hu; cbv zeta.
  set (v1 := if is_empty (port v) && non_empty (url_port_of (url v))
             then set_port v (url_port_of (url v)) else v).
  assert (H1 : Spec.port_seeded v v1).
  { unfold Spec.port_seeded, v1.
    destruct (port v) eqn:Hp; cbn [is_empty andb].
    - destruct (url_port_of (url v)) eqn:Hq; cbn [non_empty is_empty negb];
        split; intros; cbn [port set_port]; congruence.
    - split; intros; congruence. }
  assert (H2 : forall x, Spec.port_seeded v (set_target_ip v1 x)) by (intros x; exact H1).
  destruct (is_empty (target_ip v1) && non_empty (url_host_of (url v))).
  - destruct (dotted_quad (url_host_of (url v))).
    + intros [= <- _]; apply H2.
    + unfold piped, bind, log.
      destruct (fst _ =? 0); [|discriminate].
      unfold ret at 1; cbv beta iota.
      destruct (non_empty (chomp _)); unfold ret; intros [= <- _]; [apply H2 | exact H1].
  - intros [= <- _]; exact H1.
Qed.

End TargetFacts.

(* ================================================================== *)
(** * The script on the sample deployment *)
(* ================================================================== *)

Module SampleRuns.

Import Bash Aws Sh Script.
Local Open Scope Z_scope.

(** [scripts/whitelist_ip.sh --url http://43.216.215.179:8080/], the
    second example of the usage text: the region and the group come from
    the interface, the port from the URL, the address from the echo
    service. *)
Example run_by_url :
  let r := run Sample.laptop ["--url"; "http://43.216.215.179:8080/"]%string
             Sample.deployment in
  fst r = 0
  /\ calls (snd r) =
     [DescribeRegions;
      DescribeInterfaceIds "us-east-1" "43.216.215.179";
      DescribeInterfaceIds "ap-southeast-5" "43.216.215.179";
      CheckIp;
      DescribeInterfaceGroups "ap-southeast-5" "43.216.215.179";
      DescribeMatchingCidr "ap-southeast-5" "sg-0123456789abcdef0" "tcp" "8080"
        "203.0.113.10/32";
      AuthorizeIngress "ap-southeast-5" "sg-0123456789abcdef0" "tcp" "8080"
        "203.0.113.10/32" "codex-whitelist"]
  /\ stdout (snd r) =
     ["Added 203.0.113.10/32 to sg-0123456789abcdef0 on tcp/8080 (region ap-southeast-5)."%string]
  /\ stderr (snd r) = [].
Proof. repeat split. Qed.

(** The same flags again, on the state the first run left. *)
Example run_by_url_again :
  let first := run Sample.laptop ["--url"; "http://43.216.215.179:8080/"]%string
                 Sample.deployment in
  let r := run Sample.laptop ["--url"; "http://43.216.215.179:8080/"]%string
             (cloud (snd first)) in
  fst r = 0
  /\ stdout (snd r) =
     ["203.0.113.10/32 already allowed on tcp/8080 in sg-0123456789abcdef0."%string]
  /\ filter is_mutation (calls (snd r)) = [].
Proof. repeat split. Qed.

(** [--region ap-southeast-5] alone: the group comes from the only
    service of the only cluster, the port from the only rule. *)
Example run_by_cluster :
  let r := run Sample.laptop ["--region"; "ap-southeast-5"]%string Sample.deployment in
  fst r = 0
  /\ stdout (snd r) =
     ["Added 203.0.113.10/32 to sg-0123456789abcdef0 on tcp/8080 (region ap-southeast-5)."%string].
Proof. repeat split. Qed.

(** [--port 3000], the first example of the usage text, for a caller with
    no region configured: the lookup of the region leaves status 1 and the
    run ends with it. *)
Example run_unconfigured :
  let r := run Sample.laptop ["--port"; "3000"]%string Sample.deployment in
  fst r = 1 /\ calls (snd r) = [ConfigureGetRegion] /\ stderr (snd r) = [].
Proof. repeat split. Qed.

(** [--port 3000] again, for a caller with a region who cannot reach the
    echo service: [curl] leaves status 7 and the run ends with it at line
    121, with nothing written. *)
Example run_cut_off :
  let r := run Sample.cut_off ["--port"; "3000"]%string Sample.deployment in
  fst r = 7 /\ calls (snd r) = [CheckIp] /\ stdout (snd r) = [] /\ stderr (snd r) = []
  /\ cloud (snd r) = Sample.deployment.
Proof. repeat split. Qed.

(** A flag the script does not know. *)
Example run_unknown_flag :
  let r := run Sample.laptop ["--verbose"]%string Sample.deployment in
  fst r = 2 /\ hd_error (stdout (snd r)) = Some "Unknown arg: --verbose"%string
  /\ calls (snd r) = [].
Proof. repeat split. Qed.

End SampleRuns.

(* ================================================================== *)
(** * The flags *)
(* ================================================================== *)

Module FlagFacts.

Import Bash Aws Sh Script Notions TextFacts StepFacts.
Local Open Scope Z_scope.

Lemma echo_all_said (ls : list string) (s : State) :
  echo_all ls s = (Done tt, said_all s ls).
Proof.
  revert s; induction ls as [|l ls IH]; intros s; cbn [echo_all].
  - unfold ret, said_all; rewrite List.app_nil_r; now destruct s.
  - unfold bind, echo; rewrite IH; unfold said_all; cbn [cloud calls stdout stderr].
    now rewrite <- List.app_assoc.
Qed.

(** What a known flag does to each variable: its own takes the value,
    the others stay. *)
Lemma flag_assigns (flag' flag value : string) (set : Vars -> string -> Vars)
  (get : Vars -> string) (v : Vars) :
  flag_setter flag' = Some set -> variable_of flag = Some get ->
  get (set v value) = if String.eqb flag' flag then value else get v.
Proof.
  intros Hset Hvar; unfold flag_setter in Hset; unfold variable_of in Hvar.
  repeat match type of Hset with
         | (if String.eqb flag' ?k then _ else _) = _ =>
             destruct (String.eqb_spec flag' k) as [->|_]
         end;
    try discriminate Hset; injection Hset as <-;
    repeat match type of Hvar with
           | (if String.eqb flag ?k then _ else _) = _ =>
               destruct (String.eqb_spec flag k) as [->|_]
           end;
    try discriminate Hvar; injection Hvar as <-; reflexivity.
Qed.

(** The loop over a command line of flags with their values, followed by
    anything: the flags are assigned in their order and the loop goes on
    with what follows, with nothing written and no call made. *)
Lemma parse_args_words (ps : list (string * string)) :
  all_known ps = true ->
  forall (v : Vars),
  exists v',
    (forall tail s, parse_args (words ps ++ tail) v s = parse_args tail v' s)
    /\ (forall flag get, variable_of flag = Some get ->
          get v' = match last_value flag ps with Some x => x | None => get v end).
Proof.
  induction ps as [|[flag' value] ps IH]; intros Hk v.
  - exists v; split; [reflexivity|]; intros; reflexivity.
  - unfold all_known in Hk; cbn [forallb fst] in Hk.
    apply andb_true_iff in Hk; destruct Hk as [Hflag Hk].
    unfold known in Hflag.
    destruct (flag_setter flag') as [set|] eqn:Hset; [|discriminate].
    destruct (IH Hk (set v value)) as (v' & Hrun & Hget).
    exists v'; split.
    + intros tail s; cbn [words flat_map fst snd app parse_args].
      rewrite Hset; apply Hrun.
    + intros flag get Hvar; rewrite (Hget flag get Hvar).
      cbn [last_value fst snd].
      destruct (last_value flag ps); [reflexivity|].
      rewrite (flag_assigns flag' flag value set get v Hset Hvar).
      now destruct (String.eqb flag' flag).
Qed.

End FlagFacts.

(* ================================================================== *)
(** * The parts of a URL *)
(* ================================================================== *)

Module UrlFacts.

Import Bash Aws Sh Script Notions TextFacts StepFacts.

Lemma append_assoc (a b c : string) : ((a ++ b) ++ c = a ++ b ++ c)%string.
Proof. induction a as [|x a IH]; cbn [append]; [reflexivity | now rewrite IH]. Qed.

Lemma append_empty (a : string) : (a ++ EmptyString)%string = a.
Proof. induction a as [|x a IH]; cbn [append]; [reflexivity | now rewrite IH]. Qed.

Lemma contains_append (c : ascii) (a b : string) :
  contains c (a ++ b) = contains c a || contains c b.
Proof.
  induction a as [|x a IH]; cbn [append contains]; [reflexivity|].
  now rewrite IH, orb_assoc.
Qed.

Lemma substring_whole (s : string) (m : nat) :
  (String.length s <= m)%nat -> substring 0 m s = s.
Proof.
  revert m; induction s as [|x s IH]; intros m Hm; cbn [String.length] in Hm.
  - now destruct m.
  - destruct m as [|m]; [lia|]; cbn [substring]; rewrite IH; [reflexivity | lia].
Qed.

Lemma prefix_other (sep rest : string) (a x : ascii) :
  Ascii.eqb x a = false -> String.prefix (String a sep) (String x rest) = false.
Proof.
  intros Hx; cbn [String.prefix].
  destruct (ascii_dec a x) as [->|_]; [|reflexivity].
  now rewrite Ascii.eqb_refl in Hx.
Qed.

(** [${url#*://}] on a URL whose scheme has no colon: what follows the
    scheme's separator. *)
Lemma after_scheme (scheme rest : string) :
  contains ":" scheme = false ->
  after_first_opt "://" (scheme ++ "://" ++ rest) = Some rest.
Proof.
  intros Hs; induction scheme as [|x scheme IH]; cbn [append].
  - unfold after_first_opt.
    replace (String.prefix "://" (String ":" (String "/" (String "/" rest)))) with true.
    + cbn [String.length substring]. now rewrite substring_whole by lia.
    + cbn [String.prefix].
      repeat match goal with
             | |- context [ascii_dec ?a ?b] => destruct (ascii_dec a b); [|congruence]
             end.
      now destruct rest.
  - cbn [contains] in Hs; apply orb_false_iff in Hs; destruct Hs as [Hx Hs].
    cbn [after_first_opt]; rewrite (prefix_other _ _ _ _ Hx).
    exact (IH Hs).
Qed.

Lemma strip_scheme (scheme rest : string) :
  contains ":" scheme = false ->
  strip_shortest_prefix "://" (scheme ++ "://" ++ rest) = rest.
Proof.
  intros Hs; unfold strip_shortest_prefix; now rewrite after_scheme.
Qed.

Lemma before_first_app (c : ascii) (a b : string) :
  contains c a = false -> before_first c (a ++ String c b) = a.
Proof.
  induction a as [|x a IH]; cbn [append before_first contains].
  - now rewrite Ascii.eqb_refl.
  - intros H; apply orb_false_iff in H; destruct H as [Hx Ha].
    now rewrite Hx, (IH Ha).
Qed.

Lemma before_first_none (c : ascii) (a : string) :
  contains c a = false -> before_first c a = a.
Proof.
  induction a as [|x a IH]; cbn [before_first contains]; [reflexivity|].
  intros H; apply orb_false_iff in H; destruct H as [Hx Ha].
  now rewrite Hx, (IH Ha).
Qed.

Lemma after_last_app (c : ascii) (a b : string) :
  contains c b = false -> after_last c (a ++ String c b) = b.
Proof.
  intros Hb; induction a as [|x a IH]; cbn [append after_last].
  - now rewrite Hb, Ascii.eqb_refl.
  - rewrite contains_append; cbn [contains]; rewrite Ascii.eqb_refl.
    now rewrite orb_true_r.
Qed.

(** ** Fields *)

Lemma fields_app (c : ascii) (a rest : string) :
  contains c a = false -> fields c (a ++ String c rest) = a :: fields c rest.
Proof.
  induction a as [|x a IH]; cbn [append fields contains].
  - now rewrite Ascii.eqb_refl.
  - intros H; apply orb_false_iff in H; destruct H as [Hx Ha].
    now rewrite Hx, (IH Ha).
Qed.

Lemma fields_whole (c : ascii) (a : string) :
  contains c a = false -> fields c a = [a].
Proof.
  induction a as [|x a IH]; cbn [fields contains]; [reflexivity|].
  intros H; apply orb_false_iff in H; destruct H as [Hx Ha].
  now rewrite Hx, (IH Ha).
Qed.

Lemma fields_not_nil (c : ascii) (s : string) : fields c s <> [].
Proof.
  destruct s as [|x s]; cbn [fields]; [discriminate|].
  destruct (Ascii.eqb x c); [discriminate|].
  destruct (fields c s); discriminate.
Qed.

(** Joining the fields with the separator gives the text back. *)
Lemma concat_fields (c : ascii) (s : string) :
  String.concat (String c EmptyString) (fields c s) = s.
Proof.
  induction s as [|x s IH]; cbn [fields]; [reflexivity|].
  pose proof (fields_not_nil c s) as Hne.
  destruct (Ascii.eqb_spec x c) as [->|_];
    destruct (fields c s) as [|f fs]; try contradiction.
  - cbn [String.concat append] in *. now rewrite IH.
  - destruct fs as [|g fs]; cbn [String.concat append] in *; now rewrite IH.
Qed.

Lemma digits_no_dot (s : string) : all_digits s = true -> contains "." s = false.
Proof.
  induction s as [|x s IH]; cbn [all_digits contains]; [reflexivity|].
  intros H; apply andb_true_iff in H; destruct H as [Hx Hs].
  rewrite (IH Hs), orb_false_r.
  destruct (Ascii.eqb_spec x ".") as [->|_]; [discriminate Hx | reflexivity].
Qed.

Lemma octet_no_dot (s : string) : octet_shape s = true -> contains "." s = false.
Proof.
  unfold octet_shape; intros H.
  apply andb_true_iff in H; destruct H as [H _].
  apply andb_true_iff in H; destruct H as [H _].
  now apply digits_no_dot.
Qed.

(** ** Words *)

Lemma no_space_append (a b : string) : no_space (a ++ b) = no_space a && no_space b.
Proof.
  induction a as [|x a IH]; cbn [append no_space]; [reflexivity|].
  now rewrite IH, andb_assoc.
Qed.

Lemma no_space_delete_space (s : string) : no_space (delete_space s) = true.
Proof.
  induction s as [|x s IH]; cbn [delete_space]; [reflexivity|].
  destruct (is_space x) eqn:Hx; [exact IH|].
  cbn [no_space]; now rewrite Hx, IH.
Qed.

End UrlFacts.

(* ================================================================== *)
(** * The discipline of a run *)
(* ================================================================== *)

Module RunFacts.

Import Bash Aws Sh Script Notions TextFacts StepFacts.
Local Open Scope Z_scope.

(** ** The messages *)

Lemma advises_after (pre msg : string) : advises msg -> advises (pre ++ msg).
Proof.
  intros (a & b & ->); exists (pre ++ a)%string, b.
  now rewrite UrlFacts.append_assoc.
Qed.

Lemma advises_text (a t b : string) : advises b -> advises (text [a; t; b]).
Proof.
  intros Hb; change (text [a; t; b]) with (a ++ (t ++ b))%string.
  now do 2 apply advises_after.
Qed.

Lemma advises_region_not_set : advises region_not_set_msg.
Proof. now exists "Region not set. "%string, "region, --url, or set AWS_REGION/AWS_DEFAULT_REGION."%string. Qed.

Lemma advises_no_ip : advises no_ip_msg.
Proof. now exists "Failed to determine IP. "%string, "ip or --cidr."%string. Qed.

Lemma advises_multiple_regions (t : string) : advises (multiple_regions_msg t).
Proof.
  apply advises_text.
  now exists " found in multiple regions. "%string, "region or --sg."%string.
Qed.

Lemma advises_no_sg_for_ip (t : string) : advises (no_sg_for_ip_msg t).
Proof.
  apply advises_text. now exists ". "%string, "sg."%string.
Qed.

Lemma advises_multiple_sg_for_ip (t : string) : advises (multiple_sg_for_ip_msg t).
Proof.
  apply advises_text. now exists ". "%string, "sg."%string.
Qed.

Lemma advises_no_clusters : advises no_clusters_msg.
Proof. now exists "No ECS clusters found. "%string, "cluster or --sg."%string. Qed.

Lemma advises_multiple_clusters : advises multiple_clusters_msg.
Proof. now exists "Multiple ECS clusters found. "%string, "cluster to select one."%string. Qed.

Lemma advises_no_services : advises no_services_msg.
Proof. now exists "No ECS services found. "%string, "service or --sg."%string. Qed.

Lemma advises_multiple_services : advises multiple_services_msg.
Proof. now exists "Multiple ECS services found. "%string, "service to select one."%string. Qed.

Lemma advises_no_sg_on_service : advises no_sg_on_service_msg.
Proof. now exists "No security group found on ECS service. "%string, "sg."%string. Qed.

Lemma advises_multiple_sg : advises multiple_sg_msg.
Proof. now exists "Multiple security groups found. "%string, "sg to select one."%string. Qed.

Lemma advises_no_rules (p : string) : advises (no_rules_msg p).
Proof.
  apply advises_text. now exists " rules found. "%string, "port."%string.
Qed.

Lemma advises_multiple_ports (p : string) : advises (multiple_ports_msg p).
Proof.
  apply advises_text. now exists " ports found. "%string, "port."%string.
Qed.

Create HintDb advice.

#[local] Hint Resolve advises_region_not_set advises_no_ip advises_multiple_regions
  advises_no_sg_for_ip advises_multiple_sg_for_ip advises_no_clusters
  advises_multiple_clusters advises_no_services advises_multiple_services
  advises_no_sg_on_service advises_multiple_sg advises_no_rules
  advises_multiple_ports : advice.

(** ** A discipline that every block before the rule follows *)

Section Discipline.

Variable E : Env.

(** [R s x s']: from [s] the run may come to [s'] and there end as [x]
    says. *)
Variable R : State -> option Z -> State -> Prop.

Hypothesis R_ret : forall s, R s None s.
Hypothesis R_unset : forall s, R s (Some 1) s.
Hypothesis R_seq : forall s s1 s2 x, R s None s1 -> R s1 x s2 -> R s x s2.
Hypothesis R_help : forall s, R s (Some 0) (said_all s usage_lines).
Hypothesis R_unknown : forall s word,
  R s (Some 2) (said_all s (("Unknown arg: " ++ word)%string :: usage_lines)).
Hypothesis R_complain : forall s msg, advises msg -> R s (Some 2) (complained s msg).
Hypothesis R_step : forall s c x,
  (answer_status E (cloud s) c = 0 -> x = None) ->
  (answer_status E (cloud s) c <> 0 -> x = Some (answer_status E (cloud s) c)) ->
  R s x (logged s c).

Definition follows {A} (m : Sh A) : Prop :=
  forall s, R s (ended (fst (m s))) (snd (m s)).

Lemma follows_ret {A} (a : A) : follows (ret a).
Proof. intros s; apply R_ret. Qed.

Lemma follows_bind {A B} (m : Sh A) (f : A -> Sh B) :
  follows m -> (forall a, follows (f a)) -> follows (bind m f).
Proof.
  intros Hm Hf s; unfold bind; specialize (Hm s).
  destruct (m s) as [[a|n] s1]; cbn [fst snd ended] in *; [|exact Hm].
  exact (R_seq _ _ _ _ Hm (Hf a s1)).
Qed.

Lemma follows_complain {A} (msg : string) :
  advises msg -> follows (bind (echo_err msg) (fun _ => @exit A 2)).
Proof. intros Hmsg s; now apply R_complain. Qed.

Lemma piped_step (c : Call) (reply : Reply) (f : string -> string) (s : State) :
  answer_status E (cloud s) c = fst reply ->
  R s (ended (fst (piped c reply f s))) (snd (piped c reply f s)).
Proof.
  intros Hst; unfold piped, bind, log, ret, exit; cbn [fst snd].
  change {| cloud := cloud s; calls := calls s ++ [c];
            stdout := stdout s; stderr := stderr s |} with (logged s c).
  destruct (fst reply =? 0) eqn:Hr; cbn [fst snd ended]; apply R_step;
    rewrite Hst; intros H.
  - reflexivity.
  - apply Z.eqb_eq in Hr; contradiction.
  - apply Z.eqb_neq in Hr; contradiction.
  - reflexivity.
Qed.

Lemma follows_piped (c : Call) (reply : Reply) (f : string -> string) :
  (forall w, answer_status E w c = fst reply) -> follows (piped c reply f).
Proof. intros Hst s; apply piped_step, Hst. Qed.

Lemma follows_aws_query (c : Call) (q : Cloud -> Reply) :
  (forall w, answer_status E w c = fst (if fault E c =? 0 then q w else (fault E c, EmptyString))) ->
  follows (aws_query E c q).
Proof.
  intros Hst s.
  change (aws_query E c q s)
    with (piped c (if fault E c =? 0 then q (cloud s) else (fault E c, EmptyString))
            (fun out => out) s).
  apply piped_step, Hst.
Qed.

Lemma follows_exactly_one (t none_msg many_msg : string) :
  advises none_msg -> advises many_msg -> follows (exactly_one t none_msg many_msg).
Proof.
  intros Hnone Hmany; unfold exactly_one.
  destruct (nothing t); [now apply follows_complain|].
  cbv zeta; destruct (negb _); [now apply follows_complain | apply follows_ret].
Qed.

(** The loop over the flags writes only when it ends the run. *)
Lemma follows_parse_args_bounded (n : nat) :
  forall (args : list string) (v : Vars),
    (List.length args <= n)%nat -> follows (parse_args args v).
Proof.
  induction n as [|n IH]; intros [|flag rest] v Hn; cbn [parse_args];
    try apply follows_ret; cbn [List.length] in Hn; [lia|].
  destruct (flag_setter flag).
  - destruct rest as [|value rest']; [intros s; apply R_unset|].
    apply IH; cbn [List.length] in Hn; lia.
  - destruct (_ || _); intros s; unfold bind, usage, echo, exit.
    + rewrite FlagFacts.echo_all_said; cbn [fst snd ended].
      apply R_help.
    + rewrite FlagFacts.echo_all_said; cbn [fst snd ended].
      replace (said_all _ usage_lines)
        with (said_all s (("Unknown arg: " ++ flag)%string :: usage_lines))
        by (unfold said_all; cbn [cloud calls stdout stderr]; now rewrite <- List.app_assoc).
      apply R_unknown.
Qed.

Ltac status_of_call :=
  intros ?; cbn [answer_status]; try reflexivity;
  destruct (fault E _ =? 0); reflexivity.

Ltac follow :=
  lazymatch goal with
  | |- follows (bind (echo_err _) (fun _ => exit 2)) =>
      apply follows_complain; auto with advice
  | |- follows (bind (exactly_one _ _ _) _) =>
      apply follows_bind; [apply follows_exactly_one; auto with advice | intros ?]
  | |- follows (bind (aws_query _ _ _) _) =>
      apply follows_bind; [apply follows_aws_query; status_of_call | intros ?]
  | |- follows (bind (piped _ _ _) _) =>
      apply follows_bind; [apply follows_piped; status_of_call | intros ?]
  | |- follows (bind (captured _ _) _) =>
      apply follows_bind; [apply follows_piped; status_of_call | intros ?]
  | |- follows (bind _ _) => apply follows_bind; [| intros ?]
  | |- follows (ret _) => apply follows_ret
  | |- follows (if ?b then _ else _) => destruct b
  | |- follows (let _ := _ in _) => cbv zeta
  end.

Lemma follows_url_block (v : Vars) : follows (url_block E v).
Proof. unfold url_block; repeat follow. Qed.

Lemma follows_scan_regions (target : string) (regions : list string) (mr : string) (mc : Z) :
  follows (scan_regions E target regions mr mc).
Proof.
  revert mr mc; induction regions as [|r rest IH]; intros mr mc; cbn [scan_regions].
  - apply follows_ret.
  - follow. destruct (_ && _); apply IH.
Qed.

Lemma follows_infer_region (v : Vars) : follows (infer_region E v).
Proof.
  unfold infer_region. follow; [|follow]. follow. cbv zeta.
  apply follows_bind; [apply follows_scan_regions | intros found].
  repeat follow.
Qed.

Lemma follows_region_block (v : Vars) : follows (region_block E v).
Proof.
  unfold region_block.
  apply follows_bind.
  - destruct (is_empty (region v)); [|apply follows_ret].
    apply follows_bind; [apply follows_infer_region | intros v1].
    unfold region_fallbacks; repeat follow.
  - intros v1; unfold require_region; repeat follow.
Qed.

Lemma follows_cidr_block (v : Vars) : follows (cidr_block E v).
Proof.
  unfold cidr_block. follow; [|follow].
  apply follows_bind; [repeat follow | intros v1; repeat follow].
Qed.

Lemma follows_sg_by_ip_block (v : Vars) : follows (sg_by_ip_block E v).
Proof. unfold sg_by_ip_block; repeat follow. Qed.

Lemma follows_ecs_block (v : Vars) : follows (ecs_block E v).
Proof.
  unfold ecs_block. follow; [|follow].
  apply follows_bind; [unfold pick_cluster; repeat follow | intros v1].
  apply follows_bind; [unfold pick_service; repeat follow | intros v2].
  unfold pick_service_sg; repeat follow.
Qed.

Lemma follows_port_block (v : Vars) : follows (port_block E v).
Proof. unfold port_block; repeat follow. Qed.

(** Lines 41-204. *)
Lemma follows_resolve (args : list string) : follows (resolve E args).
Proof.
  unfold resolve, flags_and_url, resolve_rest.
  apply follows_bind.
  - apply follows_bind;
      [now apply (follows_parse_args_bounded (List.length args)) | apply follows_url_block].
  - intros v.
    apply follows_bind; [apply follows_region_block | intros v1].
    apply follows_bind; [apply follows_cidr_block | intros v2].
    apply follows_bind; [apply follows_sg_by_ip_block | intros v3].
    apply follows_bind; [apply follows_ecs_block | intros v4].
    apply follows_port_block.
Qed.

End Discipline.

End RunFacts.

(* ================================================================== *)
(** * Failing commands and complaints *)
(* ================================================================== *)

Module ExitFacts.

Import Bash Aws Sh Script Notions TextFacts StepFacts.
Local Open Scope Z_scope.

(** ** The run stops at the first command that fails *)

Lemma stops_app (E : Env) (w : Cloud) (t1 t2 : list Call) (x : option Z) :
  forallb (succeeded E w) t1 = true ->
  stops_at_failure E w t2 x -> stops_at_failure E w (t1 ++ t2) x.
Proof.
  intros H1 [[H2 Hx]|(pre & c & -> & Hpre & Hc & ->)].
  - left; split; [now rewrite forallb_app, H1, H2 | exact Hx].
  - right; exists (t1 ++ pre), c; repeat split; auto.
    + now rewrite List.app_assoc.
    + now rewrite forallb_app, H1, Hpre.
Qed.

Lemma stops_going_on (E : Env) (w : Cloud) (t : list Call) :
  stops_at_failure E w t None -> forallb (succeeded E w) t = true.
Proof. intros [[H _]|(pre & c & _ & _ & _ & [=])]; exact H. Qed.

Lemma stopping_own (E : Env) (s : State) (x : option Z) : own x -> stopping E s x s.
Proof.
  intros Hx; split; [reflexivity|].
  exists []; split; [now rewrite List.app_nil_r | left; now split].
Qed.

Lemma stopping_seq (E : Env) (s s1 s2 : State) (x : option Z) :
  stopping E s None s1 -> stopping E s1 x s2 -> stopping E s x s2.
Proof.
  intros (Hc1 & t1 & Ht1 & H1) (Hc2 & t2 & Ht2 & H2).
  split; [congruence|].
  exists (t1 ++ t2); split; [rewrite Ht2, Ht1; now rewrite List.app_assoc|].
  rewrite Hc1 in H2. apply stops_app; [now apply stops_going_on | exact H2].
Qed.

Lemma stopping_usage (E : Env) (s : State) (ls : list string) (n : Z) :
  own (Some n) -> stopping E s (Some n) (said_all s ls).
Proof.
  intros Hn; split; [reflexivity|].
  exists []; split; [cbn; now rewrite List.app_nil_r | left; now split].
Qed.

Lemma stopping_complain (E : Env) (s : State) (msg : string) :
  advises msg -> stopping E s (Some 2) (complained s msg).
Proof.
  intros _; split; [reflexivity|].
  exists []; split; [cbn; now rewrite List.app_nil_r|].
  left; split; [reflexivity | unfold own; auto].
Qed.

Lemma stops_one (E : Env) (w : Cloud) (c : Call) (x : option Z) :
  (answer_status E w c = 0 -> x = None) ->
  (answer_status E w c <> 0 -> x = Some (answer_status E w c)) ->
  stops_at_failure E w [c] x.
Proof.
  intros H0 H1.
  destruct (Z.eq_dec (answer_status E w c) 0) as [Hz|Hz].
  - left; split; [|rewrite (H0 Hz); now left].
    cbn [forallb]; unfold succeeded; rewrite Hz; reflexivity.
  - right; exists [], c; repeat split; auto.
Qed.

Lemma stopping_step (E : Env) (s : State) (c : Call) (x : option Z) :
  (answer_status E (cloud s) c = 0 -> x = None) ->
  (answer_status E (cloud s) c <> 0 -> x = Some (answer_status E (cloud s) c)) ->
  stopping E s x (logged s c).
Proof.
  intros H0 H1; split; [reflexivity|].
  exists [c]; split; [reflexivity | now apply stops_one].
Qed.

(** Lines 41-204 stop at the first command that fails. *)
Lemma resolve_stops (E : Env) (args : list string) (s : State) :
  stopping E s (ended (fst (resolve E args s))) (snd (resolve E args s)).
Proof.
  apply (RunFacts.follows_resolve E (stopping E)).
  - intros s0; apply stopping_own; now left.
  - intros s0; apply stopping_own; unfold own; auto.
  - apply stopping_seq.
  - intros s0; apply stopping_usage; unfold own; auto.
  - intros s0 word; apply stopping_usage; unfold own; auto.
  - apply stopping_complain.
  - apply stopping_step.
Qed.

(** A query, with the status of its call. *)
Lemma aws_query_status (E : Env) (c : Call) (q : Cloud -> Reply) (s : State) :
  let st := fst (if fault E c =? 0 then q (cloud s) else (fault E c, EmptyString)) in
  (st = 0 /\ exists t, aws_query E c q s = (Done t, logged s c))
  \/ (st <> 0 /\ aws_query E c q s = (Exit st, logged s c)).
Proof.
  cbv zeta; unfold aws_query, captured, piped, bind, get_cloud, log, ret, exit.
  cbn [fst snd].
  destruct (fst _ =? 0) eqn:Hst.
  - left; split; [now apply Z.eqb_eq | eexists; reflexivity].
  - right; split; [now apply Z.eqb_neq | reflexivity].
Qed.

(** The mutation, with the status of its call. *)
Lemma aws_authorize_status (E : Env) (v : Vars) (s : State) :
  let m := AuthorizeIngress (region v) (sg_id v) (protocol v) (port v) (cidr v)
             (description v) in
  let st := answer_status E (cloud s) m in
  (st = 0 /\ exists w', aws_authorize E v s = (Done tt, moved (logged s m) w'))
  \/ (st <> 0 /\ aws_authorize E v s = (Exit st, logged s m)).
Proof.
  cbv zeta; cbn [answer_status].
  unfold aws_authorize, bind, log, get_cloud, put_cloud, exit.
  cbn [fst snd cloud calls stdout stderr].
  destruct (fault E _ =? 0) eqn:Hf.
  - destruct (fst (authorize_ingress _ _ _ _ _ _ _) =? 0) eqn:Hst.
    + left; split; [now apply Z.eqb_eq | eexists; reflexivity].
    + right; split; [now apply Z.eqb_neq | reflexivity].
  - right; split; [now apply Z.eqb_neq | reflexivity].
Qed.

(** Lines 206-218 do: the query, then the mutation when the rule is not
    reported; the block leaves with status 0 after the query, goes to its
    end after the mutation, or ends with the status of the call that
    failed. *)
Lemma authorize_block_ends (E : Env) (v : Vars) (s : State) :
  exists t,
    calls (snd (authorize_block E v s)) = calls s ++ t
    /\ ((forallb (succeeded E (cloud s)) t = true
         /\ (ended (fst (authorize_block E v s)) = None
             \/ ended (fst (authorize_block E v s)) = Some 0))
        \/ (exists pre c,
              t = pre ++ [c] /\ forallb (succeeded E (cloud s)) pre = true
              /\ answer_status E (cloud s) c <> 0
              /\ ended (fst (authorize_block E v s)) = Some (answer_status E (cloud s) c))).
Proof.
  set (q := DescribeMatchingCidr (region v) (sg_id v) (protocol v) (port v) (cidr v)).
  set (m := AuthorizeIngress (region v) (sg_id v) (protocol v) (port v) (cidr v)
              (description v)).
  assert (Hq : answer_status E (cloud s) q =
               fst (if fault E q =? 0
                    then describe_matching_cidr (cloud s) (region v) (sg_id v) (protocol v)
                           (port v) (cidr v)
                    else (fault E q, EmptyString)))
    by (unfold q; cbn [answer_status]; fold q; now destruct (fault E q =? 0)).
  unfold authorize_block; fold q.
  destruct (aws_query_status E q
              (fun w => describe_matching_cidr w (region v) (sg_id v) (protocol v)
                          (port v) (cidr v)) s) as [[Hst [t Hrun]]|[Hst Hrun]];
    cbv zeta in Hst, Hrun; rewrite <- Hq in Hst.
  - assert (Hqs : succeeded E (cloud s) q = true) by (unfold succeeded; now rewrite Hst).
    rewrite (bind_done _ _ _ _ _ Hrun).
    destruct (non_empty t && _).
    + exists [q]; split; [reflexivity|].
      left; split; [cbn [forallb]; now rewrite Hqs | now right].
    + destruct (aws_authorize_status E v (logged s q)) as [[Hm [w' Ha]]|[Hm Ha]];
        cbv zeta in Hm, Ha; fold m in Hm, Ha; cbn [cloud logged] in Hm.
      * rewrite (bind_done _ _ _ _ _ Ha).
        exists [q; m]; split; [cbn; now rewrite <- List.app_assoc|].
        left; split; [|now left].
        cbn [forallb]; rewrite Hqs; unfold succeeded; now rewrite Hm.
      * rewrite (bind_exit _ _ _ _ _ Ha).
        exists ([q] ++ [m]); split; [cbn; now rewrite <- List.app_assoc|].
        right; exists [q], m; repeat split; auto.
        cbn [forallb]; now rewrite Hqs.
  - rewrite (bind_exit _ _ _ _ _ Hrun).
    exists [q]; split; [reflexivity|].
    right; exists [], q; repeat split; auto.
    cbn [fst ended]; now rewrite Hq.
Qed.

Lemma authorize_block_stops (E : Env) (v : Vars) (s : State) :
  exists t,
    calls (snd (authorize_block E v s)) = calls s ++ t
    /\ stops_at_failure E (cloud s) t (ended (fst (authorize_block E v s))).
Proof.
  destruct (authorize_block_ends E v s) as (t & Ht & [[Hall Hx]|Hfail]).
  - exists t; split; [exact Ht|]; left; split; [exact Hall|].
    unfold own; destruct Hx as [->| ->]; auto.
  - exists t; split; [exact Ht|]; now right.
Qed.

(** ** The script complains once, and then ends with status 2 *)

Lemma resolve_complains (E : Env) (args : list string) (s : State) :
  complaining s (ended (fst (resolve E args s))) (snd (resolve E args s)).
Proof.
  apply (RunFacts.follows_resolve E complaining).
  - intros s0; now left.
  - intros s0; now left.
  - intros s0 s1 s2 x [H1|[[=] _]] [H2|(Hx & msg & Hmsg & H2)].
    + left; congruence.
    + right; split; [exact Hx|]. exists msg; split; [exact Hmsg | congruence].
  - intros s0; now left.
  - intros s0 word; now left.
  - intros s0 msg Hmsg; right; split; [reflexivity|]. now exists msg.
  - intros s0 c x _ _; now left.
Qed.

Lemma authorize_block_silent (E : Env) (v : Vars) (s : State) :
  stderr (snd (authorize_block E v s)) = stderr s.
Proof.
  unfold authorize_block.
  destruct (aws_query_cases E
              (DescribeMatchingCidr (region v) (sg_id v) (protocol v) (port v) (cidr v))
              (fun w => describe_matching_cidr w (region v) (sg_id v) (protocol v)
                          (port v) (cidr v)) s) as [[t Hq]|[n Hq]].
  - rewrite (bind_done _ _ _ _ _ Hq).
    destruct (non_empty t && _); [reflexivity|].
    set (s1 := logged s _).
    destruct (RuleFacts.aws_authorize_cases E v s1) as [[w' Ha]|[n [Hn Ha]]];
      cbv zeta in Ha.
    + rewrite (bind_done _ _ _ _ _ Ha); reflexivity.
    + rewrite (bind_exit _ _ _ _ _ Ha); reflexivity.
  - rewrite (bind_exit _ _ _ _ _ Hq); reflexivity.
Qed.

(** ** The script reports only when it ends the run *)

(** Lines 41-204 write nothing when they go on. *)
Lemma resolve_wordless (E : Env) (args : list string) (s s1 : State) (v : Vars) :
  resolve E args s = (Done v, s1) -> stdout s1 = stdout s /\ stderr s1 = stderr s.
Proof.
  intros Hres.
  assert (H : wordless s (ended (fst (resolve E args s))) (snd (resolve E args s))).
  { apply (RunFacts.follows_resolve E wordless); unfold wordless.
    - intros s0 _; now split.
    - intros s0 [=].
    - intros s0 s2 s3 x H1 H2 Hx.
      destruct (H1 eq_refl) as [Ho1 He1]; destruct (H2 Hx) as [Ho2 He2].
      split; congruence.
    - intros s0 [=].
    - intros s0 word [=].
    - intros s0 msg _ [=].
    - intros s0 c x _ _ _; now split. }
  rewrite Hres in H; now apply H.
Qed.

(** ** Status 2 comes with a reason *)

Lemma resolve_explained (E : Env) (args : list string) (s : State) :
  explained E s (ended (fst (resolve E args s))) (snd (resolve E args s)).
Proof.
  apply (RunFacts.follows_resolve E (explained E)); unfold explained.
  - intros s0; split; [reflexivity|]; split; [now split|].
    exists []; split; [now rewrite List.app_nil_r | discriminate].
  - intros s0; split; [reflexivity|]; split; [discriminate|].
    exists []; split; [now rewrite List.app_nil_r | discriminate].
  - intros s0 s1 s2 x (Hc1 & Hw1 & t1 & Ht1 & _) (Hc2 & Hw2 & t2 & Ht2 & H2).
    destruct (Hw1 eq_refl) as [Ho1 He1].
    split; [congruence|]; split.
    + intros Hx; destruct (Hw2 Hx) as [Ho2 He2]; split; congruence.
    + exists (t1 ++ t2); split; [rewrite Ht2, Ht1; now rewrite List.app_assoc|].
      intros Hx; destruct (H2 Hx) as [(msg & Hmsg & Hm)|[(word & Hu)|(pre & c & -> & Hst)]].
      * left; exists msg; split; [exact Hmsg | congruence].
      * right; left; exists word; congruence.
      * right; right; exists (t1 ++ pre), c; split; [now rewrite List.app_assoc|].
        now rewrite <- Hc1.
  - intros s0; split; [reflexivity|]; split; [discriminate|].
    exists []; split; [cbn; now rewrite List.app_nil_r | discriminate].
  - intros s0 word; split; [reflexivity|]; split; [discriminate|].
    exists []; split; [cbn; now rewrite List.app_nil_r|].
    intros _; right; left; now exists word.
  - intros s0 msg Hmsg; split; [reflexivity|]; split; [discriminate|].
    exists []; split; [cbn; now rewrite List.app_nil_r|].
    intros _; left; now exists msg.
  - intros s0 c x H0 H1; split; [reflexivity|]; split; [intros _; now split|].
    exists [c]; split; [reflexivity|].
    intros Hx; right; right; exists [], c; split; [reflexivity|].
    destruct (Z.eq_dec (answer_status E (cloud s0) c) 0) as [Hz|Hz].
    + rewrite (H0 Hz) in Hx; discriminate.
    + rewrite (H1 Hz) in Hx; now injection Hx.
Qed.

End ExitFacts.

(* ================================================================== *)
(** * One region for a run *)
(* ================================================================== *)

Module RegionalFacts.

Import Bash Aws Sh Script Notions TextFacts StepFacts ReadFacts.
Local Open Scope Z_scope.

Section Regional.

Variable E : Env.
Variable r0 : string.

Let P : Call -> bool := in_region r0.
Let there (v : Vars) : Prop := region v = r0.

Ltac regional :=
  unfold P, there in *; cbn [in_region];
  first [ reflexivity
        | match goal with H : region _ = r0 |- _ => rewrite H; apply String.eqb_refl end ].

(** The flags, the URL and the region are settled with calls that name
    no region to work in. *)
Lemma quiet_front (args : list string) :
  quiet P (fun _ => True) (flags_and_url E args).
Proof.
  unfold flags_and_url.
  eapply quiet_bind; [apply quiet_parse_args | intros v _].
  now apply quiet_url_block.
Qed.

Lemma quiet_scan (target : string) (regions : list string) (mr : string) (mc : Z) :
  quiet P (fun _ => True) (scan_regions E target regions mr mc).
Proof.
  revert mr mc; induction regions as [|r rest IH]; intros mr mc; cbn [scan_regions].
  - now apply quiet_ret.
  - quiet_step; [reflexivity|].
    destruct (_ && _); apply IH.
Qed.

Lemma quiet_region (v : Vars) :
  quiet P (fun v' => region v' <> EmptyString) (region_block E v).
Proof.
  unfold region_block.
  eapply quiet_bind with (Q := fun _ => True).
  - destruct (is_empty (region v)); [|now apply quiet_ret].
    eapply quiet_bind with (Q := fun _ => True).
    + unfold infer_region.
      quiet_step; [|now apply quiet_ret].
      quiet_step; [reflexivity|].
      cbv zeta.
      eapply quiet_bind; [apply quiet_scan | intros found _].
      repeat (quiet_step; auto).
    + intros v1 _; unfold region_fallbacks; cbv zeta.
      destruct (is_empty (region (if is_empty (region v1)
                                  then set_region v1 (region_of_env E) else v1)));
        [|now apply quiet_ret].
      quiet_step; [reflexivity|]. now apply quiet_ret.
  - intros v1 _; unfold require_region.
    destruct (is_empty (region v1)) eqn:Hr.
    + quiet_step. apply quiet_exit.
    + apply quiet_ret. intros K; rewrite K in Hr; discriminate.
Qed.

(** Once the region is settled, every call that names a region names
    it, and no block assigns the region again. *)
Lemma quiet_cidr (v : Vars) : there v -> quiet P there (cidr_block E v).
Proof.
  intros Hv; unfold cidr_block.
  destruct (is_empty (cidr v)); [|now apply quiet_ret].
  eapply quiet_bind with (Q := there).
  - destruct (is_empty (ip v)); [|now apply quiet_ret].
    quiet_step; [reflexivity|]. now apply quiet_ret.
  - intros v1 Hv1. repeat (quiet_step; auto).
Qed.

Lemma quiet_sg_by_ip (v : Vars) : there v -> quiet P there (sg_by_ip_block E v).
Proof.
  intros Hv; unfold sg_by_ip_block.
  destruct (_ && _); [|now apply quiet_ret].
  quiet_step; [regional|].
  quiet_step. now apply quiet_ret.
Qed.

Lemma quiet_ecs (v : Vars) : there v -> quiet P there (ecs_block E v).
Proof.
  intros Hv; unfold ecs_block.
  destruct (is_empty (sg_id v)); [|now apply quiet_ret].
  eapply quiet_bind with (Q := there).
  { unfold pick_cluster. destruct (is_empty (cluster v)); [|now apply quiet_ret].
    quiet_step; [regional|]. quiet_step. now apply quiet_ret. }
  intros v1 Hv1.
  eapply quiet_bind with (Q := there).
  { unfold pick_service. destruct (is_empty (service v1)); [|now apply quiet_ret].
    quiet_step; [regional|]. quiet_step. now apply quiet_ret. }
  intros v2 Hv2.
  unfold pick_service_sg.
  quiet_step; [regional|]. quiet_step. now apply quiet_ret.
Qed.

Lemma quiet_port (v : Vars) : there v -> quiet P there (port_block E v).
Proof.
  intros Hv; unfold port_block.
  destruct (is_empty (port v)); [|now apply quiet_ret].
  quiet_step; [regional|]. quiet_step. now apply quiet_ret.
Qed.

(** Lines 119-204. *)
Lemma quiet_after_region (v : Vars) :
  there v ->
  quiet P there
    (bind (cidr_block E v) (fun v =>
     bind (sg_by_ip_block E v) (fun v =>
     bind (ecs_block E v) (fun v => port_block E v)))).
Proof.
  intros Hv.
  eapply quiet_bind; [now apply quiet_cidr | intros v2 Hv2].
  eapply quiet_bind; [now apply quiet_sg_by_ip | intros v3 Hv3].
  eapply quiet_bind; [now apply quiet_ecs | intros v4 Hv4].
  now apply quiet_port.
Qed.

End Regional.

End RegionalFacts.

(* ================================================================== *)
(** * What a run leaves behind *)
(* ================================================================== *)

Module OutcomeFacts.

Import Bash Aws Sh Script Notions TextFacts StepFacts.
Local Open Scope Z_scope.

Lemma chomp_something (t : string) : chomp t <> EmptyString -> t <> EmptyString.
Proof. intros H K; apply H; now rewrite K. Qed.

(** An answer that is not empty has a row that is not empty. *)
Lemma text_rows_something (rows : list (list string)) :
  text_rows rows <> EmptyString -> exists row, In row rows /\ row <> [].
Proof.
  unfold text_rows; induction rows as [|row rows IH]; cbn [map filter].
  - intros H; now contradiction H.
  - destruct row as [|x row]; cbn [List.length Nat.eqb negb].
    + intros H; destruct (IH H) as (r & Hin & Hr). exists r; split; [now right | exact Hr].
    + intros _; exists (x :: row); split; [now left | discriminate].
Qed.

(** The query of lines 206-208 answers with something only when the
    group allows the CIDR. *)
Lemma matching_cidr_allows (protocol port cidr : string) (perms : list IpPermission) :
  chomp (text_rows (matching_cidrs protocol port cidr perms)) <> EmptyString ->
  allows perms protocol port cidr.
Proof.
  intros H; apply chomp_something, text_rows_something in H.
  destruct H as (row & Hin & Hrow).
  unfold matching_cidrs in Hin; apply in_map_iff in Hin.
  destruct Hin as (p & <- & Hp); apply filter_In in Hp; destruct Hp as [Hp Hon].
  destruct (filter (has_cidr cidr) (IpRanges p)) as [|r rs] eqn:Hf;
    [now contradiction Hrow|].
  assert (Hr : In r (filter (has_cidr cidr) (IpRanges p))) by (rewrite Hf; now left).
  apply filter_In in Hr; destruct Hr as [Hr Hc].
  unfold on_port in Hon.
  apply andb_true_iff in Hon; destruct Hon as [Hon Hto].
  apply andb_true_iff in Hon; destruct Hon as [Hproto Hfrom].
  apply String.eqb_eq in Hproto, Hfrom, Hto.
  exists p, r; repeat split; auto.
  - rewrite <- Hfrom; apply PortFacts.parse_port_text.
  - apply PortFacts.port_text_inj; congruence.
  - now apply String.eqb_eq.
Qed.

(** After the mutation the group has an entry of the protocol and port
    with the new range. *)
Lemma add_rule_entry (protocol : string) (n : Z) (r : IpRange) (perms : list IpPermission) :
  exists p, In p (add_rule protocol n r perms)
            /\ same_key protocol n p = true /\ In r (IpRanges p).
Proof.
  induction perms as [|p ps IH]; cbn [add_rule].
  - eexists; split; [now left|]; split; [|now left].
    unfold same_key; cbn [IpProtocol FromPort ToPort].
    now rewrite String.eqb_refl, Z.eqb_refl.
  - destruct (same_key protocol n p) eqn:Hk.
    + eexists; split; [now left|]; split.
      * exact Hk.
      * cbn [IpRanges]; apply in_or_app; right; now left.
    + destruct IH as (p' & Hin & Hk' & Hr).
      exists p'; split; [now right | now split].
Qed.

Lemma same_key_fields (protocol : string) (n : Z) (p : IpPermission) :
  same_key protocol n p = true ->
  IpProtocol p = protocol /\ FromPort p = n /\ ToPort p = n.
Proof.
  unfold same_key; intros H.
  apply andb_true_iff in H; destruct H as [H Hto].
  apply andb_true_iff in H; destruct H as [Hproto Hfrom].
  apply String.eqb_eq in Hproto; apply Z.eqb_eq in Hfrom, Hto; auto.
Qed.

(** The mutation goes through only for a group the provider knows and a
    port that is a number, and then the group has the new rule. *)
Lemma aws_authorize_done (E : Env) (v : Vars) (s : State) :
  fst (aws_authorize E v s) = Done tt ->
  exists perms n,
    SecurityGroups (cloud s) (region v) (sg_id v) = Some perms
    /\ parse_port (port v) = Some n
    /\ SecurityGroups (cloud (snd (aws_authorize E v s))) (region v) (sg_id v) =
       Some (add_rule (protocol v) n
               {| CidrIp := cidr v; Description := description v |} perms).
Proof.
  unfold aws_authorize, bind, log, get_cloud, put_cloud, exit.
  cbn [fst snd cloud calls stdout stderr].
  destruct (fault E _ =? 0); [|discriminate].
  unfold authorize_ingress; cbn [cloud].
  destruct (SecurityGroups (cloud s) (region v) (sg_id v)) as [perms|];
    [|cbn; discriminate].
  destruct (parse_port (port v)) as [n|]; [|cbn; discriminate].
  destruct (rule_present _ _ _ _); [cbn; discriminate|].
  cbn [fst snd Z.eqb cloud]; intros _.
  exists perms, n; repeat split. apply RuleFacts.set_group_lookup.
Qed.

Lemma echo_cloud (l : string) (s : State) : cloud (snd (echo l s)) = cloud s.
Proof. reflexivity. Qed.

(** Lines 206-218 end with status 0 only when the group allows the
    CIDR afterwards. *)
Lemma authorize_block_success (E : Env) (v : Vars) (s : State) :
  status_of (authorize_block E v s) = 0 ->
  exists perms,
    SecurityGroups (cloud (snd (authorize_block E v s))) (region v) (sg_id v) = Some perms
    /\ allows perms (protocol v) (port v) (cidr v).
Proof.
  unfold authorize_block.
  set (q := DescribeMatchingCidr (region v) (sg_id v) (protocol v) (port v) (cidr v)).
  destruct (Z.eq_dec (fault E q) 0) as [Hf|Hf].
  2:{ rewrite (bind_exit _ _ _ _ _ (aws_query_failed E q _ s Hf)).
      unfold status_of; cbn [fst]; intros K; contradiction. }
  destruct (SecurityGroups (cloud s) (region v) (sg_id v)) as [perms|] eqn:Hg.
  2:{ assert (Hrun : aws_query E q
                       (fun w => describe_matching_cidr w (region v) (sg_id v) (protocol v)
                                   (port v) (cidr v)) s = (Exit client_error, logged s q)).
      { unfold aws_query, captured, piped, bind, get_cloud, log.
        cbn [cloud fst snd]; rewrite Hf; unfold describe_matching_cidr; rewrite Hg.
        reflexivity. }
      rewrite (bind_exit _ _ _ _ _ Hrun). discriminate. }
  erewrite bind_done;
    [|apply aws_query_ok; [exact Hf | unfold describe_matching_cidr; now rewrite Hg]].
  destruct (non_empty _ && _) eqn:Hfound.
  - intros _; cbn [snd cloud].
    exists perms; split; [exact Hg|].
    apply andb_true_iff in Hfound; destruct Hfound as [Hne _].
    apply matching_cidr_allows; now apply non_empty_true.
  - pose proof (aws_authorize_done E v (logged s q)) as Hdone.
    destruct (RuleFacts.aws_authorize_cases E v (logged s q)) as [[w' Ha]|[n [Hn Ha]]];
      cbv zeta in Ha.
    + rewrite (bind_done _ _ _ _ _ Ha); intros _.
      rewrite Ha in Hdone; destruct (Hdone eq_refl) as (perms' & n & Hg' & Hport & Hnew).
      cbn [cloud logged] in Hg'; rewrite Hg in Hg'; injection Hg' as <-.
      rewrite echo_cloud.
      eexists; split; [exact Hnew|].
      destruct (add_rule_entry (protocol v) n
                  {| CidrIp := cidr v; Description := description v |} perms)
        as (p & Hin & Hk & Hr).
      apply same_key_fields in Hk; destruct Hk as (Hproto & Hfrom & Hto).
      exists p; eexists; repeat split; eauto; congruence.
    + rewrite (bind_exit _ _ _ _ _ Ha).
      unfold status_of; cbn [fst]; intros K; contradiction.
Qed.

(** The three ways through lines 206-218, with what each leaves on
    standard output and in the provider's state. *)
Lemma authorize_block_report (E : Env) (v : Vars) (s : State) :
  let r := authorize_block E v s in
  let q := DescribeMatchingCidr (region v) (sg_id v) (protocol v) (port v) (cidr v) in
  let m := AuthorizeIngress (region v) (sg_id v) (protocol v) (port v) (cidr v)
             (description v) in
  stderr (snd r) = stderr s
  /\ ((fst r = Exit 0
       /\ stdout (snd r) = stdout s ++ [already_allowed_msg v]
       /\ calls (snd r) = calls s ++ [q]
       /\ cloud (snd r) = cloud s)
      \/ (fst r = Done tt
          /\ stdout (snd r) = stdout s ++ [added_msg v]
          /\ calls (snd r) = calls s ++ [q; m]
          /\ exists perms p,
               SecurityGroups (cloud (snd r)) (region v) (sg_id v) = Some perms
               /\ In p perms
               /\ In {| CidrIp := cidr v; Description := description v |} (IpRanges p))
      \/ (status_of r <> 0
          /\ stdout (snd r) = stdout s
          /\ cloud (snd r) = cloud s)).
Proof.
  cbv zeta; split; [apply ExitFacts.authorize_block_silent|].
  unfold authorize_block.
  set (q := DescribeMatchingCidr (region v) (sg_id v) (protocol v) (port v) (cidr v)).
  destruct (ExitFacts.aws_query_status E q
              (fun w => describe_matching_cidr w (region v) (sg_id v) (protocol v)
                          (port v) (cidr v)) s) as [[_ [t Hrun]]|[Hst Hrun]];
    cbv zeta in *.
  - rewrite (bind_done _ _ _ _ _ Hrun).
    destruct (non_empty t && _); [left; repeat split|].
    pose proof (aws_authorize_done E v (logged s q)) as Hdone.
    destruct (RuleFacts.aws_authorize_cases E v (logged s q)) as [[w' Ha]|[n [Hn Ha]]];
      cbv zeta in Ha.
    + rewrite (bind_done _ _ _ _ _ Ha).
      rewrite Ha in Hdone; destruct (Hdone eq_refl) as (perms & n & _ & _ & Hnew).
      right; left; repeat split.
      * cbn; now rewrite <- List.app_assoc.
      * destruct (add_rule_entry (protocol v) n
                    {| CidrIp := cidr v; Description := description v |} perms)
          as (p & Hin & _ & Hr).
        eexists; exists p; split; [exact Hnew | now split].
    + rewrite (bind_exit _ _ _ _ _ Ha).
      right; right; repeat split. exact Hn.
  - rewrite (bind_exit _ _ _ _ _ Hrun).
    right; right; repeat split. exact Hst.
Qed.

End OutcomeFacts.

(* ================================================================== *)
(** * The strategy update *)
(* ================================================================== *)

Module StrategyFacts.

Import Js Strategy Notions StrategyNotions.

(** ** The arguments *)

Lemma property_assigns (flag' flag : string) (x : option string)
  (set : Args -> option string -> Args) (get : Args -> option string) (out : Args) :
  flag_property flag' = Some set -> property_of flag = Some get ->
  get (set out x) = if String.eqb flag' flag then x else get out.
Proof.
  intros Hset Hvar; unfold flag_property in Hset; unfold property_of in Hvar.
  repeat match type of Hset with
         | (if String.eqb flag' ?k then _ else _) = _ =>
             destruct (String.eqb_spec flag' k) as [->|_]
         end;
    try discriminate Hset; injection Hset as <-;
    repeat match type of Hvar with
           | (if String.eqb flag ?k then _ else _) = _ =>
               destruct (String.eqb_spec flag k) as [->|_]
           end;
    try discriminate Hvar; injection Hvar as <-; reflexivity.
Qed.

(** The loop over flags with their values. *)
Lemma parseArgs_words (ps : list (string * string)) :
  forallb (fun p => takes_value (fst p)) ps = true ->
  forall out,
  exists a,
    parseArgs (words ps) out = Goes a
    /\ (forall flag get, property_of flag = Some get ->
          get a = match last_value flag ps with Some x => Some x | None => get out end).
Proof.
  induction ps as [|[flag' value] ps IH]; intros Hk out.
  - exists out; split; [reflexivity|]; intros; reflexivity.
  - cbn [forallb fst] in Hk; apply andb_true_iff in Hk; destruct Hk as [Hflag Hk].
    unfold takes_value in Hflag.
    destruct (flag_property flag') as [set|] eqn:Hset; [|discriminate].
    destruct (IH Hk (set out (Some value))) as (a & Hrun & Hget).
    exists a; split.
    + cbn [words flat_map fst snd app parseArgs]; rewrite Hset; exact Hrun.
    + intros flag get Hvar; rewrite (Hget flag get Hvar).
      cbn [last_value fst snd].
      destruct (last_value flag ps); [reflexivity|].
      rewrite (property_assigns flag' flag (Some value) set get out Hset Hvar).
      now destruct (String.eqb flag' flag).
Qed.

(** When the loop comes to its end, the words were flags with their
    values, or the last word was a flag, whose property is then
    [undefined]. *)
Lemma parseArgs_goes (n : nat) :
  forall (argv : list string) (out a : Args),
    (List.length argv <= n)%nat ->
    parseArgs argv out = Goes a ->
    (exists ps,
       argv = words ps
       /\ forallb (fun p => takes_value (fst p)) ps = true
       /\ forall flag get, property_of flag = Some get ->
            get a = match last_value flag ps with Some x => Some x | None => get out end)
    \/ (exists get, In get [name; file; host; key] /\ get a = None).
Proof.
  induction n as [|n IH]; intros [|arg rest] out a Hn; cbn [parseArgs List.length] in *;
    try lia.
  - intros [= <-]; left; exists []; repeat split; intros; reflexivity.
  - intros [= <-]; left; exists []; repeat split; intros; reflexivity.
  - destruct (flag_property arg) as [set|] eqn:Hset.
    + destruct rest as [|value rest'].
      * intros [= <-]; right.
        unfold flag_property in Hset.
        repeat match type of Hset with
               | (if String.eqb arg ?k then _ else _) = _ =>
                   destruct (String.eqb arg k)
               end; try discriminate Hset; injection Hset as <-;
          first [ exists name; split; [cbn; auto | reflexivity]
                | exists file; split; [cbn; auto | reflexivity]
                | exists host; split; [cbn; auto | reflexivity]
                | exists key; split; [cbn; auto | reflexivity] ].
      * intros Hrun.
        destruct (IH rest' (set out (Some value)) a ltac:(cbn [List.length] in Hn; lia) Hrun)
          as [(ps & -> & Hk & Hget)|Hnone]; [left|right; exact Hnone].
        exists ((arg, value) :: ps); split; [reflexivity|]; split.
        -- cbn [forallb fst]; unfold takes_value at 1; now rewrite Hset, Hk.
        -- intros flag get Hvar; rewrite (Hget flag get Hvar).
           cbn [last_value fst snd].
           destruct (last_value flag ps); [reflexivity|].
           rewrite (property_assigns arg flag (Some value) set get out Hset Hvar).
           now destruct (String.eqb arg flag).
    + destruct (_ || _); discriminate.
Qed.

(** The loop over flags with their values goes on with the words after
    them. *)
Lemma parseArgs_after (ps : list (string * string)) :
  forallb (fun p => takes_value (fst p)) ps = true ->
  forall (out : Args) (tail : list string),
  exists a,
    parseArgs (words ps ++ tail) out = parseArgs tail a
    /\ (forall flag get, property_of flag = Some get ->
          get a = match last_value flag ps with Some x => Some x | None => get out end).
Proof.
  induction ps as [|[flag' value] ps IH]; intros Hk out tail.
  - exists out; split; [reflexivity|]; intros; reflexivity.
  - cbn [forallb fst] in Hk; apply andb_true_iff in Hk; destruct Hk as [Hflag Hk].
    unfold takes_value in Hflag.
    destruct (flag_property flag') as [set|] eqn:Hset; [|discriminate].
    destruct (IH Hk (set out (Some value)) tail) as (a & Hrun & Hget).
    exists a; split.
    + cbn [words flat_map fst snd app parseArgs]; rewrite Hset; exact Hrun.
    + intros flag get Hvar; rewrite (Hget flag get Hvar).
      cbn [last_value fst snd].
      destruct (last_value flag ps); [reflexivity|].
      rewrite (property_assigns flag' flag (Some value) set get out Hset Hvar).
      now destruct (String.eqb flag' flag).
Qed.

(** A flag that comes last leaves its property [undefined]. *)
Lemma flag_property_undefined (flag : string) (set : Args -> option string -> Args)
  (out : Args) :
  flag_property flag = Some set ->
  given (name (set out None)) && given (file (set out None))
  && given (host (set out None)) && given (key (set out None)) = false.
Proof.
  unfold flag_property.
  repeat match goal with
         | |- (if String.eqb flag ?k then _ else _) = _ -> _ => destruct (String.eqb flag k)
         end; try discriminate; intros [= <-]; cbn [name file host key set_name set_file
                                                     set_host set_key given andb];
    rewrite ?andb_false_r; reflexivity.
Qed.

(** Every command line is flags with their values, and then nothing more,
    a flag alone, or a word that is no flag. *)
Lemma words_shape (n : nat) :
  forall argv : list string,
    (List.length argv <= n)%nat ->
    exists ps tail,
      argv = words ps ++ tail
      /\ forallb (fun p => takes_value (fst p)) ps = true
      /\ (tail = []
          \/ (exists flag, tail = [flag] /\ takes_value flag = true)
          \/ (exists w rest, tail = w :: rest /\ takes_value w = false)).
Proof.
  induction n as [|n IH]; intros [|arg rest] Hn; cbn [List.length] in Hn; try lia.
  1,2: exists [], []; repeat split; now left.
  destruct (takes_value arg) eqn:Harg.
  - destruct rest as [|value rest'].
    + exists [], [arg]; repeat split; right; left; now exists arg.
    + destruct (IH rest' ltac:(cbn [List.length] in Hn; lia)) as (ps & tail & -> & Hk & Hshape).
      exists ((arg, value) :: ps), tail; split; [reflexivity|]; split; [|exact Hshape].
      cbn [forallb fst]; now rewrite Harg, Hk.
  - exists [], (arg :: rest); repeat split; right; right; now exists arg, rest.
Qed.

Lemma given_value (x : option string) :
  given x = true <-> exists s, x = Some s /\ s <> EmptyString.
Proof.
  split.
  - destruct x as [[|c s]|]; try discriminate; intros _.
    eexists; split; [reflexivity | discriminate].
  - intros (s & -> & Hs); destruct s; [now contradiction Hs | reflexivity].
Qed.

(** ** The command *)

Lemma indexOf_found (s : string) (l : list Json) (i : nat) :
  indexOf s l = Some i ->
  (i < List.length l)%nat /\ nth_error l i = Some (JStr s).
Proof.
  revert i; induction l as [|x l IH]; intros i; cbn [indexOf]; [discriminate|].
  destruct (is_string s x) eqn:Hx.
  - intros [= <-]; split; [cbn; lia|].
    destruct x; try discriminate Hx; cbn in Hx.
    apply String.eqb_eq in Hx; now subst.
  - destruct (indexOf s l) as [j|]; [|discriminate].
    intros [= <-]; destruct (IH j eq_refl) as [Hlt Hnth].
    split; [cbn; lia | exact Hnth].
Qed.

Lemma store_length (i : nat) (x : Json) (l : list Json) :
  List.length (store i x l) = List.length l.
Proof.
  revert i; induction l as [|y l IH]; intros [|i]; cbn [store List.length]; auto.
Qed.

Lemma store_same (i : nat) (x : Json) (l : list Json) :
  (i < List.length l)%nat -> nth_error (store i x l) i = Some x.
Proof.
  revert i; induction l as [|y l IH]; intros [|i]; cbn [store List.length nth_error];
    try lia; [reflexivity|].
  intros H; apply IH; lia.
Qed.

Lemma store_other (i j : nat) (x : Json) (l : list Json) :
  j <> i -> nth_error (store i x l) j = nth_error l j.
Proof.
  revert i j; induction l as [|y l IH]; intros [|i] [|j] H; cbn [store nth_error];
    try reflexivity; try contradiction.
  apply IH; lia.
Qed.

Lemma store_store (i : nat) (x y : Json) (l : list Json) :
  store i y (store i x l) = store i y l.
Proof.
  revert i; induction l as [|z l IH]; intros [|i]; cbn [store]; try reflexivity.
  now rewrite IH.
Qed.

(** A store after the first occurrence leaves the first occurrence
    where it is. *)
Lemma indexOf_store (s : string) (l : list Json) (i k : nat) (x : Json) :
  indexOf s l = Some i -> (i < k)%nat -> indexOf s (store k x l) = Some i.
Proof.
  revert i k; induction l as [|y l IH]; intros i k; cbn [indexOf]; [discriminate|].
  destruct (is_string s y) eqn:Hy.
  - intros [= <-] Hk; destruct k as [|k]; [lia|].
    cbn [store indexOf]; now rewrite Hy.
  - destruct (indexOf s l) as [j|] eqn:Hj; [|discriminate].
    intros [= <-] Hk; destruct k as [|k]; [lia|].
    cbn [store indexOf]; rewrite Hy.
    rewrite (IH j k eq_refl); [reflexivity | lia].
Qed.

Lemma update_command_again (cmd cmd' : list Json) (a b : string) :
  update_command cmd a = Some cmd' ->
  update_command cmd' b = update_command cmd b.
Proof.
  unfold update_command.
  destruct (indexOf "--strategy" cmd) as [idx|] eqn:Hidx; [|discriminate].
  destruct (Nat.eqb idx (List.length cmd - 1)) eqn:Hlast; [discriminate|].
  intros [= <-].
  rewrite (indexOf_store _ _ idx (idx + 1) _ Hidx) by lia.
  now rewrite store_length, Hlast, store_store.
Qed.

(** ** The task definition *)

Lemma lookup_assign (k : string) (x : Json) (props : list (string * Json)) :
  lookup k (assign k x props) = Some x.
Proof.
  induction props as [|[k' y] props IH]; cbn [assign lookup].
  - now rewrite String.eqb_refl.
  - destruct (String.eqb k' k) eqn:Hk; cbn [lookup]; now rewrite Hk.
Qed.

Lemma lookup_assign_other (k k0 : string) (x : Json) (props : list (string * Json)) :
  k0 <> k -> lookup k0 (assign k x props) = lookup k0 props.
Proof.
  intros Hne; induction props as [|[k' y] props IH]; cbn [assign lookup].
  - destruct (String.eqb_spec k k0); [now subst | reflexivity].
  - destruct (String.eqb_spec k' k) as [->|Hk]; cbn [lookup].
    + destruct (String.eqb_spec k k0); [now subst | reflexivity].
    + now rewrite IH.
Qed.

Lemma assign_assign (k : string) (x y : Json) (props : list (string * Json)) :
  assign k y (assign k x props) = assign k y props.
Proof.
  induction props as [|[k' z] props IH]; cbn [assign].
  - now rewrite String.eqb_refl.
  - destruct (String.eqb k' k) eqn:Hk; cbn [assign]; rewrite Hk; [reflexivity|].
    now rewrite IH.
Qed.

(** What a task definition is made of when the script rewrites it. *)
Lemma update_taskdef_goes (taskdef taskdef' : Json) (strategy : string) :
  update_taskdef taskdef strategy = Goes taskdef' ->
  exists props d cprops command cmd,
    taskdef = JObj props
    /\ lookup "containerDefinitions" props = Some d
    /\ item0 d = Some (JObj cprops)
    /\ ((exists dprops, d = JObj dprops)
        \/ exists rest, d = JArr (JObj cprops :: rest))
    /\ lookup "command" cprops = Some (JArr command)
    /\ update_command command strategy = Some cmd
    /\ taskdef' = JObj (assign "containerDefinitions"
                          (put_item0 d (JObj (assign "command" (JArr cmd) cprops)))
                          props).
Proof.
  unfold update_taskdef.
  destruct taskdef as [| | | | |props]; try discriminate; cbn [get].
  destruct (lookup "containerDefinitions" props) as [d|] eqn:Hd;
    [|cbn [truthy]; discriminate].
  destruct (truthy (Some d)) eqn:Htd.
  2:{ rewrite Htd; cbn [negb orb]; discriminate. }
  destruct (item0 d) as [c|] eqn:Hc; [|discriminate].
  destruct (negb (truthy (Some c)) || negb (isArray (get c "command"))) eqn:Hok;
    [discriminate|].
  destruct (get c "command") as [[| | | |command|]|] eqn:Hcmd; try discriminate.
  destruct (update_command command strategy) as [cmd|] eqn:Hup; [|discriminate].
  intros [= <-].
  destruct c as [| | | | |cprops]; try discriminate Hcmd; cbn [get] in Hcmd.
  exists props, d, cprops, command, cmd; repeat split; auto.
  destruct d as [| | |s|items|dprops]; try discriminate Hc.
  - destruct s; discriminate Hc.
  - right; destruct items as [|c0 rest]; [discriminate Hc|].
    injection Hc as ->; now exists rest.
  - left; now exists dprops.
Qed.

End StrategyFacts.

Import Bash Aws Sh Script TextFacts StepFacts.
Local Open Scope Z_scope.

(* ================================================================== *)
(** * The properties of the specification *)
(* ================================================================== *)

(** C1. For a resolved security group, protocol, port and CIDR, with
    calls that get through: when the group has a rule for that protocol,
    port and CIDR, the run makes the one query, says that the CIDR is
    already allowed and ends with status 0, the provider's state untouched;
    and when the group has the rule at most once, a first run ends with
    status 0, after it the group has the rule exactly once, and a second
    run is that no-op. *)
Theorem rule_authorizer_idempotent
  (E : Env) (v : Vars) (w : Cloud) (n : Z) (perms : list IpPermission) :
  port v = port_text n ->
  is_id (cidr v) = true ->
  SecurityGroups w (region v) (sg_id v) = Some perms ->
  fault E (DescribeMatchingCidr (region v) (sg_id v) (protocol v) (port v) (cidr v)) = 0 ->
  fault E (AuthorizeIngress (region v) (sg_id v) (protocol v) (port v) (cidr v)
             (description v)) = 0 ->
  ((1 <= rule_count (protocol v) n (cidr v) perms)%nat ->
   authorize_block E v (start w) =
   (Exit 0,
    said (logged (start w)
            (DescribeMatchingCidr (region v) (sg_id v) (protocol v) (port v) (cidr v)))
      (already_allowed_msg v)))
  /\ ((rule_count (protocol v) n (cidr v) perms <= 1)%nat ->
      exists w1 perms1,
        status_of (authorize_block E v (start w)) = 0
        /\ cloud (snd (authorize_block E v (start w))) = w1
        /\ SecurityGroups w1 (region v) (sg_id v) = Some perms1
        /\ rule_count (protocol v) n (cidr v) perms1 = 1%nat
        /\ authorize_block E v (start w1) =
           (Exit 0,
            said (logged (start w1)
                    (DescribeMatchingCidr (region v) (sg_id v) (protocol v) (port v)
                       (cidr v)))
              (already_allowed_msg v))).
Proof.
  intros Hport Hcidr Hgroup Hq Hm; split.
  - intros Hcount.
    now apply (RuleFacts.authorize_block_present E v n Hport Hcidr Hq (start w) perms).
  - intros Hcount.
    destruct (rule_count (protocol v) n (cidr v) perms) as [|[|k]] eqn:Hk; [| |lia].
    + (* the first run adds the rule *)
      pose proof (RuleFacts.authorize_block_absent E v n Hport Hcidr Hq (start w) perms
                    Hgroup Hk Hm) as Hfirst.
      cbn [start cloud] in Hfirst.
      eexists; eexists; rewrite Hfirst; cbn [status_of fst snd said moved cloud].
      split; [reflexivity|]. split; [reflexivity|].
      split; [apply RuleFacts.set_group_lookup|].
      split; [rewrite RuleFacts.rule_count_add, Hk; reflexivity|].
      apply (RuleFacts.authorize_block_present E v n Hport Hcidr Hq (start _) _
               (RuleFacts.set_group_lookup _ _ _ _)).
      rewrite RuleFacts.rule_count_add; lia.
    + (* the rule is there from the start *)
      assert (Hone : (1 <= rule_count (protocol v) n (cidr v) perms)%nat) by lia.
      pose proof (RuleFacts.authorize_block_present E v n Hport Hcidr Hq (start w) perms
                    Hgroup Hone) as Hfirst.
      exists w, perms; rewrite Hfirst; cbn [status_of fst snd said logged cloud start].
      repeat split; assumption.
Qed.

(** C1 on the sample deployment: the group allows the office only, the
    first run adds the caller, the second finds it. *)
Lemma rule_authorizer_witness :
  authorize_block Sample.laptop Sample.resolved (start Sample.deployment)
  = (Done tt,
     said (moved (logged_all (start Sample.deployment)
                    [DescribeMatchingCidr "ap-southeast-5" "sg-0123456789abcdef0" "tcp"
                       "8080" "203.0.113.10/32";
                     AuthorizeIngress "ap-southeast-5" "sg-0123456789abcdef0" "tcp"
                       "8080" "203.0.113.10/32" "codex-whitelist"])
             (cloud (snd (authorize_block Sample.laptop Sample.resolved
                            (start Sample.deployment)))))
       "Added 203.0.113.10/32 to sg-0123456789abcdef0 on tcp/8080 (region ap-southeast-5).")
  /\ exists w1 perms1,
       status_of (authorize_block Sample.laptop Sample.resolved (start Sample.deployment)) = 0
       /\ cloud (snd (authorize_block Sample.laptop Sample.resolved
                        (start Sample.deployment))) = w1
       /\ SecurityGroups w1 "ap-southeast-5" "sg-0123456789abcdef0" = Some perms1
       /\ rule_count "tcp" 8080 "203.0.113.10/32" perms1 = 1%nat
       /\ authorize_block Sample.laptop Sample.resolved (start w1) =
          (Exit 0,
           said (logged (start w1)
                   (DescribeMatchingCidr "ap-southeast-5" "sg-0123456789abcdef0" "tcp"
                      "8080" "203.0.113.10/32"))
             "203.0.113.10/32 already allowed on tcp/8080 in sg-0123456789abcdef0.").
Proof.
  split; [reflexivity|].
  apply (proj2 (rule_authorizer_idempotent Sample.laptop Sample.resolved Sample.deployment
                  8080 Sample.web eq_refl eq_refl eq_refl eq_refl eq_refl)).
  cbn; lia.
Defined.

(** C2. The CIDR block leaves a given CIDR as it is; without one it
    appends [/32] to a given address; with neither it asks the echo
    service.  When [curl] leaves status 0, the address is the answer less
    its white space and [/32] is appended to it, and an answer with
    nothing in it ends the run with status 2 and the message of line 124.
    When [curl] leaves another status, the run ends at line 121 with that
    status and nothing written: the check of lines 123-126, which would
    tell the caller to use [--ip] or [--cidr], is not reached.  Whenever
    the block goes on, the CIDR is not empty. *)
Theorem cidr_block_outcomes (E : Env) (v : Vars) (s : State) :
  (cidr v <> EmptyString -> cidr_block E v s = (Done v, s))
  /\ (cidr v = EmptyString -> ip v <> EmptyString ->
      cidr_block E v s = (Done (set_cidr v (String.append (ip v) "/32")), s))
  /\ (cidr v = EmptyString -> ip v = EmptyString ->
      if fst (curl_checkip E) =? 0 then
        if non_empty (delete_space (snd (curl_checkip E))) then
          cidr_block E v s =
          (Done (set_cidr (set_ip v (delete_space (snd (curl_checkip E))))
                          (String.append (delete_space (snd (curl_checkip E))) "/32")),
           logged s CheckIp)
        else cidr_block E v s = (Exit 2, complained (logged s CheckIp) no_ip_msg)
      else cidr_block E v s = (Exit (fst (curl_checkip E)), logged s CheckIp))
  /\ (forall v' s', cidr_block E v s = (Done v', s') -> cidr v' <> EmptyString).
Proof.
  unfold cidr_block; split; [|split; [|split]].
  - intros Hc; apply non_empty_true in Hc; unfold non_empty in Hc.
    apply negb_true_iff in Hc; now rewrite Hc.
  - intros -> Hi; cbn [is_empty].
    apply non_empty_true in Hi; unfold non_empty in Hi; apply negb_true_iff in Hi.
    rewrite Hi; unfold bind, ret; rewrite Hi; reflexivity.
  - intros -> ->; cbn [is_empty].
    destruct (curl_checkip E) as [st out]; cbn [fst snd].
    destruct (st =? 0) eqn:Hst.
    + apply Z.eqb_eq in Hst; subst st; change (0, out) with (ok out).
      rewrite (bind_done _ _ _ _ _ (bind_done _ _ _ _ _ (TargetFacts.piped_ok _ _ _ _))).
      rewrite TextFacts.chomp_delete_space; cbn [ip set_ip]; unfold non_empty.
      destruct (delete_space out); reflexivity.
    + apply Z.eqb_neq in Hst.
      apply bind_exit, bind_exit; now apply piped_failed.
  - intros v' s'.
    destruct (is_empty (cidr v)) eqn:Hc.
    + assert (Hgo : forall v1 s1,
                 (if is_empty (ip v1) then echo_err no_ip_msg ;;; exit 2
                  else ret (set_cidr v1 (text [ip v1; "/32"])))%sh s1 = (Done v', s') ->
                 cidr v' <> EmptyString).
      { intros v1 s1. destruct (ip v1) eqn:Hi; cbn [is_empty]; [discriminate|].
        intros [= <- _]; cbn [cidr set_cidr text String.concat]; discriminate. }
      unfold bind at 1.
      destruct (is_empty (ip v)).
      * unfold bind at 1, piped at 1, bind at 1, log.
        destruct (fst (curl_checkip E) =? 0); [|discriminate].
        apply Hgo.
      * apply Hgo.
    + intros [= <- _] K; rewrite K in Hc; discriminate.
Qed.

(** C2 on the sample callers.  The caller who cannot reach the echo
    service gives neither [--cidr] nor [--ip]: the run ends with the
    status 7 of [curl] and nothing on standard error, not with status 2
    and the message.  The others: [--cidr], [--ip], and detection with an
    answer and with an empty one. *)
Lemma cidr_block_outcomes_witness :
  cidr_block Sample.cut_off Sample.by_port (start Sample.deployment)
  = (Exit 7, logged (start Sample.deployment) CheckIp)
  /\ cidr_block Sample.laptop Sample.by_cidr (start Sample.deployment)
     = (Done Sample.by_cidr, start Sample.deployment)
  /\ cidr_block Sample.laptop Sample.by_ip (start Sample.deployment)
     = (Done (set_cidr Sample.by_ip "198.51.100.20/32"), start Sample.deployment)
  /\ cidr_block Sample.laptop initial (start Sample.deployment)
     = (Done (set_cidr (set_ip initial "203.0.113.10") "203.0.113.10/32"),
        logged (start Sample.deployment) CheckIp)
  /\ cidr_block Sample.offline initial (start Sample.deployment)
     = (Exit 2, complained (logged (start Sample.deployment) CheckIp) no_ip_msg).
Proof.
  split; [|split; [|split; [|split]]].
  - exact (proj1 (proj2 (proj2 (cidr_block_outcomes Sample.cut_off Sample.by_port
             (start Sample.deployment)))) eq_refl eq_refl).
  - apply (proj1 (cidr_block_outcomes Sample.laptop Sample.by_cidr
                    (start Sample.deployment))).
    discriminate.
  - apply (proj1 (proj2 (cidr_block_outcomes Sample.laptop Sample.by_ip
                           (start Sample.deployment))));
      [reflexivity | discriminate].
  - exact (proj1 (proj2 (proj2 (cidr_block_outcomes Sample.laptop initial
             (start Sample.deployment)))) eq_refl eq_refl).
  - exact (proj1 (proj2 (proj2 (cidr_block_outcomes Sample.offline initial
             (start Sample.deployment)))) eq_refl eq_refl).
Defined.

(** C3, as the claim has it, fails: with [--target-ip 10.0.0.1] and the
    URL of the example, the host of the URL is a dotted quad and no port
    was given, and the target address after the URL block is the flag's,
    not the host of the URL. *)
Lemma url_host_does_not_replace_given_target :
  url Sample.by_url_and_target = "http://43.216.215.179:8080/"%string
  /\ port Sample.by_url_and_target = EmptyString
  /\ url_host_of (url Sample.by_url_and_target) = "43.216.215.179"%string
  /\ dotted_quad (url_host_of (url Sample.by_url_and_target)) = true
  /\ exists v', url_block Sample.laptop Sample.by_url_and_target (start Sample.deployment)
                = (Done v', start Sample.deployment)
                /\ target_ip v' = "10.0.0.1"%string
                /\ target_ip v' <> "43.216.215.179"%string.
Proof.
  repeat split; eexists; repeat split; discriminate.
Qed.

(** C3, amended. For the URL [http://43.216.215.179:8080/] alone the
    block gives target address [43.216.215.179] and port [8080] without a
    call.  In general, for a URL that is given: when no target address
    was given, a host that is a dotted quad becomes the target address
    without a call, and a host that is none is looked up, the first field
    of the first line of the answer becoming the target address; and the
    port after the block is the flag's when one was given and the URL's
    otherwise. *)
Theorem url_seeds_target_and_port (E : Env) (v : Vars) (s : State) :
  (exists v', url_block E Sample.by_url s = (Done v', s)
              /\ target_ip v' = "43.216.215.179"%string /\ port v' = "8080"%string)
  /\ (url v <> EmptyString ->
      (target_ip v = EmptyString -> dotted_quad (url_host_of (url v)) = true ->
       exists v', url_block E v s = (Done v', s)
                  /\ target_ip v' = url_host_of (url v))
      /\ (target_ip v = EmptyString -> url_host_of (url v) <> EmptyString ->
          dotted_quad (url_host_of (url v)) = false ->
          forall out, getent_hosts E (url_host_of (url v)) = ok out ->
            exists v', url_block E v s
                       = (Done v', logged s (GetentHosts (url_host_of (url v))))
                       /\ target_ip v' = awk_first_field out)
      /\ (forall v' s', url_block E v s = (Done v', s') -> Spec.port_seeded v v')).
Proof.
  split; [eexists; repeat split|].
  intros Hu; split; [|split].
  - intros Ht Hq.
    assert (Hh : non_empty (url_host_of (url v)) = true)
      by (destruct (url_host_of (url v)); [discriminate Hq | reflexivity]).
    apply non_empty_true in Hu; unfold url_block; rewrite Hu; cbv zeta.
    assert (Ht' : forall p : bool, target_ip (if p then set_port v (url_port_of (url v)) else v)
                            = EmptyString) by (intros [|]; exact Ht).
    rewrite Ht', Hh, Hq; cbn [is_empty andb].
    eexists; split; reflexivity.
  - intros Ht Hh Hq out Hout.
    apply non_empty_true in Hu, Hh; unfold url_block; rewrite Hu; cbv zeta.
    assert (Ht' : forall p : bool, target_ip (if p then set_port v (url_port_of (url v)) else v)
                            = EmptyString) by (intros [|]; exact Ht).
    rewrite Ht', Hh, Hq, Hout; cbn [is_empty andb].
    rewrite (bind_done _ _ _ _ _ (TargetFacts.piped_ok _ _ _ _)).
    rewrite chomp_awk_first_field.
    destruct (awk_first_field out) eqn:Hf; cbn [non_empty is_empty negb].
    + eexists; split; [reflexivity|]. apply Ht'.
    + eexists; split; reflexivity.
  - intros v' s'; now apply TargetFacts.url_block_port.
Qed.

(** The amended C3 on a URL with a dotted quad and on one with a name
    that resolves. *)
Lemma url_seeds_target_and_port_witness :
  (exists v', url_block Sample.laptop_with_dns Sample.by_url (start Sample.deployment)
              = (Done v', start Sample.deployment)
              /\ target_ip v' = "43.216.215.179"%string)
  /\ (exists v', url_block Sample.laptop_with_dns Sample.by_name (start Sample.deployment)
                 = (Done v', logged (start Sample.deployment) (GetentHosts "bot.example.org"))
                 /\ target_ip v' = "43.216.215.179"%string)
  /\ (forall v' s', url_block Sample.laptop_with_dns Sample.by_name (start Sample.deployment)
                    = (Done v', s') -> Spec.port_seeded Sample.by_name v').
Proof.
  split; [|split].
  - apply (proj1 (proj2 (url_seeds_target_and_port Sample.laptop_with_dns Sample.by_url
                           (start Sample.deployment)) ltac:(discriminate)));
      reflexivity.
  - apply (proj1 (proj2 (proj2 (url_seeds_target_and_port Sample.laptop_with_dns
             Sample.by_name (start Sample.deployment)) ltac:(discriminate)))
             eq_refl ltac:(discriminate) eq_refl _ eq_refl).
  - apply (proj2 (proj2 (proj2 (url_seeds_target_and_port Sample.laptop_with_dns
             Sample.by_name (start Sample.deployment)) ltac:(discriminate)))).
Defined.

(** C4. The region after lines 84-117 is the first of these that yields
    a value: the [--region] flag; the only region with an interface that
    carries the target address (when a target address is known); the
    variable [AWS_REGION]; the variable [AWS_DEFAULT_REGION]; the region
    of the client's configuration.  When the four before it yield nothing,
    the client is asked at line 110.  When it leaves status 0, its answer
    is the region, and an answer with nothing in it ends the run with
    status 2 and the message that the region is not set.  When it leaves
    another status, as it does where no region is configured, the run ends
    at line 110 with that status and nothing written: the check of lines
    114-117 is not reached.  (More than one region with the address is the
    case of C5.) *)
Theorem region_block_outcomes (E : Env) (v : Vars) (s : State) :
  (region v = EmptyString -> target_ip v <> EmptyString ->
   Spec.inference_served E (cloud s) (target_ip v)) ->
  (region v = EmptyString ->
   (List.length (Spec.inferred (cloud s) (target_ip v)) <= 1)%nat) ->
  match Spec.first_given [region v;
                          Spec.only_match (Spec.inferred (cloud s) (target_ip v));
                          AWS_REGION E; AWS_DEFAULT_REGION E] with
  | Some r =>
      exists v' s', region_block E v s = (Done v', s')
                    /\ region v' = r /\ cloud s' = cloud s
  | None =>
      if fst (configure_get_region E) =? 0 then
        if non_empty (chomp (snd (configure_get_region E)))
        then exists v' s', region_block E v s = (Done v', s')
                           /\ region v' = chomp (snd (configure_get_region E))
                           /\ cloud s' = cloud s
        else exists s', region_block E v s = (Exit 2, complained s' region_not_set_msg)
                        /\ stderr s' = stderr s /\ cloud s' = cloud s
      else exists s', region_block E v s = (Exit (fst (configure_get_region E)), s')
                      /\ stderr s' = stderr s /\ cloud s' = cloud s
  end.
Proof.
  intros Hserved Hone; unfold Spec.first_given; cbn [find].
  destruct (non_empty (region v)) eqn:Hflag.
  { (* the flag *)
    exists v, s; unfold region_block, require_region.
    unfold non_empty in Hflag; apply negb_true_iff in Hflag.
    rewrite Hflag; unfold bind, ret; rewrite Hflag; repeat split. }
  apply non_empty_false in Hflag.
  specialize (Hone Hflag).
  (* the inference leaves the only match, or nothing *)
  assert (Hinf : exists v1 s1,
             infer_region E v s = (Done v1, s1)
             /\ cloud s1 = cloud s /\ stderr s1 = stderr s
             /\ region v1 = Spec.only_match (Spec.inferred (cloud s) (target_ip v))
             /\ (Spec.inferred (cloud s) (target_ip v) <> [] ->
                 non_empty (region v1) = true)).
  { unfold Spec.inferred in *.
    destruct (non_empty (target_ip v)) eqn:Ht.
    - apply non_empty_true in Ht.
      specialize (Hserved Hflag Ht).
      rewrite (RegionFacts.infer_region_served E v s Ht Hserved).
      pose proof (RegionFacts.matching_region_given (cloud s) (target_ip v)) as Hword.
      destruct Hserved as (_ & Hids & _).
      destruct (matching_regions (cloud s) (target_ip v)) as [|r [|r' rs]].
      + exists v; eexists; repeat split; [exact Hflag | congruence].
      + exists (set_region v r); eexists; repeat split.
        intros _; apply (Hword r Hids); now left.
      + cbn [List.length] in Hone; lia.
    - exists v, s; unfold infer_region; rewrite Ht; repeat split;
        [exact Hflag | congruence]. }
  destruct Hinf as (v1 & s1 & Hrun & Hc1 & He1 & Hr1 & Hgiven).
  assert (Hblock : forall v2 s2,
             region_fallbacks E v1 s1 = (Done v2, s2) ->
             region_block E v s = require_region v2 s2).
  { intros v2 s2 Hfb; unfold region_block; rewrite Hflag; cbn [is_empty].
    apply bind_done. now rewrite (bind_done _ _ _ _ _ Hrun). }
  rewrite <- Hr1.
  destruct (non_empty (region v1)) eqn:Hn1.
  { (* the only match *)
    exists v1, s1; rewrite (Hblock _ _ (RegionFacts.region_fallbacks_set E v1 s1 Hn1)).
    unfold require_region; unfold non_empty in Hn1; apply negb_true_iff in Hn1.
    rewrite Hn1; repeat split; assumption. }
  apply non_empty_false in Hn1.
  pose proof (RegionFacts.region_of_env_first E) as Henv; cbn [find] in Henv.
  rewrite Henv; clear Henv.
  destruct (non_empty (region_of_env E)) eqn:Hn2.
  { (* the environment *)
    eexists; exists s1;
      rewrite (Hblock _ _ (RegionFacts.region_fallbacks_env E v1 s1 Hn1 Hn2)).
    unfold require_region; cbn [region set_region].
    unfold non_empty in Hn2; apply negb_true_iff in Hn2; rewrite Hn2.
    repeat split; assumption. }
  apply non_empty_false in Hn2.
  (* the client's configuration *)
  destruct (fst (configure_get_region E) =? 0) eqn:Hst.
  - apply Z.eqb_eq in Hst.
    assert (Hconf : configure_get_region E = ok (snd (configure_get_region E)))
      by (destruct (configure_get_region E) as [st conf]; cbn [fst snd] in *; now subst st).
    rewrite (Hblock _ _ (RegionFacts.region_fallbacks_config E v1 s1 _ Hn1 Hn2 Hconf)).
    unfold require_region; cbn [region set_region]; unfold non_empty.
    destruct (is_empty (chomp (snd (configure_get_region E)))); cbn [negb].
    + eexists; split; [reflexivity | split; [exact He1 | exact Hc1]].
    + eexists; eexists; repeat split; exact Hc1.
  - apply Z.eqb_neq in Hst.
    exists (logged s1 ConfigureGetRegion); split; [|split; [exact He1 | exact Hc1]].
    unfold region_block; rewrite Hflag; cbn [is_empty].
    apply bind_exit; rewrite (bind_done _ _ _ _ _ Hrun).
    now apply RegionFacts.region_fallbacks_failure.
Qed.

(** C4 on the sample deployment.  The caller with nothing configured
    gives [--port 3000], the first example of the usage text: no
    candidate yields a region, and the run ends with the status 1 of the
    client's lookup and nothing on standard error, not with status 2 and
    the message.  The others: the region of the interface for the URL of
    the usage text, the environment for a caller who sets it, and the
    message for a caller whose client answers with an empty line. *)
Lemma region_block_outcomes_witness :
  (exists s', region_block Sample.laptop Sample.by_port (start Sample.deployment)
              = (Exit 1, s')
              /\ stderr s' = [] /\ cloud s' = Sample.deployment)
  /\ (exists v' s', region_block Sample.laptop Sample.by_url_parsed (start Sample.deployment)
                    = (Done v', s')
                    /\ region v' = "ap-southeast-5"%string /\ cloud s' = Sample.deployment)
  /\ (exists v' s', region_block Sample.offline initial (start Sample.deployment)
                    = (Done v', s')
                    /\ region v' = "ap-southeast-5"%string /\ cloud s' = Sample.deployment)
  /\ (exists s', region_block Sample.unconfigured initial (start Sample.deployment)
                 = (Exit 2, complained s' region_not_set_msg)
                 /\ stderr s' = [] /\ cloud s' = Sample.deployment).
Proof.
  split; [|split; [|split]].
  - apply (region_block_outcomes Sample.laptop Sample.by_port (start Sample.deployment)).
    + intros _ H; now contradiction H.
    + intros _; cbn; lia.
  - apply (region_block_outcomes Sample.laptop Sample.by_url_parsed (start Sample.deployment)).
    + intros _ _; apply RegionFacts.deployment_served; reflexivity.
    + intros _; cbn; lia.
  - apply (region_block_outcomes Sample.offline initial (start Sample.deployment)).
    + intros _ H; now contradiction H.
    + intros _; cbn; lia.
  - apply (region_block_outcomes Sample.unconfigured initial (start Sample.deployment)).
    + intros _ H; now contradiction H.
    + intros _; cbn; lia.
Defined.

(** C5. A run whose flags leave the region empty and whose target
    address (from [--target-ip] or from the URL) is on interfaces of more
    than one region ends with status 2 right after the queries of the
    inference: its calls are those of the URL block and the inference,
    all read-only, the provider's state is untouched, and the last line on
    standard error tells to use [--region] or [--sg]. *)
Theorem ambiguous_region_ends_run
  (E : Env) (args : list string) (w : Cloud) (v1 : Vars) (s1 : State) :
  flags_and_url E args (start w) = (Done v1, s1) ->
  region v1 = EmptyString ->
  target_ip v1 <> EmptyString ->
  Spec.inference_served E w (target_ip v1) ->
  (2 <= List.length (matching_regions w (target_ip v1)))%nat ->
  main E args (start w) =
  (Exit 2, complained (logged_all s1 (Spec.inference_calls w (target_ip v1)))
             (multiple_regions_msg (target_ip v1)))
  /\ cloud s1 = w
  /\ forallb read_only (calls s1 ++ Spec.inference_calls w (target_ip v1)) = true
  /\ multiple_regions_msg (target_ip v1)
     = String.append (String.append "Public IP " (target_ip v1))
         " found in multiple regions. Use --region or --sg.".
Proof.
  intros Hfront Hflag Ht Hserved Hmany.
  destruct (ReadFacts.quiet_flags_and_url E args (start w)) as (Hc & (t & Hcalls & Hall) & _).
  rewrite Hfront in Hc, Hcalls; cbn [snd start cloud calls app] in Hc, Hcalls.
  split; [|split; [exact Hc|split]].
  - unfold main; apply bind_exit.
    unfold resolve; rewrite (bind_done _ _ _ _ _ Hfront).
    unfold resolve_rest; apply bind_exit.
    unfold region_block; rewrite Hflag; cbn [is_empty].
    apply bind_exit, bind_exit.
    rewrite <- Hc in Hserved, Hmany |- *.
    rewrite (RegionFacts.infer_region_served E v1 s1 Ht Hserved).
    destruct (matching_regions (cloud s1) (target_ip v1)) as [|r [|r' rs]];
      cbn [List.length] in Hmany; try lia.
    reflexivity.
  - rewrite Hcalls, forallb_app, Hall.
    apply RegionFacts.inference_calls_read_only.
  - reflexivity.
Qed.

(** C5 on the mirrored deployment, where the address of the URL is on an
    interface of both regions. *)
Lemma ambiguous_region_witness :
  main Sample.laptop ["--url"; "http://43.216.215.179:8080/"]%string (start Sample.mirrored)
  = (Exit 2,
     complained
       (logged_all (start Sample.mirrored)
          [DescribeRegions;
           DescribeInterfaceIds "us-east-1" "43.216.215.179";
           DescribeInterfaceIds "ap-southeast-5" "43.216.215.179"])
       "Public IP 43.216.215.179 found in multiple regions. Use --region or --sg.")
  /\ cloud (start Sample.mirrored) = Sample.mirrored
  /\ forallb read_only
       (calls (start Sample.mirrored)
        ++ Spec.inference_calls Sample.mirrored "43.216.215.179") = true
  /\ multiple_regions_msg "43.216.215.179"
     = "Public IP 43.216.215.179 found in multiple regions. Use --region or --sg."%string.
Proof.
  apply (ambiguous_region_ends_run Sample.laptop
           ["--url"; "http://43.216.215.179:8080/"]%string Sample.mirrored
           Sample.by_url_parsed (start Sample.mirrored)).
  - reflexivity.
  - reflexivity.
  - discriminate.
  - apply RegionFacts.mirrored_served; reflexivity.
  - cbn; lia.
Defined.

(** C6. With no security group given and a target address known, the
    block asks for the groups of the first interface that carries the
    address in the resolved region: one group is the security group; none
    (no such interface, or an interface without groups) ends the run with
    status 2 and the message that no group was found; more than one ends
    it with status 2 and the message to use [--sg]. *)
Theorem sg_from_first_interface (E : Env) (v : Vars) (s : State) :
  sg_id v = EmptyString ->
  target_ip v <> EmptyString ->
  fault E (DescribeInterfaceGroups (region v) (target_ip v)) = 0 ->
  (forall gs, first_interface_groups (cloud s) (region v) (target_ip v) = Some gs ->
              ids gs = true) ->
  sg_by_ip_block E v s =
  match first_interface_groups (cloud s) (region v) (target_ip v) with
  | Some [g] =>
      (Done (set_sg_id v g),
       logged s (DescribeInterfaceGroups (region v) (target_ip v)))
  | Some (_ :: _ :: _) =>
      (Exit 2, complained (logged s (DescribeInterfaceGroups (region v) (target_ip v)))
                 (String.append "Multiple security groups found for public IP "
                    (String.append (target_ip v) ". Use --sg.")))
  | _ =>
      (Exit 2, complained (logged s (DescribeInterfaceGroups (region v) (target_ip v)))
                 (String.append "No security group found for public IP "
                    (String.append (target_ip v) ". Use --sg.")))
  end.
Proof.
  intros Hsg Ht Hf Hids; apply non_empty_true in Ht.
  unfold sg_by_ip_block; rewrite Hsg, Ht; cbn [is_empty andb].
  unfold first_interface_groups in *.
  destruct (interfaces_with (cloud s) (region v) (target_ip v)) as [|e es] eqn:He;
    cbn [hd_error option_map] in *.
  - erewrite bind_done;
      [|apply aws_query_ok with (t := text_null);
        [exact Hf | unfold describe_interface_groups; now rewrite He]].
    apply bind_exit, exactly_one_null.
  - erewrite bind_done;
      [|apply aws_query_ok with (t := text_line (Groups e));
        [exact Hf | unfold describe_interface_groups; now rewrite He]].
    pose proof (exactly_one_ids (Groups e) (no_sg_for_ip_msg (target_ip v))
                  (multiple_sg_for_ip_msg (target_ip v))
                  (logged s (DescribeInterfaceGroups (region v) (target_ip v)))
                  (Hids _ eq_refl)) as Hone.
    apply (LocatorFacts.bind_three _ (fun g => ret (set_sg_id v g))) in Hone.
    rewrite Hone; destruct (Groups e) as [|g [|g' gs]]; reflexivity.
Qed.

(** C6 on the sample deployment: the interface of the service has one
    group. *)
Lemma sg_from_first_interface_witness :
  sg_by_ip_block Sample.laptop (set_region Sample.by_url_parsed Sample.home)
    (start Sample.deployment)
  = (Done (set_sg_id (set_region Sample.by_url_parsed Sample.home) "sg-0123456789abcdef0"),
     logged (start Sample.deployment)
       (DescribeInterfaceGroups "ap-southeast-5" "43.216.215.179")).
Proof.
  apply (sg_from_first_interface Sample.laptop
           (set_region Sample.by_url_parsed Sample.home) (start Sample.deployment)).
  - reflexivity.
  - discriminate.
  - reflexivity.
  - intros gs [= <-]; reflexivity.
Defined.

(** C7. With no security group given or found by address: without
    [--cluster] the clusters of the region are listed, and none or more
    than one of them ends the run with status 2, with a message that
    mentions [--cluster] and [--sg], or that names [--cluster]; the run
    goes on with the only one.  In the same way, without [--service], for
    the services of the chosen cluster, and for the security groups in the
    network configuration of the chosen service. *)
Theorem ecs_discovery_requires_exactly_one (E : Env) (v : Vars) (s : State) :
  (sg_id v = EmptyString -> cluster v = EmptyString ->
   fault E (ListClusters (region v)) = 0 ->
   ids (map clusterArn (Clusters (cloud s) (region v))) = true ->
   ecs_block E v s =
   match map clusterArn (Clusters (cloud s) (region v)) with
   | [] => (Exit 2, complained (logged s (ListClusters (region v))) no_clusters_msg)
   | [c] => (v2 <- pick_service E (set_cluster v c) ;; pick_service_sg E v2)%sh
              (logged s (ListClusters (region v)))
   | _ :: _ :: _ =>
       (Exit 2, complained (logged s (ListClusters (region v))) multiple_clusters_msg)
   end)
  /\ (forall k, service v = EmptyString ->
        find_cluster (cloud s) (region v) (cluster v) = Some k ->
        fault E (ListServices (region v) (cluster v)) = 0 ->
        ids (map serviceArn (services k)) = true ->
        pick_service E v s =
        match map serviceArn (services k) with
        | [] => (Exit 2, complained (logged s (ListServices (region v) (cluster v)))
                           no_services_msg)
        | [x] => (Done (set_service v x), logged s (ListServices (region v) (cluster v)))
        | _ :: _ :: _ =>
            (Exit 2, complained (logged s (ListServices (region v) (cluster v)))
                       multiple_services_msg)
        end)
  /\ (forall k, find_cluster (cloud s) (region v) (cluster v) = Some k ->
        fault E (DescribeServiceGroups (region v) (cluster v) (service v)) = 0 ->
        (forall gs, service_groups k (service v) = Some gs -> ids gs = true) ->
        pick_service_sg E v s =
        match service_groups k (service v) with
        | Some [g] =>
            (Done (set_sg_id v g),
             logged s (DescribeServiceGroups (region v) (cluster v) (service v)))
        | Some (_ :: _ :: _) =>
            (Exit 2, complained
                       (logged s (DescribeServiceGroups (region v) (cluster v) (service v)))
                       multiple_sg_msg)
        | _ =>
            (Exit 2, complained
                       (logged s (DescribeServiceGroups (region v) (cluster v) (service v)))
                       no_sg_on_service_msg)
        end)
  /\ Spec.mentions "--cluster" no_clusters_msg = true
  /\ Spec.mentions "--sg" no_clusters_msg = true
  /\ Spec.mentions "--cluster" multiple_clusters_msg = true
  /\ Spec.mentions "--service" no_services_msg = true
  /\ Spec.mentions "--service" multiple_services_msg = true
  /\ Spec.mentions "--sg" no_sg_on_service_msg = true
  /\ Spec.mentions "--sg" multiple_sg_msg = true.
Proof.
  split; [|split; [|split; [|repeat split]]].
  - intros Hsg Hcl Hf Hids.
    unfold ecs_block; rewrite Hsg; cbn [is_empty].
    unfold pick_cluster at 1; rewrite Hcl; cbn [is_empty].
    pose proof (exactly_one_ids _ no_clusters_msg multiple_clusters_msg
                  (logged s (ListClusters (region v))) Hids) as Hone.
    apply (LocatorFacts.bind_three _ (fun c => ret (set_cluster v c))) in Hone.
    assert (Hpick : (clusters_text <- aws_query E (ListClusters (region v))
                                        (fun w => list_clusters w (region v)) ;;
                     c <- exactly_one clusters_text no_clusters_msg multiple_clusters_msg ;;
                     ret (set_cluster v c))%sh s =
                    match map clusterArn (Clusters (cloud s) (region v)) with
                    | [] => (Exit 2, complained (logged s (ListClusters (region v)))
                                       no_clusters_msg)
                    | [c] => (Done (set_cluster v c), logged s (ListClusters (region v)))
                    | _ :: _ :: _ =>
                        (Exit 2, complained (logged s (ListClusters (region v)))
                                   multiple_clusters_msg)
                    end).
    { erewrite bind_done; [exact Hone | now apply aws_query_ok]. }
    destruct (map clusterArn (Clusters (cloud s) (region v))) as [|c [|c' cs]];
      [now apply bind_exit
      | rewrite (bind_done _ _ _ _ _ Hpick); reflexivity
      | now apply bind_exit].
  - intros k Hsv Hk Hf Hids.
    unfold pick_service; rewrite Hsv; cbn [is_empty].
    erewrite bind_done;
      [|apply aws_query_ok with (t := text_line (map serviceArn (services k)));
        [exact Hf | unfold list_services; now rewrite Hk]].
    pose proof (exactly_one_ids _ no_services_msg multiple_services_msg
                  (logged s (ListServices (region v) (cluster v))) Hids) as Hone.
    apply (LocatorFacts.bind_three _ (fun x => ret (set_service v x))) in Hone.
    rewrite Hone; destruct (map serviceArn (services k)) as [|x [|x' xs]]; reflexivity.
  - intros k Hk Hf Hids.
    unfold pick_service_sg, service_groups in *.
    destruct (find_service k (service v)) as [sv|] eqn:Hsv;
      [destruct (securityGroups sv) as [gs|] eqn:Hgs|].
    + erewrite bind_done;
        [|apply aws_query_ok with (t := text_line gs);
          [exact Hf | unfold describe_service_groups; now rewrite Hk, Hsv, Hgs]].
      pose proof (exactly_one_ids gs no_sg_on_service_msg multiple_sg_msg
                    (logged s (DescribeServiceGroups (region v) (cluster v) (service v)))
                    (Hids _ eq_refl)) as Hone.
      apply (LocatorFacts.bind_three _ (fun g => ret (set_sg_id v g))) in Hone.
      rewrite Hone; destruct gs as [|g [|g' gs']]; reflexivity.
    + erewrite bind_done;
        [|apply aws_query_ok with (t := text_null);
          [exact Hf | unfold describe_service_groups; now rewrite Hk, Hsv, Hgs]].
      apply bind_exit, exactly_one_null.
    + erewrite bind_done;
        [|apply aws_query_ok with (t := text_null);
          [exact Hf | unfold describe_service_groups; now rewrite Hk, Hsv]].
      apply bind_exit, exactly_one_null.
Qed.

(** C7 on the sample deployment: its home region has one cluster with
    one service in one group, and the other region has no cluster. *)
Lemma ecs_discovery_witness :
  ecs_block Sample.laptop (set_region initial Sample.home) (start Sample.deployment)
  = (Done (set_sg_id
             (set_service
                (set_cluster (set_region initial Sample.home)
                   (clusterArn Sample.bot_cluster))
                (serviceArn Sample.bot_service))
             "sg-0123456789abcdef0"),
     logged_all (start Sample.deployment)
       [ListClusters Sample.home;
        ListServices Sample.home (clusterArn Sample.bot_cluster);
        DescribeServiceGroups Sample.home (clusterArn Sample.bot_cluster)
          (serviceArn Sample.bot_service)])
  /\ ecs_block Sample.laptop (set_region initial "us-east-1") (start Sample.deployment)
     = (Exit 2, complained (logged (start Sample.deployment) (ListClusters "us-east-1"))
                  no_clusters_msg).
Proof.
  split.
  - exact (proj1 (ecs_discovery_requires_exactly_one Sample.laptop
                    (set_region initial Sample.home) (start Sample.deployment))
             eq_refl eq_refl eq_refl eq_refl).
  - exact (proj1 (ecs_discovery_requires_exactly_one Sample.laptop
                    (set_region initial "us-east-1") (start Sample.deployment))
             eq_refl eq_refl eq_refl eq_refl).
Defined.

(** C8. Without a port, the block asks for the ports of the rules of the
    resolved group that are for the protocol, have equal ends and have a
    CIDR range: one distinct port is the port; none ends the run with
    status 2 and the message that no rule matches; more than one ends it
    with status 2 and the message that there are several ports; both
    messages name [--port]. *)
Theorem port_from_single_port_rules
  (E : Env) (v : Vars) (s : State) (perms : list IpPermission) :
  port v = EmptyString ->
  SecurityGroups (cloud s) (region v) (sg_id v) = Some perms ->
  NoDup (map key perms) ->
  fault E (DescribeSinglePorts (region v) (sg_id v) (protocol v)) = 0 ->
  port_block E v s =
  match nodup Z.eq_dec (single_ports (protocol v) perms) with
  | [] =>
      (Exit 2, complained (logged s (DescribeSinglePorts (region v) (sg_id v) (protocol v)))
                 (String.append "No matching "
                    (String.append (protocol v) " rules found. Use --port.")))
  | [p] =>
      (Done (set_port v (port_text p)),
       logged s (DescribeSinglePorts (region v) (sg_id v) (protocol v)))
  | _ :: _ :: _ =>
      (Exit 2, complained (logged s (DescribeSinglePorts (region v) (sg_id v) (protocol v)))
                 (String.append "Multiple "
                    (String.append (protocol v) " ports found. Use --port.")))
  end.
Proof.
  intros Hport Hgroup Hkeys Hf.
  rewrite (nodup_fixed_point Z.eq_dec (LocatorFacts.single_ports_nodup (protocol v) perms Hkeys)).
  now apply LocatorFacts.port_block_by_rules.
Qed.

(** C8 on the sample deployment: the one rule of the group is for
    tcp/8080. *)
Lemma port_from_single_port_rules_witness :
  port_block Sample.laptop
    (set_sg_id (set_region initial Sample.home) "sg-0123456789abcdef0")
    (start Sample.deployment)
  = (Done (set_port (set_sg_id (set_region initial Sample.home) "sg-0123456789abcdef0")
             "8080"),
     logged (start Sample.deployment)
       (DescribeSinglePorts "ap-southeast-5" "sg-0123456789abcdef0" "tcp")).
Proof.
  apply (port_from_single_port_rules Sample.laptop
           (set_sg_id (set_region initial Sample.home) "sg-0123456789abcdef0")
           (start Sample.deployment) Sample.web).
  - reflexivity.
  - reflexivity.
  - repeat constructor; intros [].
  - reflexivity.
Defined.

(** C9. In every run the calls are a sequence of read-only queries,
    followed by the authorize-ingress call at most once and with nothing
    after it; the provider's state is the one the run started from unless
    that call was made, and also when it was made and the run ended with a
    status other than zero. *)
Theorem only_mutation_is_last_and_single (E : Env) (args : list string) (w : Cloud) :
  let r := main E args (start w) in
  exists reads tail,
    calls (snd r) = reads ++ tail
    /\ forallb read_only reads = true
    /\ ((tail = [] /\ cloud (snd r) = w)
        \/ (exists c, tail = [c] /\ is_mutation c = true
                      /\ (status_of r <> 0%Z -> cloud (snd r) = w))).
Proof.
  cbv zeta; unfold main, bind.
  destruct (ReadFacts.quiet_resolve E args (start w)) as (Hc & (t & Ht & HP) & _).
  destruct (resolve E args (start w)) as [[v|n] s1]; cbn [fst snd] in *.
  - destruct (RuleFacts.authorize_block_calls E v s1) as [[Hq Hw]|[Hq Hw]];
      cbv zeta in Hq, Hw; rewrite Ht in Hq; cbn [start calls app] in Hq.
    + eexists (t ++ [_]), []; rewrite List.app_nil_r; split; [exact Hq|].
      split; [rewrite forallb_app, HP; reflexivity|].
      left; split; [reflexivity|]. now rewrite Hw, Hc.
    + eexists (t ++ [_]), [_]; split;
        [rewrite Hq, <- List.app_assoc; reflexivity|].
      split; [rewrite forallb_app, HP; reflexivity|].
      right; eexists; repeat split.
      intros Hst; rewrite (Hw Hst); exact Hc.
  - exists t, []; rewrite List.app_nil_r; repeat split; auto.
Qed.

(** C10. When the flags set a target address, the URL block goes on
    without a call and with that address; and every call of the whole
    resolution (lines 41-204) is about it: no name is looked up, and the
    interface queries for the region and for the security group carry the
    address of the flag. *)
Theorem explicit_target_ip_is_kept
  (E : Env) (args : list string) (w : Cloud) (v0 : Vars) (s0 : State) :
  parse_args args initial (start w) = (Done v0, s0) ->
  target_ip v0 <> EmptyString ->
  (exists v1, url_block E v0 s0 = (Done v1, s0) /\ target_ip v1 = target_ip v0)
  /\ forallb (about_target (target_ip v0)) (calls (snd (resolve E args (start w)))) = true.
Proof.
  intros Hparse Ht.
  pose proof (TargetFacts.url_block_target_given E v0 s0 Ht) as Hurl.
  set (v1 := if non_empty (url v0) && _ then _ else _) in Hurl.
  assert (Hv1 : target_ip v1 = target_ip v0) by (unfold v1; destruct (_ && _); reflexivity).
  split; [exists v1; split; assumption|].
  assert (Hfront : flags_and_url E args (start w) = (Done v1, s0)).
  { unfold flags_and_url; rewrite (bind_done _ _ _ _ _ Hparse); exact Hurl. }
  unfold resolve; rewrite (bind_done _ _ _ _ _ Hfront).
  destruct (ReadFacts.quiet_parse_args (fun _ => false) args initial (start w))
    as (_ & (t0 & Ht0 & Hnone) & _).
  rewrite Hparse in Ht0; cbn [snd start calls app] in Ht0.
  destruct t0 as [|c t0]; [|discriminate Hnone].
  destruct (ReadFacts.quiet_resolve_rest (about_target (target_ip v0)) (target_ip v0)
              (fun c H => H) E v1 Hv1 s0) as (_ & (t & Hcalls & Hall) & _).
  rewrite Hcalls, Ht0; exact Hall.
Qed.

(** C10 on [--target-ip 10.0.0.1 --url http://43.216.215.179:8080/]. *)
Lemma explicit_target_ip_witness :
  (exists v1, url_block Sample.laptop Sample.by_url_and_target (start Sample.deployment)
              = (Done v1, start Sample.deployment)
              /\ target_ip v1 = "10.0.0.1"%string)
  /\ forallb (about_target "10.0.0.1")
       (calls (snd (resolve Sample.laptop
                      ["--url"; "http://43.216.215.179:8080/"; "--target-ip"; "10.0.0.1"]%string
                      (start Sample.deployment))))
     = true.
Proof.
  apply (explicit_target_ip_is_kept Sample.laptop
           ["--url"; "http://43.216.215.179:8080/"; "--target-ip"; "10.0.0.1"]%string
           Sample.deployment (set_target_ip Sample.by_url "10.0.0.1")
           (start Sample.deployment)).
  - reflexivity.
  - discriminate.
Defined.

(* ================================================================== *)
(** * Further properties of the script *)
(* ================================================================== *)

Import Notions.

(** X1. Lines 29-57.  On a command line that gives known flags, each with
    a value, the loop ends with every variable holding the value of the
    last occurrence of its flag, or its default when the flag does not
    occur ([tcp] for the protocol, [codex-whitelist] for the description,
    nothing for the others); it writes nothing and makes no call. *)
Theorem flags_take_last_value (ps : list (string * string)) (flag : string)
  (get : Vars -> string) (s : State) :
  all_known ps = true -> variable_of flag = Some get ->
  exists v,
    parse_args (words ps) initial s = (Done v, s)
    /\ get v = match last_value flag ps with Some x => x | None => get initial end.
Proof.
  intros Hk Hvar.
  destruct (FlagFacts.parse_args_words ps Hk initial) as (v & Hrun & Hget).
  exists v; split; [|now apply Hget].
  rewrite <- (List.app_nil_r (words ps)); rewrite Hrun; reflexivity.
Qed.

(** X1 on [--port 80 --sg sg-1 --port 443], for the port and for the
    protocol. *)
Lemma flags_take_last_value_witness :
  (exists v, parse_args ["--port"; "80"; "--sg"; "sg-1"; "--port"; "443"]%string initial
               (start Sample.deployment) = (Done v, start Sample.deployment)
             /\ port v = "443"%string)
  /\ (exists v, parse_args ["--port"; "80"; "--sg"; "sg-1"; "--port"; "443"]%string initial
                  (start Sample.deployment) = (Done v, start Sample.deployment)
                /\ protocol v = "tcp"%string).
Proof.
  split.
  - apply (flags_take_last_value
             [("--port", "80"); ("--sg", "sg-1"); ("--port", "443")]%string
             "--port" port (start Sample.deployment)); reflexivity.
  - apply (flags_take_last_value
             [("--port", "80"); ("--sg", "sg-1"); ("--port", "443")]%string
             "--protocol" protocol (start Sample.deployment)); reflexivity.
Defined.

(** X2. Line 55.  A word that is no flag, where a flag is expected,
    ends the run with status 2 whatever follows it: the script writes
    [Unknown arg:] with the word and then the usage text, both on
    standard output, and makes no call. *)
Theorem unknown_argument_ends_run (ps : list (string * string)) (bad : string)
  (rest : list string) (v : Vars) (s : State) :
  all_known ps = true -> known bad = false -> is_help bad = false ->
  parse_args (words ps ++ bad :: rest) v s =
  (Exit 2, said_all s (("Unknown arg: " ++ bad)%string :: usage_lines)).
Proof.
  intros Hk Hbad Hhelp.
  destruct (FlagFacts.parse_args_words ps Hk v) as (v' & Hrun & _).
  rewrite Hrun; cbn [parse_args].
  unfold known in Hbad; destruct (flag_setter bad); [discriminate|].
  unfold is_help in Hhelp; rewrite Hhelp.
  unfold bind, usage, echo, exit.
  rewrite FlagFacts.echo_all_said; unfold said_all; cbn [cloud calls stdout stderr].
  now rewrite <- List.app_assoc.
Qed.

(** X2 on [--port 443 --verbose --sg sg-1]. *)
Lemma unknown_argument_witness :
  parse_args ["--port"; "443"; "--verbose"; "--sg"; "sg-1"]%string initial
    (start Sample.deployment) =
  (Exit 2, said_all (start Sample.deployment)
             ("Unknown arg: --verbose"%string :: usage_lines)).
Proof.
  apply (unknown_argument_ends_run [("--port", "443")]%string "--verbose"
           ["--sg"; "sg-1"]%string initial (start Sample.deployment)); reflexivity.
Defined.

(** X3. Line 54.  [-h] or [--help] where a flag is expected ends the run
    with status 0 and the usage text on standard output, whatever follows
    it and whatever was given before it; no call is made. *)
Theorem help_ends_run (ps : list (string * string)) (h : string)
  (rest : list string) (v : Vars) (s : State) :
  all_known ps = true -> is_help h = true ->
  parse_args (words ps ++ h :: rest) v s = (Exit 0, said_all s usage_lines).
Proof.
  intros Hk Hhelp.
  destruct (FlagFacts.parse_args_words ps Hk v) as (v' & Hrun & _).
  rewrite Hrun; cbn [parse_args].
  assert (Hnone : flag_setter h = None).
  { unfold is_help in Hhelp; apply orb_true_iff in Hhelp.
    destruct Hhelp as [H|H]; apply String.eqb_eq in H; subst h; reflexivity. }
  rewrite Hnone; unfold is_help in Hhelp; rewrite Hhelp.
  unfold bind, usage, exit; now rewrite FlagFacts.echo_all_said.
Qed.

(** X3 on [--sg sg-1 --help --bogus]. *)
Lemma help_ends_run_witness :
  parse_args ["--sg"; "sg-1"; "--help"; "--bogus"]%string initial (start Sample.deployment) =
  (Exit 0, said_all (start Sample.deployment) usage_lines).
Proof.
  apply (help_ends_run [("--sg", "sg-1")]%string "--help" ["--bogus"]%string initial
           (start Sample.deployment)); reflexivity.
Defined.

(** X4. Lines 43-53 under [set -u].  A flag that takes a value and comes
    last, with no value after it, ends the run with status 1; the script
    prints neither a message of its own nor the usage text, and makes no
    call. *)
Theorem flag_without_value_ends_run (ps : list (string * string)) (flag : string)
  (v : Vars) (s : State) :
  all_known ps = true -> known flag = true ->
  parse_args (words ps ++ [flag]) v s = (Exit 1, s).
Proof.
  intros Hk Hflag.
  destruct (FlagFacts.parse_args_words ps Hk v) as (v' & Hrun & _).
  rewrite Hrun; cbn [parse_args].
  unfold known in Hflag; destruct (flag_setter flag); [reflexivity | discriminate].
Qed.

(** X4 on [--sg sg-1 --port]. *)
Lemma flag_without_value_witness :
  parse_args ["--sg"; "sg-1"; "--port"]%string initial (start Sample.deployment) =
  (Exit 1, start Sample.deployment).
Proof.
  apply (flag_without_value_ends_run [("--sg", "sg-1")]%string "--port" initial
           (start Sample.deployment)); reflexivity.
Defined.

(** X5. Lines 60-68.  For a URL made of a scheme without a colon, [://],
    a host, a port or none, and nothing more or a path that starts with a
    slash, where host and port have neither colon nor slash in them, the
    script's expansions give back the host and the port (the empty text
    when the URL has none). *)
Theorem url_parts_round_trip (scheme host : string) (port : option string) (rest : string) :
  contains ":" scheme = false ->
  contains ":" host = false -> contains "/" host = false ->
  (forall p, port = Some p -> contains ":" p = false /\ contains "/" p = false) ->
  rest = EmptyString \/ (exists path, rest = String "/" path) ->
  let authority := match port with
                   | Some p => (host ++ ":" ++ p)%string
                   | None => host
                   end in
  let u := (scheme ++ "://" ++ authority ++ rest)%string in
  url_host_of u = host
  /\ url_port_of u = match port with Some p => p | None => EmptyString end.
Proof.
  intros Hscheme Hhc Hhs Hport Hrest; cbv zeta.
  assert (Hslash : contains "/" match port with
                                | Some p => (host ++ ":" ++ p)%string
                                | None => host
                                end = false).
  { destruct port as [p|]; [|exact Hhs].
    destruct (Hport p eq_refl) as [_ Hps].
    rewrite UrlFacts.contains_append, Hhs; cbn [append contains orb].
    exact Hps. }
  assert (Hhp : hostport_of (scheme ++ "://" ++ match port with
                                                | Some p => (host ++ ":" ++ p)%string
                                                | None => host
                                                end ++ rest)
                = match port with
                  | Some p => (host ++ ":" ++ p)%string
                  | None => host
                  end).
  { unfold hostport_of; rewrite UrlFacts.strip_scheme by exact Hscheme.
    destruct Hrest as [->|[path ->]].
    - rewrite UrlFacts.append_empty. now apply UrlFacts.before_first_none.
    - now apply UrlFacts.before_first_app. }
  unfold url_host_of, url_port_of; rewrite Hhp.
  destruct port as [p|].
  - destruct (Hport p eq_refl) as [Hpc _].
    rewrite UrlFacts.contains_append; cbn [append contains].
    rewrite Ascii.eqb_refl, orb_true_r; cbn [orb].
    split; [now apply UrlFacts.before_first_app | now apply UrlFacts.after_last_app].
  - rewrite Hhc; split; reflexivity.
Qed.

(** X5 on [https://bot.example.org:8443/status]. *)
Lemma url_parts_witness :
  url_host_of "https://bot.example.org:8443/status" = "bot.example.org"%string
  /\ url_port_of "https://bot.example.org:8443/status" = "8443"%string.
Proof.
  apply (url_parts_round_trip "https" "bot.example.org" (Some "8443"%string) "/status").
  - reflexivity.
  - reflexivity.
  - reflexivity.
  - intros p [= <-]; split; reflexivity.
  - right; exists "status"%string; reflexivity.
Defined.

(** X6. Line 73.  The test that decides whether the host of the URL is
    taken as an address, without a name lookup, holds exactly for four
    groups of one to three digits joined by dots: the shape is checked,
    not the range of each group. *)
Theorem dotted_quad_shape (s : string) :
  dotted_quad s = true <->
  exists a b c d,
    s = (a ++ "." ++ b ++ "." ++ c ++ "." ++ d)%string
    /\ octet_shape a = true /\ octet_shape b = true
    /\ octet_shape c = true /\ octet_shape d = true.
Proof.
  unfold dotted_quad; split.
  - intros H; pose proof (UrlFacts.concat_fields "." s) as Hjoin.
    destruct (fields "." s) as [|a [|b [|c [|d [|e l]]]]]; try discriminate H.
    exists a, b, c, d; split; [now rewrite <- Hjoin|].
    apply andb_true_iff in H; destruct H as [H Hd].
    apply andb_true_iff in H; destruct H as [H Hc].
    apply andb_true_iff in H; destruct H as [Ha Hb].
    repeat split; assumption.
  - intros (a & b & c & d & -> & Ha & Hb & Hc & Hd).
    change ("." ++ b ++ "." ++ c ++ "." ++ d)%string
      with (String "." (b ++ String "." (c ++ String "." d))).
    rewrite UrlFacts.fields_app by now apply UrlFacts.octet_no_dot.
    rewrite UrlFacts.fields_app by now apply UrlFacts.octet_no_dot.
    rewrite UrlFacts.fields_app by now apply UrlFacts.octet_no_dot.
    rewrite UrlFacts.fields_whole by now apply UrlFacts.octet_no_dot.
    now rewrite Ha, Hb, Hc, Hd.
Qed.

(** X7. Lines 119-128.  An address that the script detects has no blank
    and no line break in it, whatever the echo service answers: when the
    block goes on without [--ip] and [--cidr], the address and the CIDR
    are single words, and the one call was the echo service. *)
Theorem detected_cidr_is_word (E : Env) (v v' : Vars) (s s' : State) :
  cidr v = EmptyString -> ip v = EmptyString ->
  cidr_block E v s = (Done v', s') ->
  is_word (ip v') = true
  /\ cidr v' = (ip v' ++ "/32")%string
  /\ is_word (cidr v') = true
  /\ s' = logged s CheckIp.
Proof.
  intros Hc Hi; unfold cidr_block; rewrite Hc, Hi; cbn [is_empty].
  unfold piped, bind, log, ret, exit.
  destruct (fst (curl_checkip E) =? 0)%Z; [|discriminate].
  rewrite chomp_delete_space; cbn [ip set_ip].
  destruct (delete_space (snd (curl_checkip E))) as [|x d] eqn:Hd; cbn [is_empty];
    [discriminate|].
  intros [= <- <-]; cbn [ip cidr set_cidr set_ip text String.concat].
  assert (Hw : no_space (String x d) = true)
    by (rewrite <- Hd; apply UrlFacts.no_space_delete_space).
  repeat split.
  - unfold is_word; now rewrite Hw.
  - unfold is_word; rewrite UrlFacts.no_space_append, Hw; reflexivity.
Qed.

(** X7 for the caller at 203.0.113.10. *)
Lemma detected_cidr_witness :
  is_word "203.0.113.10" = true
  /\ "203.0.113.10/32"%string = ("203.0.113.10" ++ "/32")%string
  /\ is_word "203.0.113.10/32" = true
  /\ logged (start Sample.deployment) CheckIp = logged (start Sample.deployment) CheckIp.
Proof.
  apply (detected_cidr_is_word Sample.laptop initial
           (set_cidr (set_ip initial "203.0.113.10") "203.0.113.10/32")
           (start Sample.deployment) (logged (start Sample.deployment) CheckIp));
    reflexivity.
Defined.

(** X8. The whole script under [set -euo pipefail].  In every run, either
    every external command succeeded and the run ended as the script
    itself decides (it went to its end, or left with status 0, 1 or 2), or
    the last command of the run is the only one that failed and the status
    of the run is the status of that command: nothing is retried and
    nothing runs after a failure. *)
Theorem run_stops_at_first_failure (E : Env) (args : list string) (w : Cloud) :
  stops_at_failure E w
    (calls (snd (main E args (start w))))
    (ended (fst (main E args (start w)))).
Proof.
  unfold main, bind.
  destruct (ExitFacts.resolve_stops E args (start w)) as (Hc & t & Ht & Hstop).
  cbn [start cloud calls app] in Hc, Ht, Hstop.
  destruct (resolve E args (start w)) as [[v|n] s1]; cbn [fst snd ended] in *.
  - destruct (ExitFacts.authorize_block_stops E v s1) as (t2 & Ht2 & H2).
    rewrite Ht2, Ht; rewrite Hc in H2.
    apply ExitFacts.stops_app; [now apply ExitFacts.stops_going_on | exact H2].
  - now rewrite Ht.
Qed.

(** X9. The whole script.  The script itself writes at most one line to
    standard error in a run; when it writes one, the line tells which flag
    to use and the run ends with status 2.  In runs that end with another
    status, among them those a failing command ends, the script writes
    nothing there. *)
Theorem one_complaint_then_status_2 (E : Env) (args : list string) (w : Cloud) :
  stderr (snd (main E args (start w))) = []
  \/ (exists msg,
        stderr (snd (main E args (start w))) = [msg]
        /\ advises msg
        /\ fst (main E args (start w)) = Exit 2).
Proof.
  unfold main, bind.
  pose proof (ExitFacts.resolve_complains E args (start w)) as Hr.
  unfold complaining in Hr; cbn [start stderr app] in Hr.
  destruct (resolve E args (start w)) as [[v|n] s1]; cbn [fst snd ended] in *.
  - rewrite ExitFacts.authorize_block_silent.
    destruct Hr as [Hr|[[=] _]]; now left.
  - destruct Hr as [Hr|([= ->] & msg & Hmsg & Hr)]; [now left|].
    right; exists msg; auto.
Qed.

(** X10. The whole script.  A run that ends with status 2 gives the
    caller a reason: the script has written a line that tells which flag
    to use on standard error, or the word that is no flag and the usage
    text on standard output, or the last command of the run left with
    status 2 itself. *)
Theorem status_2_comes_with_a_reason (E : Env) (args : list string) (w : Cloud) :
  fst (main E args (start w)) = Exit 2 ->
  (exists msg, advises msg /\ stderr (snd (main E args (start w))) = [msg])
  \/ (exists word,
        stdout (snd (main E args (start w)))
        = ("Unknown arg: " ++ word)%string :: usage_lines)
  \/ (exists pre c,
        calls (snd (main E args (start w))) = pre ++ [c]
        /\ answer_status E w c = 2).
Proof.
  unfold main, bind.
  destruct (ExitFacts.resolve_explained E args (start w)) as (Hc & Hw & t & Ht & H2).
  cbn [start cloud calls stdout stderr app] in Hc, Hw, Ht, H2.
  destruct (resolve E args (start w)) as [[v|n] s1]; cbn [fst snd ended] in *.
  - intros Hexit.
    destruct (ExitFacts.authorize_block_ends E v s1) as (t2 & Ht2 & [[_ Hx]|Hfail]).
    + rewrite Hexit in Hx; destruct Hx as [Hx|Hx]; discriminate Hx.
    + destruct Hfail as (pre & c & -> & _ & _ & Hx).
      rewrite Hexit in Hx; injection Hx as Hx.
      right; right; exists (calls s1 ++ pre), c; split.
      * now rewrite Ht2, List.app_assoc.
      * now rewrite <- Hc.
  - intros [= ->]; rewrite Ht; exact (H2 eq_refl).
Qed.

(** X10 on an address that two regions carry. *)
Lemma status_2_witness :
  (exists msg,
     advises msg
     /\ stderr (snd (main Sample.laptop ["--target-ip"; "43.216.215.179"]%string
                       (start Sample.mirrored))) = [msg])
  \/ (exists word,
        stdout (snd (main Sample.laptop ["--target-ip"; "43.216.215.179"]%string
                       (start Sample.mirrored)))
        = ("Unknown arg: " ++ word)%string :: usage_lines)
  \/ (exists pre c,
        calls (snd (main Sample.laptop ["--target-ip"; "43.216.215.179"]%string
                      (start Sample.mirrored))) = pre ++ [c]
        /\ answer_status Sample.laptop Sample.mirrored c = 2).
Proof.
  apply (status_2_comes_with_a_reason Sample.laptop
           ["--target-ip"; "43.216.215.179"]%string Sample.mirrored).
  reflexivity.
Defined.

(** X11. The whole script.  A run works in one region: every call that
    names a region to work in (the lookups of security groups, clusters,
    services and rules, and the mutation) names the same one, which is the
    region the script resolved and is not empty.  Only the inference of
    lines 85-105 looks into other regions. *)
Theorem one_region_per_run (E : Env) (args : list string) (w : Cloud) :
  exists r0,
    forallb (in_region r0) (calls (snd (main E args (start w)))) = true
    /\ (forall v s1, resolve E args (start w) = (Done v, s1) ->
          region v = r0 /\ r0 <> EmptyString).
Proof.
  destruct (flags_and_url E args (start w)) as [[v0|n0] s0] eqn:Hfront.
  - destruct (region_block E v0 s0) as [[v1|n1] s1] eqn:Hregion.
    + exists (region v1).
      destruct (RegionalFacts.quiet_front E (region v1) args (start w))
        as (_ & (t0 & Ht0 & HP0) & _).
      destruct (RegionalFacts.quiet_region E (region v1) v0 s0)
        as (_ & (t1 & Ht1 & HP1) & HQ1).
      destruct (RegionalFacts.quiet_after_region E (region v1) v1 eq_refl s1)
        as (_ & (t2 & Ht2 & HP2) & HQ2).
      rewrite Hfront in Ht0; rewrite Hregion in Ht1, HQ1.
      cbn [fst snd start calls app] in Ht0, Ht1, HQ1.
      assert (Hres : resolve E args (start w) =
                     bind (cidr_block E v1) (fun v =>
                     bind (sg_by_ip_block E v) (fun v =>
                     bind (ecs_block E v) (fun v => port_block E v))) s1).
      { unfold resolve, resolve_rest.
        rewrite (bind_done _ _ _ _ _ Hfront).
        now rewrite (bind_done _ _ _ _ _ Hregion). }
      specialize (HQ1 v1 eq_refl).
      unfold main, bind at 1; rewrite Hres.
      destruct (bind (cidr_block E v1) _ s1) as [[v|n] s2]; cbn [fst snd] in *.
      * specialize (HQ2 v eq_refl).
        split; [|intros v' s' [= <- <-]; now split].
        destruct (RuleFacts.authorize_block_calls E v s2) as [[Hq _]|[Hq _]];
          cbv zeta in Hq; rewrite Hq, Ht2, Ht1, Ht0, !forallb_app, HP0, HP1, HP2;
          cbn [forallb in_region]; rewrite HQ2, String.eqb_refl; reflexivity.
      * split; [|discriminate].
        now rewrite Ht2, Ht1, Ht0, !forallb_app, HP0, HP1, HP2.
    + exists EmptyString.
      destruct (RegionalFacts.quiet_front E EmptyString args (start w))
        as (_ & (t0 & Ht0 & HP0) & _).
      destruct (RegionalFacts.quiet_region E EmptyString v0 s0)
        as (_ & (t1 & Ht1 & HP1) & _).
      rewrite Hfront in Ht0; rewrite Hregion in Ht1.
      cbn [fst snd start calls app] in Ht0, Ht1.
      assert (Hres : resolve E args (start w) = (Exit n1, s1)).
      { unfold resolve, resolve_rest.
        rewrite (bind_done _ _ _ _ _ Hfront).
        now rewrite (bind_exit _ _ _ _ _ Hregion). }
      unfold main; rewrite (bind_exit _ _ _ _ _ Hres), Hres; cbn [snd].
      split; [|discriminate].
      now rewrite Ht1, Ht0, forallb_app, HP0, HP1.
  - exists EmptyString.
    destruct (RegionalFacts.quiet_front E EmptyString args (start w))
      as (_ & (t0 & Ht0 & HP0) & _).
    rewrite Hfront in Ht0; cbn [fst snd start calls app] in Ht0.
    assert (Hres : resolve E args (start w) = (Exit n0, s0))
      by (unfold resolve; now rewrite (bind_exit _ _ _ _ _ Hfront)).
    unfold main; rewrite (bind_exit _ _ _ _ _ Hres), Hres; cbn [snd].
    split; [|discriminate].
    now rewrite Ht0.
Qed.

(** X12. The whole script.  When the resolution of lines 41-204 goes
    through and the run ends with status 0, the security group it resolved
    allows the CIDR on the protocol and port afterwards, whatever the
    calls answered on the way: status 0 is never reported for a rule that
    is not there. *)
Theorem success_means_allowed
  (E : Env) (args : list string) (w : Cloud) (v : Vars) (s1 : State) :
  resolve E args (start w) = (Done v, s1) ->
  status_of (main E args (start w)) = 0 ->
  exists perms,
    SecurityGroups (cloud (snd (main E args (start w)))) (region v) (sg_id v) = Some perms
    /\ allows perms (protocol v) (port v) (cidr v).
Proof.
  intros Hres; unfold main; rewrite (bind_done _ _ _ _ _ Hres).
  apply OutcomeFacts.authorize_block_success.
Qed.

(** X12 on the sample run: after it the group allows the caller. *)
Lemma success_means_allowed_witness :
  exists perms,
    SecurityGroups (cloud (snd SampleLines.url_run))
      "ap-southeast-5" "sg-0123456789abcdef0" = Some perms
    /\ allows perms "tcp" "8080" "203.0.113.10/32".
Proof.
  apply (success_means_allowed Sample.laptop SampleLines.url_line Sample.deployment
           Sample.resolved (snd SampleLines.url_resolution));
    reflexivity.
Defined.

(** X13. Lines 206-218 after a resolution that went through.  What the
    script writes tells what it did, and it writes nothing to standard
    error:
    either the one line [... already allowed ...], with status 0, the
    query as the last call and the provider untouched; or the one line
    [Added ...], at the end of the script, with the mutation as the last
    call and the range, with the description of the run, in the group; or
    nothing, with a status other than zero and the provider untouched. *)
Theorem report_tells_outcome
  (E : Env) (args : list string) (w : Cloud) (v : Vars) (s1 : State) :
  resolve E args (start w) = (Done v, s1) ->
  let r := main E args (start w) in
  let q := DescribeMatchingCidr (region v) (sg_id v) (protocol v) (port v) (cidr v) in
  let m := AuthorizeIngress (region v) (sg_id v) (protocol v) (port v) (cidr v)
             (description v) in
  stderr (snd r) = []
  /\ ((fst r = Exit 0
       /\ stdout (snd r) = [already_allowed_msg v]
       /\ calls (snd r) = calls s1 ++ [q]
       /\ cloud (snd r) = w)
      \/ (fst r = Done tt
          /\ stdout (snd r) = [added_msg v]
          /\ calls (snd r) = calls s1 ++ [q; m]
          /\ exists perms p,
               SecurityGroups (cloud (snd r)) (region v) (sg_id v) = Some perms
               /\ In p perms
               /\ In {| CidrIp := cidr v; Description := description v |} (IpRanges p))
      \/ (status_of r <> 0
          /\ stdout (snd r) = []
          /\ cloud (snd r) = w)).
Proof.
  intros Hres; cbv zeta.
  destruct (ExitFacts.resolve_wordless E args (start w) s1 v Hres) as [Hout Herr].
  destruct (ReadFacts.quiet_resolve E args (start w)) as (Hcloud & _ & _).
  rewrite Hres in Hcloud; cbn [snd start cloud stdout stderr] in Hcloud, Hout, Herr.
  unfold main; rewrite (bind_done _ _ _ _ _ Hres).
  pose proof (OutcomeFacts.authorize_block_report E v s1) as Hreport.
  cbv zeta in Hreport; rewrite Hout, Herr, Hcloud in Hreport.
  exact Hreport.
Qed.

(** X13 on the sample run, which is of the second kind. *)
Lemma report_tells_outcome_witness :
  stderr (snd SampleLines.url_run) = []
  /\ ((fst SampleLines.url_run = Exit 0
       /\ stdout (snd SampleLines.url_run) = [already_allowed_msg Sample.resolved]
       /\ calls (snd SampleLines.url_run)
          = calls (snd SampleLines.url_resolution)
            ++ [DescribeMatchingCidr "ap-southeast-5" "sg-0123456789abcdef0" "tcp" "8080"
                  "203.0.113.10/32"]
       /\ cloud (snd SampleLines.url_run) = Sample.deployment)
      \/ (fst SampleLines.url_run = Done tt
          /\ stdout (snd SampleLines.url_run) = [added_msg Sample.resolved]
          /\ calls (snd SampleLines.url_run)
             = calls (snd SampleLines.url_resolution)
               ++ [DescribeMatchingCidr "ap-southeast-5" "sg-0123456789abcdef0" "tcp" "8080"
                     "203.0.113.10/32";
                   AuthorizeIngress "ap-southeast-5" "sg-0123456789abcdef0" "tcp" "8080"
                     "203.0.113.10/32" "codex-whitelist"]
          /\ exists perms p,
               SecurityGroups (cloud (snd SampleLines.url_run))
                 "ap-southeast-5" "sg-0123456789abcdef0" = Some perms
               /\ In p perms
               /\ In {| CidrIp := "203.0.113.10/32"; Description := "codex-whitelist" |}
                    (IpRanges p))
      \/ (status_of SampleLines.url_run <> 0
          /\ stdout (snd SampleLines.url_run) = []
          /\ cloud (snd SampleLines.url_run) = Sample.deployment)).
Proof.
  apply (report_tells_outcome Sample.laptop SampleLines.url_line Sample.deployment
           Sample.resolved (snd SampleLines.url_resolution));
    reflexivity.
Defined.

(** X14. Lines 41-204.  A command line that gives the region, the CIDR,
    the security group and the port, and no URL, is resolved without a
    single call and without a line written: the four values are those of
    the flags, as they were given. *)
Theorem explicit_identifiers_need_no_lookup
  (E : Env) (ps : list (string * string)) (r c g p : string) (s : State) :
  all_known ps = true ->
  last_value "--url" ps = None ->
  last_value "--region" ps = Some r -> r <> EmptyString ->
  last_value "--cidr" ps = Some c -> c <> EmptyString ->
  last_value "--sg" ps = Some g -> g <> EmptyString ->
  last_value "--port" ps = Some p -> p <> EmptyString ->
  exists v,
    resolve E (words ps) s = (Done v, s)
    /\ region v = r /\ cidr v = c /\ sg_id v = g /\ port v = p.
Proof.
  intros Hk Hurl Hr Hr0 Hc Hc0 Hg Hg0 Hp Hp0.
  destruct (FlagFacts.parse_args_words ps Hk initial) as (v & Hrun & Hget).
  pose proof (Hget "--url"%string url eq_refl) as Hvu; rewrite Hurl in Hvu.
  pose proof (Hget "--region"%string region eq_refl) as Hvr; rewrite Hr in Hvr.
  pose proof (Hget "--cidr"%string cidr eq_refl) as Hvc; rewrite Hc in Hvc.
  pose proof (Hget "--sg"%string sg_id eq_refl) as Hvg; rewrite Hg in Hvg.
  pose proof (Hget "--port"%string port eq_refl) as Hvp; rewrite Hp in Hvp.
  cbn [url initial] in Hvu.
  exists v; split; [|auto].
  assert (Hparse : parse_args (words ps) initial s = (Done v, s))
    by (rewrite <- (List.app_nil_r (words ps)); now rewrite Hrun).
  assert (Hne : forall x, x <> EmptyString -> is_empty x = false)
    by (intros [|a x] Hx; [now contradiction Hx | reflexivity]).
  assert (Hfront : flags_and_url E (words ps) s = (Done v, s)).
  { unfold flags_and_url; rewrite (bind_done _ _ _ _ _ Hparse).
    unfold url_block, non_empty; now rewrite Hvu. }
  assert (Er : is_empty (region v) = false) by (rewrite Hvr; now apply Hne).
  assert (Ec : is_empty (cidr v) = false) by (rewrite Hvc; now apply Hne).
  assert (Eg : is_empty (sg_id v) = false) by (rewrite Hvg; now apply Hne).
  assert (Ep : is_empty (port v) = false) by (rewrite Hvp; now apply Hne).
  assert (H1 : region_block E v s = (Done v, s))
    by (unfold region_block, require_region, bind; rewrite Er; cbn [ret]; now rewrite Er).
  assert (H2 : cidr_block E v s = (Done v, s))
    by (unfold cidr_block; now rewrite Ec).
  assert (H3 : sg_by_ip_block E v s = (Done v, s))
    by (unfold sg_by_ip_block; now rewrite Eg).
  assert (H4 : ecs_block E v s = (Done v, s))
    by (unfold ecs_block; now rewrite Eg).
  assert (H5 : port_block E v s = (Done v, s))
    by (unfold port_block; now rewrite Ep).
  unfold resolve; rewrite (bind_done _ _ _ _ _ Hfront).
  unfold resolve_rest.
  rewrite (bind_done _ _ _ _ _ H1), (bind_done _ _ _ _ _ H2), (bind_done _ _ _ _ _ H3),
    (bind_done _ _ _ _ _ H4).
  exact H5.
Qed.

(** X14 on the third example of the usage text, with a region. *)
Lemma explicit_identifiers_witness :
  exists v,
    resolve Sample.laptop
      ["--cidr"; "203.0.113.10/32"; "--sg"; "sg-0123456789abcdef0"; "--port"; "443";
       "--region"; "ap-southeast-5"]%string (start Sample.deployment)
    = (Done v, start Sample.deployment)
    /\ region v = "ap-southeast-5"%string /\ cidr v = "203.0.113.10/32"%string
    /\ sg_id v = "sg-0123456789abcdef0"%string /\ port v = "443"%string.
Proof.
  apply (explicit_identifiers_need_no_lookup Sample.laptop
           [("--cidr", "203.0.113.10/32"); ("--sg", "sg-0123456789abcdef0");
            ("--port", "443"); ("--region", "ap-southeast-5")]%string
           "ap-southeast-5" "203.0.113.10/32" "sg-0123456789abcdef0" "443"
           (start Sample.deployment)); try reflexivity; discriminate.
Defined.

(* ================================================================== *)
(** * Properties of the strategy update *)
(* ================================================================== *)

Import Js Strategy StrategyNotions.

(** X15. [update-strategy.js], lines 44-64.  The script goes on past
    line 64 exactly when its words are the four flags [--name], [--file],
    [--host] and [--key], each followed by a value, in any order and any
    number of times, and the last value of each of the four is not empty;
    it then goes on with those last values.  A value is the word after the
    flag, whatever it is. *)
Theorem arguments_accepted (argv : list string) (r : Request) :
  checked_args argv = Goes r <->
  exists ps,
    argv = words ps
    /\ forallb (fun p => takes_value (fst p)) ps = true
    /\ (last_value "--name" ps = Some (strategyName r) /\ strategyName r <> EmptyString)
    /\ (last_value "--file" ps = Some (strategyFile r) /\ strategyFile r <> EmptyString)
    /\ (last_value "--host" ps = Some (hostName r) /\ hostName r <> EmptyString)
    /\ (last_value "--key" ps = Some (keyPath r) /\ keyPath r <> EmptyString).
Proof.
  assert (Hlast : forall (x : option string) (l : option string),
             x = match l with Some v => Some v | None => None end ->
             given x = true -> l = Some (value_of x) /\ value_of x <> EmptyString).
  { intros x [v|] -> Hg; [|discriminate Hg].
    apply StrategyFacts.given_value in Hg; destruct Hg as (s & [= ->] & Hs).
    now split. }
  unfold checked_args; split.
  - destruct (parseArgs argv no_args) as [a| |] eqn:Hrun; try discriminate.
    destruct (given (name a) && given (file a) && given (host a) && given (key a))
      eqn:Hall; [|discriminate].
    apply andb_true_iff in Hall; destruct Hall as [Hall Hkey].
    apply andb_true_iff in Hall; destruct Hall as [Hall Hhost].
    apply andb_true_iff in Hall; destruct Hall as [Hname Hfile].
    intros [= <-]; cbn [strategyName strategyFile hostName keyPath].
    destruct (StrategyFacts.parseArgs_goes (List.length argv) argv no_args a (le_n _) Hrun)
      as [(ps & -> & Hk & Hget)|(get & Hin & Hnone)].
    + exists ps; split; [reflexivity|]; split; [exact Hk|].
      repeat split;
        first [ apply (Hlast _ _ (Hget "--name"%string name eq_refl) Hname)
              | apply (Hlast _ _ (Hget "--file"%string file eq_refl) Hfile)
              | apply (Hlast _ _ (Hget "--host"%string host eq_refl) Hhost)
              | apply (Hlast _ _ (Hget "--key"%string key eq_refl) Hkey) ].
    + cbn [In] in Hin.
      destruct Hin as [<-|[<-|[<-|[<-|[]]]]]; rewrite Hnone in *; discriminate.
  - intros (ps & -> & Hk & (Hn & Hn0) & (Hf & Hf0) & (Hh & Hh0) & (Hy & Hy0)).
    destruct (StrategyFacts.parseArgs_words ps Hk no_args) as (a & -> & Hget).
    pose proof (Hget "--name"%string name eq_refl) as Hvn; rewrite Hn in Hvn.
    pose proof (Hget "--file"%string file eq_refl) as Hvf; rewrite Hf in Hvf.
    pose proof (Hget "--host"%string host eq_refl) as Hvh; rewrite Hh in Hvh.
    pose proof (Hget "--key"%string key eq_refl) as Hvk; rewrite Hy in Hvk.
    rewrite Hvn, Hvf, Hvh, Hvk.
    rewrite !(proj2 (StrategyFacts.given_value _)) by (eexists; split; [reflexivity | assumption]).
    cbn [andb value_of]. now destruct r.
Qed.

(** X16. [update-strategy.js], lines 26-64.  What the script writes for
    a command line it does not accept is decided by where the loop over
    the words stops.  Every command line is flags with their values, a
    value being the word after a flag, whatever it is, and then nothing
    more, a flag alone, or a word that is no flag.  When the words run out
    after a value, the script goes on or, where one of the four flags has
    no value or an empty one, leaves with status 1 and the usage text.
    When they run out after a flag, that flag is left [undefined] and the
    script leaves with status 1 and the usage text, whatever the flag was
    given before.  At a word that is no flag the script leaves with status
    1, whatever follows: with the usage text alone for [--help] and [-h],
    and with the line [Unknown arg: WORD] for that very word and then the
    usage text for any other.  Nothing else is written to standard
    error. *)
Theorem rejected_arguments_end_with_usage (argv : list string) :
  (exists ps tail,
     argv = words ps ++ tail
     /\ forallb (fun p => takes_value (fst p)) ps = true
     /\ (tail = []
         \/ (exists flag, tail = [flag] /\ takes_value flag = true)
         \/ (exists w rest, tail = w :: rest /\ takes_value w = false)))
  /\ (forall ps tail,
        argv = words ps ++ tail ->
        forallb (fun p => takes_value (fst p)) ps = true ->
        (tail = [] ->
         (exists r, checked_args argv = Goes r)
         \/ (checked_args argv = Exits 1 usage_text
             /\ exists flag, In flag ["--name"; "--file"; "--host"; "--key"]%string
                  /\ (last_value flag ps = None \/ last_value flag ps = Some EmptyString)))
        /\ (forall flag, tail = [flag] -> takes_value flag = true ->
              checked_args argv = Exits 1 usage_text)
        /\ (forall w rest, tail = w :: rest -> takes_value w = false ->
              checked_args argv
              = Exits 1 (if is_help w then usage_text
                         else ("Unknown arg: " ++ w)%string :: usage_text))).
Proof.
  split; [exact (StrategyFacts.words_shape (List.length argv) argv (le_n _))|].
  intros ps tail -> Hk; unfold checked_args.
  destruct (StrategyFacts.parseArgs_after ps Hk no_args tail) as (a & -> & Hget).
  split; [|split].
  - intros ->; cbn [parseArgs].
    assert (Hmiss : forall flag get, property_of flag = Some get -> given (get a) = false ->
               last_value flag ps = None \/ last_value flag ps = Some EmptyString).
    { intros flag get Hvar Hg; rewrite (Hget flag get Hvar) in Hg.
      destruct (last_value flag ps) as [[|c x]|]; [now right | discriminate Hg | now left]. }
    destruct (given (name a)) eqn:Hn; cbn [andb];
      [|right; split; [reflexivity|]; exists "--name"%string; split; [cbn; auto|];
        exact (Hmiss "--name"%string name eq_refl Hn)].
    destruct (given (file a)) eqn:Hfl; cbn [andb];
      [|right; split; [reflexivity|]; exists "--file"%string; split; [cbn; auto|];
        exact (Hmiss "--file"%string file eq_refl Hfl)].
    destruct (given (host a)) eqn:Hh; cbn [andb];
      [|right; split; [reflexivity|]; exists "--host"%string; split; [cbn; auto|];
        exact (Hmiss "--host"%string host eq_refl Hh)].
    destruct (given (key a)) eqn:Hy;
      [|right; split; [reflexivity|]; exists "--key"%string; split; [cbn; auto|];
        exact (Hmiss "--key"%string key eq_refl Hy)].
    left; eexists; reflexivity.
  - intros flag -> Hf; cbn [parseArgs].
    unfold takes_value in Hf.
    destruct (flag_property flag) as [set|] eqn:Hset; [|discriminate].
    now rewrite (StrategyFacts.flag_property_undefined flag set a Hset).
  - intros w rest -> Hw; cbn [parseArgs].
    unfold takes_value in Hw.
    destruct (flag_property w); [discriminate|].
    unfold is_help, usageAndExit; rewrite orb_comm; destruct (_ || _); reflexivity.
Qed.

(** X16 on three command lines: a word that is no flag before [--help];
    [--help] taken as the value of [--file], and [-h] after it; and a
    complete command line with [--name] once more at its end. *)
Lemma rejected_arguments_witness :
  checked_args ["--name"; "Strategy002"; "--verbose"; "--help"]%string
  = Exits 1 ("Unknown arg: --verbose"%string :: usage_text)
  /\ checked_args ["--file"; "--help"; "-h"; "--bogus"]%string = Exits 1 usage_text
  /\ checked_args ["--name"; "S"; "--file"; "f"; "--host"; "h"; "--key"; "k"; "--name"]%string
     = Exits 1 usage_text.
Proof.
  split; [|split].
  - exact (proj2 (proj2 (proj2 (rejected_arguments_end_with_usage
             ["--name"; "Strategy002"; "--verbose"; "--help"]%string)
             [("--name", "Strategy002")]%string ["--verbose"; "--help"]%string
             eq_refl eq_refl))
             "--verbose"%string ["--help"]%string eq_refl eq_refl).
  - exact (proj2 (proj2 (proj2 (rejected_arguments_end_with_usage
             ["--file"; "--help"; "-h"; "--bogus"]%string)
             [("--file", "--help")]%string ["-h"; "--bogus"]%string eq_refl eq_refl))
             "-h"%string ["--bogus"]%string eq_refl eq_refl).
  - exact (proj1 (proj2 (proj2 (rejected_arguments_end_with_usage
             ["--name"; "S"; "--file"; "f"; "--host"; "h"; "--key"; "k"; "--name"]%string)
             [("--name", "S"); ("--file", "f"); ("--host", "h"); ("--key", "k")]%string
             ["--name"]%string eq_refl eq_refl))
             "--name"%string eq_refl eq_refl).
Defined.

(** X17. [update-strategy.js], lines 95-101.  When the command of the
    container is rewritten, the array keeps its length, the word after
    the first [--strategy] is the new strategy, and every other word is
    the one it was; the first [--strategy] is never the last word. *)
Theorem strategy_word_replaced (cmd cmd' : list Json) (strategy : string) :
  update_command cmd strategy = Some cmd' ->
  exists idx,
    indexOf "--strategy" cmd = Some idx
    /\ (idx + 1 < List.length cmd)%nat
    /\ List.length cmd' = List.length cmd
    /\ nth_error cmd' (idx + 1) = Some (JStr strategy)
    /\ forall j, j <> (idx + 1)%nat -> nth_error cmd' j = nth_error cmd j.
Proof.
  unfold update_command.
  destruct (indexOf "--strategy" cmd) as [idx|] eqn:Hidx; [|discriminate].
  destruct (Nat.eqb idx (List.length cmd - 1)) eqn:Hlast; [discriminate|].
  intros [= <-]; exists idx.
  destruct (StrategyFacts.indexOf_found _ _ _ Hidx) as [Hlt _].
  apply Nat.eqb_neq in Hlast.
  assert (Hin : (idx + 1 < List.length cmd)%nat) by lia.
  repeat split; auto.
  - apply StrategyFacts.store_length.
  - now apply StrategyFacts.store_same.
  - intros j Hj; now apply StrategyFacts.store_other.
Qed.

(** X17 on the command [freqtrade trade --strategy Old --config c]. *)
Lemma strategy_word_replaced_witness :
  exists idx,
    indexOf "--strategy"
      [JStr "freqtrade"; JStr "trade"; JStr "--strategy"; JStr "Old"; JStr "--config"; JStr "c"]
    = Some idx
    /\ (idx + 1 < 6)%nat
    /\ List.length
         [JStr "freqtrade"; JStr "trade"; JStr "--strategy"; JStr "New"; JStr "--config";
          JStr "c"] = 6%nat
    /\ nth_error
         [JStr "freqtrade"; JStr "trade"; JStr "--strategy"; JStr "New"; JStr "--config";
          JStr "c"] (idx + 1) = Some (JStr "New")
    /\ forall j, j <> (idx + 1)%nat ->
         nth_error
           [JStr "freqtrade"; JStr "trade"; JStr "--strategy"; JStr "New"; JStr "--config";
            JStr "c"] j
         = nth_error
             [JStr "freqtrade"; JStr "trade"; JStr "--strategy"; JStr "Old"; JStr "--config";
              JStr "c"] j.
Proof.
  apply (strategy_word_replaced
           [JStr "freqtrade"; JStr "trade"; JStr "--strategy"; JStr "Old"; JStr "--config";
            JStr "c"]
           [JStr "freqtrade"; JStr "trade"; JStr "--strategy"; JStr "New"; JStr "--config";
            JStr "c"] "New").
  reflexivity.
Defined.

(** X18. [update-strategy.js], lines 90-103.  When the task definition
    is rewritten, it was an object whose first container definition is an
    object with an array as its command; the rewritten task definition has
    the rewritten command at the same place, and every other property of
    the task definition is what it was. *)
Theorem taskdef_rewrite_is_local (taskdef taskdef' : Json) (strategy : string) :
  update_taskdef taskdef strategy = Goes taskdef' ->
  exists command cmd,
    command_of taskdef = Some command
    /\ update_command command strategy = Some cmd
    /\ command_of taskdef' = Some cmd
    /\ forall k, k <> "containerDefinitions"%string -> get taskdef' k = get taskdef k.
Proof.
  intros H; apply StrategyFacts.update_taskdef_goes in H.
  destruct H as (props & d & cprops & command & cmd & -> & Hd & Hc & Hshape & Hcmd & Hup & ->).
  exists command, cmd; unfold command_of; cbn [get].
  rewrite Hd, Hc; cbn [get]; rewrite Hcmd.
  split; [reflexivity|]; split; [exact Hup|]; split.
  - rewrite StrategyFacts.lookup_assign.
    destruct Hshape as [[dprops ->]|[rest ->]]; cbn [put_item0 item0 hd_error].
    + rewrite StrategyFacts.lookup_assign; cbn [get].
      now rewrite StrategyFacts.lookup_assign.
    + cbn [get]; now rewrite StrategyFacts.lookup_assign.
  - intros k Hk; now apply StrategyFacts.lookup_assign_other.
Qed.

(** X18 on the sample task definition, from [SimpleStrategy] to
    [Strategy002]. *)
Lemma taskdef_rewrite_witness :
  exists command cmd,
    command_of (StrategySample.taskdef "SimpleStrategy") = Some command
    /\ update_command command "Strategy002" = Some cmd
    /\ command_of (StrategySample.taskdef "Strategy002") = Some cmd
    /\ forall k, k <> "containerDefinitions"%string ->
         get (StrategySample.taskdef "Strategy002") k
         = get (StrategySample.taskdef "SimpleStrategy") k.
Proof.
  apply (taskdef_rewrite_is_local (StrategySample.taskdef "SimpleStrategy")
           (StrategySample.taskdef "Strategy002") "Strategy002").
  reflexivity.
Defined.

(** X19. [update-strategy.js], lines 90-103.  Rewriting a task
    definition that the script has rewritten gives what rewriting the
    first one gives: with the same strategy nothing changes any more, and
    with another one the result does not depend on the strategy in
    between. *)
Theorem rewrite_again (taskdef taskdef' : Json) (a : string) :
  update_taskdef taskdef a = Goes taskdef' ->
  update_taskdef taskdef' a = Goes taskdef'
  /\ forall b, update_taskdef taskdef' b = update_taskdef taskdef b.
Proof.
  intros H.
  assert (Hagain : forall b, update_taskdef taskdef' b = update_taskdef taskdef b).
  { intros b; pose proof H as H0; apply StrategyFacts.update_taskdef_goes in H0.
    destruct H0 as (props & d & cprops & command & cmd & -> & Hd & Hc & Hshape & Hcmd
                    & Hup & ->).
    pose proof (StrategyFacts.update_command_again command cmd a b Hup) as Hb.
    unfold update_taskdef; cbn [get].
    rewrite StrategyFacts.lookup_assign, Hd.
    destruct Hshape as [[dprops ->]|[rest ->]]; cbn [put_item0 item0 hd_error truthy] in *.
    - rewrite StrategyFacts.lookup_assign, Hc; cbn [truthy negb orb get].
      rewrite StrategyFacts.lookup_assign, Hcmd; cbn [isArray negb].
      rewrite Hb.
      destruct (update_command command b); [|reflexivity].
      cbn [put put_item0].
      now rewrite !StrategyFacts.assign_assign.
    - cbn [truthy negb orb get].
      rewrite StrategyFacts.lookup_assign, Hcmd; cbn [isArray negb].
      rewrite Hb.
      destruct (update_command command b); [|reflexivity].
      cbn [put put_item0].
      now rewrite !StrategyFacts.assign_assign. }
  split; [now rewrite Hagain | exact Hagain].
Qed.

(** X19 on the sample task definition. *)
Lemma rewrite_again_witness :
  update_taskdef (StrategySample.taskdef "Strategy002") "Strategy002"
  = Goes (StrategySample.taskdef "Strategy002")
  /\ forall b, update_taskdef (StrategySample.taskdef "Strategy002") b
               = update_taskdef (StrategySample.taskdef "SimpleStrategy") b.
Proof.
  apply (rewrite_again (StrategySample.taskdef "SimpleStrategy")
           (StrategySample.taskdef "Strategy002") "Strategy002").
  reflexivity.
Defined.
